(** * Priority-adaptive batch scheduler: [batch_optimizer.py]

    A shallow embedding of
    [aphrodite/endpoints/deep_tree_echo/batch_optimizer.py] and the
    properties of its admission queue, batch sizing policy, batch
    collector, coalescing step, dispatcher and running metrics.

    Modelling conventions.
    - Python [int] is [Z]; list indices and counters of loop iterations
      are [nat].
    - Python [float] is modelled by exact rationals ([Q]): rounding,
      infinities and NaN are outside the model.  A float division whose
      divisor is zero raises [ZeroDivisionError], which is modelled
      explicitly.
    - [asyncio.Future] objects live in a store indexed by their address;
      a request holds the address, so aliasing is visible.
    - The optimizer object ([self]) is a record threaded through every
      method; dictionaries are [gmap]s.
    - What the environment decides (clock readings, the GPU monitor, the
      processor, the submissions made by other tasks while the consumer
      is suspended) is an explicit argument. *)

From Stdlib Require Import ZArith QArith Qminmax Lia Lqa Bool.
From stdpp Require Import base list gmap strings.

Local Open Scope Z_scope.

(** ** [heapq]: the binary heap of the Python standard library

    [_request_heap] is a plain list manipulated through
    [heapq.heappush] and [heapq.heappop]; the definitions follow
    CPython's [Lib/heapq.py]. *)
Module Heapq.
Section Heap.
Context {A : Type}.
(** [less x y] is Python's [x < y] on heap items. *)
Variable less : A -> A -> bool.

(** The [while pos > startpos] loop of [_siftdown]; [pos] strictly
    decreases, so [pos] iterations are enough. *)
Fixpoint _siftdown_loop (fuel : nat) (heap : list A)
    (startpos pos : nat) (newitem : A) : list A :=
  match fuel with
  | O => <[pos := newitem]> heap
  | S fuel' =>
      if decide (startpos < pos)%nat then
        let parentpos := ((pos - 1) / 2)%nat in
        match heap !! parentpos with
        | Some parent =>
            if less newitem parent
            then _siftdown_loop fuel' (<[pos := parent]> heap)
                   startpos parentpos newitem
            else <[pos := newitem]> heap
        | None => heap
        end
      else <[pos := newitem]> heap
  end.

Definition _siftdown (heap : list A) (startpos pos : nat) : list A :=
  match heap !! pos with
  | Some newitem => _siftdown_loop pos heap startpos pos newitem
  | None => heap
  end.

(** [heap.append(item); _siftdown(heap, 0, len(heap)-1)] *)
Definition heappush (heap : list A) (item : A) : list A :=
  _siftdown (heap ++ [item]) 0 (length heap).

(** The index of the smaller child, as chosen in [_siftup]:
    [rightpos < endpos and not heap[childpos] < heap[rightpos]]. *)
Definition smaller_child (heap : list A) (endpos childpos : nat) : nat :=
  let rightpos := (childpos + 1)%nat in
  if decide (rightpos < endpos)%nat then
    match heap !! childpos, heap !! rightpos with
    | Some c, Some r => if less c r then childpos else rightpos
    | _, _ => childpos
    end
  else childpos.

(** The [while childpos < endpos] loop of [_siftup]: the smaller child
    is moved up until a leaf is reached; the result is the heap and the
    position of the emptied leaf. *)
Fixpoint _siftup_loop (fuel : nat) (heap : list A)
    (endpos pos : nat) : list A * nat :=
  match fuel with
  | O => (heap, pos)
  | S fuel' =>
      let childpos := (2 * pos + 1)%nat in
      if decide (childpos < endpos)%nat then
        let childpos := smaller_child heap endpos childpos in
        match heap !! childpos with
        | Some c => _siftup_loop fuel' (<[pos := c]> heap) endpos childpos
        | None => (heap, pos)
        end
      else (heap, pos)
  end.

Definition _siftup (heap : list A) (pos : nat) : list A :=
  let endpos := length heap in
  let startpos := pos in
  match heap !! pos with
  | Some newitem =>
      let '(heap, pos) := _siftup_loop (endpos - pos) heap endpos pos in
      _siftdown (<[pos := newitem]> heap) startpos pos
  | None => heap
  end.

(** [heappop]: [None] stands for the [IndexError] of an empty heap. *)
Definition heappop (heap : list A) : option (A * list A) :=
  match last heap with
  | None => None
  | Some lastelt =>
      let heap := removelast heap in
      match heap with
      | returnitem :: _ => Some (returnitem, _siftup (<[0%nat := lastelt]> heap) 0)
      | [] => Some (lastelt, [])
      end
  end.

(** The heap invariant of the [heapq] documentation:
    [heap[(k-1)//2] <= heap[k]] for every [k > 0], where [a <= b] is
    read as [not (b < a)]. *)
Definition heap_ok_at (heap : list A) (i : nat) : bool :=
  match heap !! i, heap !! ((i - 1) / 2)%nat with
  | Some x, Some p => negb (less x p)
  | _, _ => true
  end.

Definition is_heap (heap : list A) : bool :=
  forallb (heap_ok_at heap) (seq 1 (length heap - 1)).

End Heap.
End Heapq.


(** ** Data model *)

(** [class RequestPriority(Enum)] and its [.value]. *)
Inductive RequestPriority := CRITICAL | HIGH | NORMAL | LOW | BACKGROUND.

Definition priority_value (p : RequestPriority) : Z :=
  match p with
  | CRITICAL => 0 | HIGH => 1 | NORMAL => 2 | LOW => 3 | BACKGROUND => 4
  end.

(** The exceptions that occur in the module. *)
Inductive Exn :=
  | ZeroDivisionError
  | InvalidStateError
  | TimeoutError
  | CancelledError
  | IndexError
  | ProcessorError (msg : string).

(** How a call without loops ends: it returns or it raises. *)
Inductive Called (A : Type) :=
  | Returns (a : A)
  | Raises (e : Exn).
Arguments Returns {A} a.
Arguments Raises {A} e.

(** How a method of the optimizer ends: it returns, it raises, or the
    loop bound of the model is reached ([OutOfFuel] is not a Python
    outcome; it marks a [while] loop cut short by the model). *)
Inductive Outcome (A : Type) :=
  | Returned (a : A)
  | Raised (e : Exn)
  | OutOfFuel.
Arguments Returned {A} a.
Arguments Raised {A} e.
Arguments OutOfFuel {A}.

(** Float comparison [x < y] and true division [x / y]. *)
Definition Qltb (x y : Q) : bool := negb (Qle_bool y x).

Definition py_div (x y : Q) : Called Q :=
  if Qeq_bool y 0 then Raises ZeroDivisionError else Returns (x / y)%Q.

(** [sum(samples)] *)
Definition py_sum (l : list Q) : Q := fold_left Qplus l 0%Q.

(** [@dataclass class BatchOptimizerConfig] *)
Record BatchOptimizerConfig := {
  min_batch_size : Z;
  max_batch_size : Z;
  target_batch_size : Z;
  enable_priority_batching : bool;
  critical_batch_size : Z;
  high_priority_batch_size : Z;
  enable_gpu_aware_sizing : bool;
  target_gpu_utilization : Q;
  gpu_utilization_window : Z;
  adaptive_timeout : bool;
  min_timeout_ms : Q;
  max_timeout_ms : Q;
  critical_timeout_ms : Q;
  enable_coalescing : bool;
  coalescing_similarity_threshold : Q;
  enable_prefetch : bool;
  prefetch_size : Z;
  enable_batch_splitting : bool;
  max_batch_split_size : Z
}.


(** [BatchOptimizerConfig()] with the defaults of the dataclass. *)
Definition default_config : BatchOptimizerConfig :=
  {| min_batch_size := 1; max_batch_size := 64; target_batch_size := 16;
     enable_priority_batching := true; critical_batch_size := 1;
     high_priority_batch_size := 4;
     enable_gpu_aware_sizing := true; target_gpu_utilization := 85 # 100;
     gpu_utilization_window := 10;
     adaptive_timeout := true; min_timeout_ms := 10; max_timeout_ms := 100;
     critical_timeout_ms := 5;
     enable_coalescing := true; coalescing_similarity_threshold := 95 # 100;
     enable_prefetch := true; prefetch_size := 4;
     enable_batch_splitting := true; max_batch_split_size := 32 |}.

(** [@dataclass class BatchOptimizerMetrics] *)
Record BatchOptimizerMetrics := {
  total_requests : Z;
  batches_processed : Z;
  avg_batch_size : Q;
  peak_batch_size : Z;
  critical_requests : Z;
  high_priority_requests : Z;
  normal_requests : Z;
  low_priority_requests : Z;
  avg_wait_time_ms : Q;
  avg_processing_time_ms : Q;
  throughput_req_per_sec : Q;
  avg_gpu_utilization : Q;
  gpu_samples : list Q;
  batch_efficiency : Q;
  coalescing_rate : Q;
  last_updated : Q
}.

Definition set_total_requests (v : Z) (r : BatchOptimizerMetrics) : BatchOptimizerMetrics :=
  {| total_requests := v; batches_processed := batches_processed r;
     avg_batch_size := avg_batch_size r;
     peak_batch_size := peak_batch_size r;
     critical_requests := critical_requests r;
     high_priority_requests := high_priority_requests r;
     normal_requests := normal_requests r;
     low_priority_requests := low_priority_requests r;
     avg_wait_time_ms := avg_wait_time_ms r;
     avg_processing_time_ms := avg_processing_time_ms r;
     throughput_req_per_sec := throughput_req_per_sec r;
     avg_gpu_utilization := avg_gpu_utilization r;
     gpu_samples := gpu_samples r; batch_efficiency := batch_efficiency r;
     coalescing_rate := coalescing_rate r; last_updated := last_updated r |}.

Definition set_batches_processed (v : Z) (r : BatchOptimizerMetrics) : BatchOptimizerMetrics :=
  {| total_requests := total_requests r; batches_processed := v;
     avg_batch_size := avg_batch_size r;
     peak_batch_size := peak_batch_size r;
     critical_requests := critical_requests r;
     high_priority_requests := high_priority_requests r;
     normal_requests := normal_requests r;
     low_priority_requests := low_priority_requests r;
     avg_wait_time_ms := avg_wait_time_ms r;
     avg_processing_time_ms := avg_processing_time_ms r;
     throughput_req_per_sec := throughput_req_per_sec r;
     avg_gpu_utilization := avg_gpu_utilization r;
     gpu_samples := gpu_samples r; batch_efficiency := batch_efficiency r;
     coalescing_rate := coalescing_rate r; last_updated := last_updated r |}.

Definition set_avg_batch_size (v : Q) (r : BatchOptimizerMetrics) : BatchOptimizerMetrics :=
  {| total_requests := total_requests r;
     batches_processed := batches_processed r; avg_batch_size := v;
     peak_batch_size := peak_batch_size r;
     critical_requests := critical_requests r;
     high_priority_requests := high_priority_requests r;
     normal_requests := normal_requests r;
     low_priority_requests := low_priority_requests r;
     avg_wait_time_ms := avg_wait_time_ms r;
     avg_processing_time_ms := avg_processing_time_ms r;
     throughput_req_per_sec := throughput_req_per_sec r;
     avg_gpu_utilization := avg_gpu_utilization r;
     gpu_samples := gpu_samples r; batch_efficiency := batch_efficiency r;
     coalescing_rate := coalescing_rate r; last_updated := last_updated r |}.

Definition set_peak_batch_size (v : Z) (r : BatchOptimizerMetrics) : BatchOptimizerMetrics :=
  {| total_requests := total_requests r;
     batches_processed := batches_processed r;
     avg_batch_size := avg_batch_size r; peak_batch_size := v;
     critical_requests := critical_requests r;
     high_priority_requests := high_priority_requests r;
     normal_requests := normal_requests r;
     low_priority_requests := low_priority_requests r;
     avg_wait_time_ms := avg_wait_time_ms r;
     avg_processing_time_ms := avg_processing_time_ms r;
     throughput_req_per_sec := throughput_req_per_sec r;
     avg_gpu_utilization := avg_gpu_utilization r;
     gpu_samples := gpu_samples r; batch_efficiency := batch_efficiency r;
     coalescing_rate := coalescing_rate r; last_updated := last_updated r |}.

Definition set_critical_requests (v : Z) (r : BatchOptimizerMetrics) : BatchOptimizerMetrics :=
  {| total_requests := total_requests r;
     batches_processed := batches_processed r;
     avg_batch_size := avg_batch_size r;
     peak_batch_size := peak_batch_size r; critical_requests := v;
     high_priority_requests := high_priority_requests r;
     normal_requests := normal_requests r;
     low_priority_requests := low_priority_requests r;
     avg_wait_time_ms := avg_wait_time_ms r;
     avg_processing_time_ms := avg_processing_time_ms r;
     throughput_req_per_sec := throughput_req_per_sec r;
     avg_gpu_utilization := avg_gpu_utilization r;
     gpu_samples := gpu_samples r; batch_efficiency := batch_efficiency r;
     coalescing_rate := coalescing_rate r; last_updated := last_updated r |}.

Definition set_high_priority_requests (v : Z) (r : BatchOptimizerMetrics) : BatchOptimizerMetrics :=
  {| total_requests := total_requests r;
     batches_processed := batches_processed r;
     avg_batch_size := avg_batch_size r;
     peak_batch_size := peak_batch_size r;
     critical_requests := critical_requests r;
     high_priority_requests := v; normal_requests := normal_requests r;
     low_priority_requests := low_priority_requests r;
     avg_wait_time_ms := avg_wait_time_ms r;
     avg_processing_time_ms := avg_processing_time_ms r;
     throughput_req_per_sec := throughput_req_per_sec r;
     avg_gpu_utilization := avg_gpu_utilization r;
     gpu_samples := gpu_samples r; batch_efficiency := batch_efficiency r;
     coalescing_rate := coalescing_rate r; last_updated := last_updated r |}.

Definition set_normal_requests (v : Z) (r : BatchOptimizerMetrics) : BatchOptimizerMetrics :=
  {| total_requests := total_requests r;
     batches_processed := batches_processed r;
     avg_batch_size := avg_batch_size r;
     peak_batch_size := peak_batch_size r;
     critical_requests := critical_requests r;
     high_priority_requests := high_priority_requests r;
     normal_requests := v;
     low_priority_requests := low_priority_requests r;
     avg_wait_time_ms := avg_wait_time_ms r;
     avg_processing_time_ms := avg_processing_time_ms r;
     throughput_req_per_sec := throughput_req_per_sec r;
     avg_gpu_utilization := avg_gpu_utilization r;
     gpu_samples := gpu_samples r; batch_efficiency := batch_efficiency r;
     coalescing_rate := coalescing_rate r; last_updated := last_updated r |}.

Definition set_low_priority_requests (v : Z) (r : BatchOptimizerMetrics) : BatchOptimizerMetrics :=
  {| total_requests := total_requests r;
     batches_processed := batches_processed r;
     avg_batch_size := avg_batch_size r;
     peak_batch_size := peak_batch_size r;
     critical_requests := critical_requests r;
     high_priority_requests := high_priority_requests r;
     normal_requests := normal_requests r; low_priority_requests := v;
     avg_wait_time_ms := avg_wait_time_ms r;
     avg_processing_time_ms := avg_processing_time_ms r;
     throughput_req_per_sec := throughput_req_per_sec r;
     avg_gpu_utilization := avg_gpu_utilization r;
     gpu_samples := gpu_samples r; batch_efficiency := batch_efficiency r;
     coalescing_rate := coalescing_rate r; last_updated := last_updated r |}.

Definition set_avg_wait_time_ms (v : Q) (r : BatchOptimizerMetrics) : BatchOptimizerMetrics :=
  {| total_requests := total_requests r;
     batches_processed := batches_processed r;
     avg_batch_size := avg_batch_size r;
     peak_batch_size := peak_batch_size r;
     critical_requests := critical_requests r;
     high_priority_requests := high_priority_requests r;
     normal_requests := normal_requests r;
     low_priority_requests := low_priority_requests r;
     avg_wait_time_ms := v;
     avg_processing_time_ms := avg_processing_time_ms r;
     throughput_req_per_sec := throughput_req_per_sec r;
     avg_gpu_utilization := avg_gpu_utilization r;
     gpu_samples := gpu_samples r; batch_efficiency := batch_efficiency r;
     coalescing_rate := coalescing_rate r; last_updated := last_updated r |}.

Definition set_avg_processing_time_ms (v : Q) (r : BatchOptimizerMetrics) : BatchOptimizerMetrics :=
  {| total_requests := total_requests r;
     batches_processed := batches_processed r;
     avg_batch_size := avg_batch_size r;
     peak_batch_size := peak_batch_size r;
     critical_requests := critical_requests r;
     high_priority_requests := high_priority_requests r;
     normal_requests := normal_requests r;
     low_priority_requests := low_priority_requests r;
     avg_wait_time_ms := avg_wait_time_ms r; avg_processing_time_ms := v;
     throughput_req_per_sec := throughput_req_per_sec r;
     avg_gpu_utilization := avg_gpu_utilization r;
     gpu_samples := gpu_samples r; batch_efficiency := batch_efficiency r;
     coalescing_rate := coalescing_rate r; last_updated := last_updated r |}.

Definition set_throughput_req_per_sec (v : Q) (r : BatchOptimizerMetrics) : BatchOptimizerMetrics :=
  {| total_requests := total_requests r;
     batches_processed := batches_processed r;
     avg_batch_size := avg_batch_size r;
     peak_batch_size := peak_batch_size r;
     critical_requests := critical_requests r;
     high_priority_requests := high_priority_requests r;
     normal_requests := normal_requests r;
     low_priority_requests := low_priority_requests r;
     avg_wait_time_ms := avg_wait_time_ms r;
     avg_processing_time_ms := avg_processing_time_ms r;
     throughput_req_per_sec := v;
     avg_gpu_utilization := avg_gpu_utilization r;
     gpu_samples := gpu_samples r; batch_efficiency := batch_efficiency r;
     coalescing_rate := coalescing_rate r; last_updated := last_updated r |}.

Definition set_avg_gpu_utilization (v : Q) (r : BatchOptimizerMetrics) : BatchOptimizerMetrics :=
  {| total_requests := total_requests r;
     batches_processed := batches_processed r;
     avg_batch_size := avg_batch_size r;
     peak_batch_size := peak_batch_size r;
     critical_requests := critical_requests r;
     high_priority_requests := high_priority_requests r;
     normal_requests := normal_requests r;
     low_priority_requests := low_priority_requests r;
     avg_wait_time_ms := avg_wait_time_ms r;
     avg_processing_time_ms := avg_processing_time_ms r;
     throughput_req_per_sec := throughput_req_per_sec r;
     avg_gpu_utilization := v; gpu_samples := gpu_samples r;
     batch_efficiency := batch_efficiency r;
     coalescing_rate := coalescing_rate r; last_updated := last_updated r |}.

Definition set_gpu_samples (v : list Q) (r : BatchOptimizerMetrics) : BatchOptimizerMetrics :=
  {| total_requests := total_requests r;
     batches_processed := batches_processed r;
     avg_batch_size := avg_batch_size r;
     peak_batch_size := peak_batch_size r;
     critical_requests := critical_requests r;
     high_priority_requests := high_priority_requests r;
     normal_requests := normal_requests r;
     low_priority_requests := low_priority_requests r;
     avg_wait_time_ms := avg_wait_time_ms r;
     avg_processing_time_ms := avg_processing_time_ms r;
     throughput_req_per_sec := throughput_req_per_sec r;
     avg_gpu_utilization := avg_gpu_utilization r; gpu_samples := v;
     batch_efficiency := batch_efficiency r;
     coalescing_rate := coalescing_rate r; last_updated := last_updated r |}.

Definition set_batch_efficiency (v : Q) (r : BatchOptimizerMetrics) : BatchOptimizerMetrics :=
  {| total_requests := total_requests r;
     batches_processed := batches_processed r;
     avg_batch_size := avg_batch_size r;
     peak_batch_size := peak_batch_size r;
     critical_requests := critical_requests r;
     high_priority_requests := high_priority_requests r;
     normal_requests := normal_requests r;
     low_priority_requests := low_priority_requests r;
     avg_wait_time_ms := avg_wait_time_ms r;
     avg_processing_time_ms := avg_processing_time_ms r;
     throughput_req_per_sec := throughput_req_per_sec r;
     avg_gpu_utilization := avg_gpu_utilization r;
     gpu_samples := gpu_samples r; batch_efficiency := v;
     coalescing_rate := coalescing_rate r; last_updated := last_updated r |}.

Definition set_coalescing_rate (v : Q) (r : BatchOptimizerMetrics) : BatchOptimizerMetrics :=
  {| total_requests := total_requests r;
     batches_processed := batches_processed r;
     avg_batch_size := avg_batch_size r;
     peak_batch_size := peak_batch_size r;
     critical_requests := critical_requests r;
     high_priority_requests := high_priority_requests r;
     normal_requests := normal_requests r;
     low_priority_requests := low_priority_requests r;
     avg_wait_time_ms := avg_wait_time_ms r;
     avg_processing_time_ms := avg_processing_time_ms r;
     throughput_req_per_sec := throughput_req_per_sec r;
     avg_gpu_utilization := avg_gpu_utilization r;
     gpu_samples := gpu_samples r; batch_efficiency := batch_efficiency r;
     coalescing_rate := v; last_updated := last_updated r |}.

Definition set_last_updated (v : Q) (r : BatchOptimizerMetrics) : BatchOptimizerMetrics :=
  {| total_requests := total_requests r;
     batches_processed := batches_processed r;
     avg_batch_size := avg_batch_size r;
     peak_batch_size := peak_batch_size r;
     critical_requests := critical_requests r;
     high_priority_requests := high_priority_requests r;
     normal_requests := normal_requests r;
     low_priority_requests := low_priority_requests r;
     avg_wait_time_ms := avg_wait_time_ms r;
     avg_processing_time_ms := avg_processing_time_ms r;
     throughput_req_per_sec := throughput_req_per_sec r;
     avg_gpu_utilization := avg_gpu_utilization r;
     gpu_samples := gpu_samples r; batch_efficiency := batch_efficiency r;
     coalescing_rate := coalescing_rate r; last_updated := v |}.


(** [BatchOptimizerMetrics()]; [last_updated] defaults to [time.time()]. *)
Definition initial_metrics (now : Q) : BatchOptimizerMetrics :=
  {| total_requests := 0; batches_processed := 0; avg_batch_size := 0;
     peak_batch_size := 0; critical_requests := 0;
     high_priority_requests := 0; normal_requests := 0;
     low_priority_requests := 0; avg_wait_time_ms := 0;
     avg_processing_time_ms := 0; throughput_req_per_sec := 0;
     avg_gpu_utilization := 0; gpu_samples := []; batch_efficiency := 0;
     coalescing_rate := 0; last_updated := now |}.

(** What the consumer task does with the lock and the queue, in order. *)
Inductive Event :=
  | Acquire
  | Release
  | Push
  | Pop
  | Peek
  | Sleep (seconds : Q)
  | ProcessorCall.

(** [lock_discipline held trace] holds when no task suspends ([Sleep],
    [ProcessorCall]) between an [Acquire] and the matching [Release]. *)
Fixpoint lock_discipline (held : bool) (trace : list Event) : bool :=
  match trace with
  | [] => true
  | Acquire :: t => negb held && lock_discipline true t
  | Release :: t => held && lock_discipline false t
  | Sleep _ :: t | ProcessorCall :: t => negb held && lock_discipline held t
  | _ :: t => lock_discipline held t
  end.

Section Scheduler.

(** The request payload ([Dict[str, Any]]) and what a processor returns
    per request are opaque to the scheduler. *)
Variable Payload : Type.
Variable ProcValue : Type.

(** [str(hash(str(sorted(req.request_data.items()))))], the grouping
    key of [_coalesce_requests]. *)
Variable req_hash : Payload -> Z.

(** The f-string [f"req_{time.time()}_{id(request_data)}"]. *)
Variable format_request_id : Q -> Z -> string.

(** Successive readings of [time.time()]. *)
Variable clock : nat -> Q.

(** A result handed to a caller: either what the processor returned for
    the request, or the dictionary of the default handler,
    [{"status": "success", "data": req.request_data, "message": ...}]. *)
Inductive Result :=
  | Processed (v : ProcValue)
  | DefaultHandled (data : Payload).

(** [asyncio.Future]: pending, or done with a result, an exception or a
    cancellation. *)
Inductive FutureState :=
  | Pending
  | Finished (r : Result)
  | Failed (e : Exn)
  | Cancelled.

(** [future.done()] *)
Definition done (s : FutureState) : bool :=
  match s with Pending => false | _ => true end.

(** [@dataclass(order=True) class PrioritizedRequest]; [future] is the
    address of the request's [asyncio.Future]. *)
Record PrioritizedRequest := {
  priority : Z;
  timestamp : Q;
  request_id : string;
  request_data : Payload;
  future : nat
}.

(** [__lt__] generated by [order=True]: the tuples
    [(priority, timestamp)] are compared, the other fields have
    [compare=False]. *)
Definition request_less (a b : PrioritizedRequest) : bool :=
  if priority a =? priority b then
    if Qeq_bool (timestamp a) (timestamp b) then false
    else Qltb (timestamp a) (timestamp b)
  else priority a <? priority b.

(** The fields of [class BatchOptimizer] ([self]).  [gpu_monitor] maps
    the number of earlier calls to what the call returns. *)
Record BatchOptimizer := {
  config : BatchOptimizerConfig;
  gpu_monitor : option (nat -> Called Q);
  processor : option (list Payload -> Called (list Result));
  _request_heap : list PrioritizedRequest;
  _shutdown : bool;
  _metrics : BatchOptimizerMetrics;
  _request_times : gmap string Q;
  _coalescing_cache : gmap string (list string)
}.

Definition set_request_heap (v : list PrioritizedRequest) (r : BatchOptimizer) : BatchOptimizer :=
  {| config := config r; gpu_monitor := gpu_monitor r;
     processor := processor r; _request_heap := v;
     _shutdown := _shutdown r; _metrics := _metrics r;
     _request_times := _request_times r;
     _coalescing_cache := _coalescing_cache r |}.

Definition set_shutdown (v : bool) (r : BatchOptimizer) : BatchOptimizer :=
  {| config := config r; gpu_monitor := gpu_monitor r;
     processor := processor r; _request_heap := _request_heap r;
     _shutdown := v; _metrics := _metrics r;
     _request_times := _request_times r;
     _coalescing_cache := _coalescing_cache r |}.

Definition set_metrics (v : BatchOptimizerMetrics) (r : BatchOptimizer) : BatchOptimizer :=
  {| config := config r; gpu_monitor := gpu_monitor r;
     processor := processor r; _request_heap := _request_heap r;
     _shutdown := _shutdown r; _metrics := v;
     _request_times := _request_times r;
     _coalescing_cache := _coalescing_cache r |}.

Definition set_request_times (v : gmap string Q) (r : BatchOptimizer) : BatchOptimizer :=
  {| config := config r; gpu_monitor := gpu_monitor r;
     processor := processor r; _request_heap := _request_heap r;
     _shutdown := _shutdown r; _metrics := _metrics r;
     _request_times := v; _coalescing_cache := _coalescing_cache r |}.

Definition set_coalescing_cache (v : gmap string (list string)) (r : BatchOptimizer) : BatchOptimizer :=
  {| config := config r; gpu_monitor := gpu_monitor r;
     processor := processor r; _request_heap := _request_heap r;
     _shutdown := _shutdown r; _metrics := _metrics r;
     _request_times := _request_times r; _coalescing_cache := v |}.


(** One call of [submit_request] by a producer task. *)
Record Submission := {
  sub_request_data : Payload;
  sub_priority : RequestPriority;
  sub_object_id : Z
}.

(** What the other tasks do while the consumer task is suspended:
    producers call [submit_request], waiting callers reach their
    [wait_for] deadline (their future is then cancelled), and [stop()]
    may be called. *)
Record Activity := {
  submitted : list Submission;
  timed_out : list nat;
  stop_called : bool
}.

(** The activity during the k-th suspension of the consumer task. *)
Variable activity : nat -> Activity.

(** The optimizer object together with what lives outside it: the
    futures, the clock, the lock and the trace of the consumer task. *)
Record World := {
  optimizer : BatchOptimizer;
  futures : nat -> FutureState;
  next_future : nat;
  clock_reads : nat;
  monitor_calls : nat;
  suspensions : nat;
  lock_held : bool;
  lock_waiters : list (PrioritizedRequest * RequestPriority);
  trace : list Event
}.

Definition set_optimizer (v : BatchOptimizer) (r : World) : World :=
  {| optimizer := v; futures := futures r; next_future := next_future r;
     clock_reads := clock_reads r; monitor_calls := monitor_calls r;
     suspensions := suspensions r; lock_held := lock_held r;
     lock_waiters := lock_waiters r; trace := trace r |}.

Definition set_futures (v : nat -> FutureState) (r : World) : World :=
  {| optimizer := optimizer r; futures := v; next_future := next_future r;
     clock_reads := clock_reads r; monitor_calls := monitor_calls r;
     suspensions := suspensions r; lock_held := lock_held r;
     lock_waiters := lock_waiters r; trace := trace r |}.

Definition set_next_future (v : nat) (r : World) : World :=
  {| optimizer := optimizer r; futures := futures r; next_future := v;
     clock_reads := clock_reads r; monitor_calls := monitor_calls r;
     suspensions := suspensions r; lock_held := lock_held r;
     lock_waiters := lock_waiters r; trace := trace r |}.

Definition set_clock_reads (v : nat) (r : World) : World :=
  {| optimizer := optimizer r; futures := futures r;
     next_future := next_future r; clock_reads := v;
     monitor_calls := monitor_calls r; suspensions := suspensions r;
     lock_held := lock_held r; lock_waiters := lock_waiters r;
     trace := trace r |}.

Definition set_monitor_calls (v : nat) (r : World) : World :=
  {| optimizer := optimizer r; futures := futures r;
     next_future := next_future r; clock_reads := clock_reads r;
     monitor_calls := v; suspensions := suspensions r;
     lock_held := lock_held r; lock_waiters := lock_waiters r;
     trace := trace r |}.

Definition set_suspensions (v : nat) (r : World) : World :=
  {| optimizer := optimizer r; futures := futures r;
     next_future := next_future r; clock_reads := clock_reads r;
     monitor_calls := monitor_calls r; suspensions := v;
     lock_held := lock_held r; lock_waiters := lock_waiters r;
     trace := trace r |}.

Definition set_lock_held (v : bool) (r : World) : World :=
  {| optimizer := optimizer r; futures := futures r;
     next_future := next_future r; clock_reads := clock_reads r;
     monitor_calls := monitor_calls r; suspensions := suspensions r;
     lock_held := v; lock_waiters := lock_waiters r; trace := trace r |}.

Definition set_lock_waiters (v : list (PrioritizedRequest * RequestPriority)) (r : World) : World :=
  {| optimizer := optimizer r; futures := futures r;
     next_future := next_future r; clock_reads := clock_reads r;
     monitor_calls := monitor_calls r; suspensions := suspensions r;
     lock_held := lock_held r; lock_waiters := v; trace := trace r |}.

Definition set_trace (v : list Event) (r : World) : World :=
  {| optimizer := optimizer r; futures := futures r;
     next_future := next_future r; clock_reads := clock_reads r;
     monitor_calls := monitor_calls r; suspensions := suspensions r;
     lock_held := lock_held r; lock_waiters := lock_waiters r; trace := v |}.


(** *** State and exceptions *)

Definition M (A : Type) : Type := World -> Outcome A * World.

#[local] Instance M_ret : MRet M := fun A a w => (Returned a, w).
#[local] Instance M_bind : MBind M := fun A B f m w =>
  match m w with
  | (Returned a, w') => f a w'
  | (Raised e, w') => (Raised e, w')
  | (OutOfFuel, w') => (OutOfFuel, w')
  end.

Definition raise {A} (e : Exn) : M A := fun w => (Raised e, w).
Definition out_of_fuel {A} : M A := fun w => (OutOfFuel, w).
Definition get : M World := fun w => (Returned w, w).
Definition modify (f : World -> World) : M unit := fun w => (Returned tt, f w).
Definition lift {A} (c : Called A) : M A := fun w =>
  match c with
  | Returns a => (Returned a, w)
  | Raises e => (Raised e, w)
  end.

(** [try: body except Exception as e: handler(e)] *)
Definition try_except {A} (body : M A) (handler : Exn -> M A) : M A :=
  fun w =>
    match body w with
    | (Raised e, w') => handler e w'
    | r => r
    end.

Fixpoint for_each {A} (l : list A) (f : A -> M unit) : M unit :=
  match l with
  | [] => mret tt
  | x :: l' => f x ;; for_each l' f
  end.

Definition self : M BatchOptimizer := w ← get; mret (optimizer w).
Definition modify_self (f : BatchOptimizer -> BatchOptimizer) : M unit :=
  modify (fun w => set_optimizer (f (optimizer w)) w).
Definition modify_metrics
    (f : BatchOptimizerMetrics -> BatchOptimizerMetrics) : M unit :=
  modify_self (fun s => set_metrics (f (_metrics s)) s).
Definition log (e : Event) : M unit :=
  modify (fun w => set_trace (trace w ++ [e]) w).

(** [time.time()] *)
Definition time_time : M Q :=
  w ← get;
  modify (set_clock_reads (S (clock_reads w)));;
  mret (clock (clock_reads w)).

(** *** Futures *)

Definition store_set (f : nat) (s : FutureState)
    (st : nat -> FutureState) : nat -> FutureState :=
  fun g => if decide (g = f) then s else st g.

Definition future_done (f : nat) : M bool :=
  w ← get; mret (done (futures w f)).

(** [future.set_result(result)] raises [InvalidStateError] on a future
    that is already done. *)
Definition set_result (f : nat) (r : Result) : M unit :=
  w ← get;
  if done (futures w f) then raise InvalidStateError
  else modify (set_futures (store_set f (Finished r) (futures w))).

Definition set_exception (f : nat) (e : Exn) : M unit :=
  w ← get;
  if done (futures w f) then raise InvalidStateError
  else modify (set_futures (store_set f (Failed e) (futures w))).

(** [future.cancel()], as done by [asyncio.wait_for] at its deadline. *)
Definition cancel (f : nat) : M unit :=
  modify (fun w =>
    if done (futures w f) then w
    else set_futures (store_set f Cancelled (futures w)) w).

(** [asyncio.Future()] *)
Definition new_future : M nat :=
  w ← get;
  modify (fun w => set_next_future (S (next_future w))
                     (set_futures (store_set (next_future w) Pending
                                     (futures w)) w));;
  mret (next_future w).

(** What [await asyncio.wait_for(future, timeout)] gives the caller of
    [submit_request], from the state of the future at the deadline: a
    future still pending is cancelled and [TimeoutError] is raised (in
    this module nothing else cancels a future). *)
Definition wait_for (s : FutureState) : Called Result :=
  match s with
  | Pending | Cancelled => Raises TimeoutError
  | Finished r => Returns r
  | Failed e => Raises e
  end.

(** *** [submit_request] *)

(** Lines 181-191: the request is built before the lock is taken. *)
Definition submit_create (s : Submission) : M PrioritizedRequest :=
  t ← time_time;
  let request_id := format_request_id t (sub_object_id s) in
  future ← new_future;
  timestamp ← time_time;
  mret {| priority := priority_value (sub_priority s);
          timestamp := timestamp;
          request_id := request_id;
          request_data := sub_request_data s;
          future := future |}.

(** Lines 194-207: the push under the lock, then the counters. *)
Definition submit_enqueue
    (rp : PrioritizedRequest * RequestPriority) : M unit :=
  let '(prioritized_req, priority) := rp in
  log Acquire;;
  modify_self (fun s =>
    set_request_heap
      (Heapq.heappush request_less (_request_heap s) prioritized_req) s);;
  log Push;;
  t ← time_time;
  modify_self (fun s =>
    set_request_times (<[request_id prioritized_req := t]> (_request_times s)) s);;
  log Release;;
  modify_metrics (fun m => set_total_requests (total_requests m + 1) m);;
  match priority with
  | CRITICAL =>
      modify_metrics (fun m => set_critical_requests (critical_requests m + 1) m)
  | HIGH =>
      modify_metrics (fun m =>
        set_high_priority_requests (high_priority_requests m + 1) m)
  | NORMAL =>
      modify_metrics (fun m => set_normal_requests (normal_requests m + 1) m)
  | _ =>
      modify_metrics (fun m =>
        set_low_priority_requests (low_priority_requests m + 1) m)
  end.

(** *** The lock and the suspension points of the consumer task

    The tasks are scheduled cooperatively: producers run only while the
    consumer is suspended.  A producer that finds the lock taken waits
    in [lock_waiters]; waiters are served in order, before the consumer
    itself gets the lock again. *)

Definition serve_waiters : M unit :=
  w ← get;
  modify (set_lock_waiters []);;
  for_each (lock_waiters w) submit_enqueue.

(** [async with self._heap_lock:] entered by the consumer. *)
Definition lock_acquire : M unit :=
  serve_waiters;;
  modify (set_lock_held true);;
  log Acquire.

Definition lock_release : M unit :=
  modify (set_lock_held false);;
  log Release.

Definition producer_runs (s : Submission) : M unit :=
  req ← submit_create s;
  w ← get;
  if lock_held w then
    modify (set_lock_waiters (lock_waiters w ++ [(req, sub_priority s)]))
  else submit_enqueue (req, sub_priority s).

(** The consumer is suspended; the other tasks run. *)
Definition suspended : M unit :=
  w ← get;
  let a := activity (suspensions w) in
  modify (set_suspensions (S (suspensions w)));;
  (if lock_held w then mret tt else serve_waiters);;
  for_each (submitted a) producer_runs;;
  for_each (timed_out a) cancel;;
  if stop_called a then modify_self (set_shutdown true) else mret tt.

(** [await asyncio.sleep(seconds)] *)
Definition asyncio_sleep (seconds : Q) : M unit :=
  log (Sleep seconds);; suspended.

(** *** [_calculate_optimal_batch_size] *)

(** Lines 248-261, the body of the [try]. *)
Definition gpu_adjusted_size (monitor : nat -> Called Q)
    (batch_size : Z) : M Z :=
  w ← get;
  modify (set_monitor_calls (S (monitor_calls w)));;
  gpu_util ← lift (monitor (monitor_calls w));
  modify_metrics (fun m => set_gpu_samples (gpu_samples m ++ [gpu_util]) m);;
  s ← self;
  (if Z.of_nat (length (gpu_samples (_metrics s)))
        >? gpu_utilization_window (config s)
   then modify_metrics (fun m => set_gpu_samples (tail (gpu_samples m)) m)
   else mret tt);;
  s ← self;
  let samples := gpu_samples (_metrics s) in
  avg_gpu_util ← lift (py_div (py_sum samples)
                         (inject_Z (Z.of_nat (length samples))));
  modify_metrics (set_avg_gpu_utilization avg_gpu_util);;
  let cfg := config s in
  if Qltb avg_gpu_util (target_gpu_utilization cfg - (1 # 10))%Q then
    mret (Z.min (batch_size + 4) (max_batch_size cfg))
  else if Qltb (target_gpu_utilization cfg + (1 # 10))%Q avg_gpu_util then
    mret (Z.max (batch_size - 4) (min_batch_size cfg))
  else mret batch_size.

(** Lines 268-273, under the lock. *)
Definition priority_override (batch_size : Z) : M Z :=
  s ← self;
  let cfg := config s in
  match _request_heap s with
  | top :: _ =>
      log Peek;;
      let top_priority := priority top in
      if top_priority =? priority_value CRITICAL then
        mret (critical_batch_size cfg)
      else if top_priority =? priority_value HIGH then
        mret (Z.min batch_size (high_priority_batch_size cfg))
      else mret batch_size
  | [] => mret batch_size
  end.

Definition _calculate_optimal_batch_size : M Z :=
  s ← self;
  let cfg := config s in
  let batch_size := target_batch_size cfg in
  batch_size ←
    match enable_gpu_aware_sizing cfg, gpu_monitor s with
    | true, Some monitor =>
        try_except (gpu_adjusted_size monitor batch_size)
          (fun e => mret batch_size)
    | _, _ => mret batch_size
    end;
  lock_acquire;;
  batch_size ← priority_override batch_size;
  lock_release;;
  mret batch_size.

(** *** [_calculate_timeout] *)

Definition _calculate_timeout (s : BatchOptimizer)
    (batch_size : Z) : Called Q :=
  let cfg := config s in
  if negb (adaptive_timeout cfg) then Returns (max_timeout_ms cfg)
  else
    let queue_size := Z.of_nat (length (_request_heap s)) in
    if queue_size >=? batch_size * 2 then Returns (min_timeout_ms cfg)
    else if queue_size <? batch_size / 2 then Returns (max_timeout_ms cfg)
    else
      match py_div (inject_Z queue_size) (inject_Z batch_size) with
      | Returns ratio =>
          Returns (min_timeout_ms cfg
                   + (max_timeout_ms cfg - min_timeout_ms cfg) * (1 - ratio))%Q
      | Raises e => Raises e
      end.

(** *** [_coalesce_requests] *)

(** The dictionary [groups], in insertion order:
    [if req_hash not in groups: groups[req_hash] = []] then
    [groups[req_hash].append(req)]. *)
Fixpoint group_add (h : Z) (req : PrioritizedRequest)
    (groups : list (Z * list PrioritizedRequest))
    : list (Z * list PrioritizedRequest) :=
  match groups with
  | [] => [(h, [req])]
  | (k, group) :: rest =>
      if k =? h then (k, group ++ [req]) :: rest
      else (k, group) :: group_add h req rest
  end.

Definition group_requests (batch : list PrioritizedRequest)
    : list (Z * list PrioritizedRequest) :=
  fold_left (fun groups req => group_add (req_hash (request_data req)) req groups)
    batch [].

(** One iteration of [for req_hash, group in groups.items()]. *)
Definition coalesce_group (coalesced : list PrioritizedRequest)
    (group : list PrioritizedRequest) : M (list PrioritizedRequest) :=
  match group with
  | primary :: (_ :: _) as others =>
      modify_self (fun s =>
        set_coalescing_cache
          (<[request_id primary := map request_id others]>
             (_coalescing_cache s)) s);;
      s ← self;
      let m := _metrics s in
      rate ← lift (py_div
                (coalescing_rate m * inject_Z (batches_processed m)
                 + inject_Z (Z.of_nat (length group) - 1))%Q
                (inject_Z (batches_processed m + 1)));
      modify_metrics (set_coalescing_rate rate);;
      mret (coalesced ++ [primary])
  | [primary] => mret (coalesced ++ [primary])
  | [] => raise IndexError
  end.

Fixpoint coalesce_groups (groups : list (Z * list PrioritizedRequest))
    (coalesced : list PrioritizedRequest) : M (list PrioritizedRequest) :=
  match groups with
  | [] => mret coalesced
  | (_, group) :: rest =>
      coalesced ← coalesce_group coalesced group;
      coalesce_groups rest coalesced
  end.

Definition _coalesce_requests (batch : list PrioritizedRequest)
    : M (list PrioritizedRequest) :=
  coalesce_groups (group_requests batch) [].

(** *** [_collect_batch] *)

(** [if (time.time() - start_time) * 1000 > timeout] *)
Definition timeout_expired (timeout start_time : Q) : M bool :=
  now ← time_time;
  mret (Qltb timeout ((now - start_time) * 1000)%Q).

(** The [while len(batch) < target_size] loop; [fuel] bounds the number
    of iterations. *)
Fixpoint collect_loop (fuel : nat) (target_size : Z)
    (timeout start_time : Q) (batch : list PrioritizedRequest)
    : M (list PrioritizedRequest) :=
  match fuel with
  | O => out_of_fuel
  | S fuel' =>
      if Z.of_nat (length batch) <? target_size then
        lock_acquire;;
        s ← self;
        match _request_heap s with
        | _ :: _ =>
            match Heapq.heappop request_less (_request_heap s) with
            | Some (req, heap) =>
                modify_self (set_request_heap heap);;
                log Pop;;
                let batch := batch ++ [req] in
                lock_release;;
                expired ← timeout_expired timeout start_time;
                if (expired : bool) then mret batch
                else collect_loop fuel' target_size timeout start_time batch
            | None => raise IndexError
            end
        | [] =>
            match batch with
            | _ :: _ => lock_release;; mret batch
            | [] =>
                asyncio_sleep (1 # 1000);;
                lock_release;;
                expired ← timeout_expired timeout start_time;
                if (expired : bool) then mret batch
                else collect_loop fuel' target_size timeout start_time batch
            end
        end
      else mret batch
  end.

Definition _collect_batch (fuel : nat) (target_size : Z)
    : M (list PrioritizedRequest) :=
  s ← self;
  timeout ← lift (_calculate_timeout s target_size);
  start_time ← time_time;
  batch ← collect_loop fuel target_size timeout start_time [];
  s ← self;
  if enable_coalescing (config s) && (1 <? length batch)%nat then
    _coalesce_requests batch
  else mret batch.

(** *** Metrics *)

Definition _update_wait_time (wait_time_ms : Q) : M unit :=
  s ← self;
  let m := _metrics s in
  let total := total_requests m in
  if 0 <? total then
    avg ← lift (py_div (avg_wait_time_ms m * inject_Z (total - 1)
                        + wait_time_ms)%Q (inject_Z total));
    modify_metrics (set_avg_wait_time_ms avg)
  else mret tt.

Definition _update_metrics (batch_size : Z) (processing_time_ms : Q)
    : M unit :=
  modify_metrics (fun m => set_batches_processed (batches_processed m + 1) m);;
  s ← self;
  let m := _metrics s in
  avg ← lift (py_div (avg_batch_size m * inject_Z (batches_processed m - 1)
                      + inject_Z batch_size)%Q
                (inject_Z (batches_processed m)));
  modify_metrics (set_avg_batch_size avg);;
  (if peak_batch_size m <? batch_size
   then modify_metrics (set_peak_batch_size batch_size)
   else mret tt);;
  avg ← lift (py_div (avg_processing_time_ms m
                      * inject_Z (batches_processed m - 1)
                      + processing_time_ms)%Q
                (inject_Z (batches_processed m)));
  modify_metrics (set_avg_processing_time_ms avg);;
  (if Qltb 0 processing_time_ms then
     q ← lift (py_div (inject_Z batch_size) processing_time_ms);
     modify_metrics (set_throughput_req_per_sec (q * 1000)%Q)
   else mret tt);;
  s ← self;
  let m := _metrics s in
  theoretical_throughput ←
    lift (py_div (inject_Z (max_batch_size (config s)))
            (avg_processing_time_ms m));
  (if Qltb 0 theoretical_throughput then
     e ← lift (py_div (throughput_req_per_sec m) theoretical_throughput);
     modify_metrics (set_batch_efficiency e)
   else mret tt);;
  now ← time_time;
  modify_metrics (set_last_updated now).

(** *** [_process_batch] *)

(** Lines 374-384: the processor, or the default handler.  Awaiting the
    processor suspends the consumer task. *)
Definition call_processor (batch : list PrioritizedRequest)
    : M (list Result) :=
  let request_data_list := map request_data batch in
  s ← self;
  match processor s with
  | Some process =>
      log ProcessorCall;;
      suspended;;
      lift (process request_data_list)
  | None =>
      mret (map (fun req => DefaultHandled (request_data req)) batch)
  end.

(** Lines 388-402: one iteration of [for req, result in zip(batch, results)]. *)
Definition distribute_result
    (rr : PrioritizedRequest * Result) : M unit :=
  let '(req, result) := rr in
  is_done ← future_done (future req);
  (if negb is_done then set_result (future req) result else mret tt);;
  s ← self;
  (match _coalescing_cache s !! request_id req with
   | Some coalesced_ids =>
       for_each coalesced_ids (fun coalesced_id => mret tt);;
       modify_self (fun s =>
         set_coalescing_cache
           (delete (request_id req) (_coalescing_cache s)) s)
   | None => mret tt
   end);;
  s ← self;
  match _request_times s !! request_id req with
  | Some submitted_at =>
      now ← time_time;
      let wait_time := ((now - submitted_at) * 1000)%Q in
      _update_wait_time wait_time;;
      modify_self (fun s =>
        set_request_times (delete (request_id req) (_request_times s)) s)
  | None => mret tt
  end.

Definition distribute_results (batch : list PrioritizedRequest)
    (results : list Result) : M unit :=
  for_each (zip batch results) distribute_result.

(** Lines 407-409: the [except] branch. *)
Definition fail_batch (batch : list PrioritizedRequest) (e : Exn) : M unit :=
  for_each batch (fun req =>
    is_done ← future_done (future req);
    if negb is_done then set_exception (future req) e else mret tt).

Definition _process_batch (batch : list PrioritizedRequest) : M unit :=
  match batch with
  | [] => mret tt
  | _ :: _ =>
      start_time ← time_time;
      try_except
        (results ← call_processor batch;
         distribute_results batch results)
        (fail_batch batch);;
      now ← time_time;
      let processing_time := ((now - start_time) * 1000)%Q in
      _update_metrics (Z.of_nat (length batch)) processing_time
  end.

(** *** [_processing_loop], [stop] *)

Fixpoint _processing_loop (fuel collect_fuel : nat) : M unit :=
  match fuel with
  | O => out_of_fuel
  | S fuel' =>
      s ← self;
      if _shutdown s then mret tt
      else
        try_except
          (batch_size ← _calculate_optimal_batch_size;
           batch ← _collect_batch collect_fuel batch_size;
           match batch with
           | [] => asyncio_sleep (1 # 100)
           | _ :: _ => _process_batch batch
           end)
          (fun e => asyncio_sleep (1 # 10));;
        _processing_loop fuel' collect_fuel
  end.

(** [BatchOptimizer(config, gpu_monitor, processor)] in a fresh world. *)
Definition new_optimizer (cfg : BatchOptimizerConfig)
    (monitor : option (nat -> Called Q))
    (process : option (list Payload -> Called (list Result)))
    : BatchOptimizer :=
  {| config := cfg; gpu_monitor := monitor; processor := process;
     _request_heap := []; _shutdown := false;
     _metrics := initial_metrics (clock 0);
     _request_times := ∅; _coalescing_cache := ∅ |}.

Definition new_world (s : BatchOptimizer) : World :=
  {| optimizer := s; futures := fun _ => Pending; next_future := 0;
     clock_reads := 1; monitor_calls := 0; suspensions := 0;
     lock_held := false; lock_waiters := []; trace := [] |}.

(** The world after the batches of [history] (the size and the measured
    processing time of each) went through [_update_metrics], as at the
    end of [_process_batch]; an update that raises keeps what it had
    already written. *)
Definition record_batches (history : list (Z * Q)) (w : World) : World :=
  fold_left (fun w b => (_update_metrics b.1 b.2 w).2) history w.

(** *** [get_queue_size], [get_metrics] *)

(** [len(self._request_heap)] *)
Definition get_queue_size (s : BatchOptimizer) : Z :=
  Z.of_nat (length (_request_heap s)).

Definition get_metrics (s : BatchOptimizer) : BatchOptimizerMetrics :=
  _metrics s.


(** * Properties

    ** The heap invariant of [heapq] *)

Section HeapqFacts.
Import Heapq.
Context {A : Type} (less : A -> A -> bool).
Hypothesis less_irrefl : forall x, less x x = false.
Hypothesis less_trans :
  forall x y z, less x y = true -> less y z = true -> less x z = true.
Hypothesis less_negtrans :
  forall x y z, less x y = false -> less y z = false -> less x z = false.

Abbreviation parent i := ((i - 1) / 2)%nat.

Definition heap_inv (h : list A) : Prop :=
  forall i x p, (0 < i)%nat -> h !! i = Some x ->
    h !! parent i = Some p -> less x p = false.

Lemma less_asym x y : less x y = true -> less y x = false.
Proof.
  intros Hxy. destruct (less y x) eqn:Hyx; [|done].
  by rewrite <- (less_irrefl x), (less_trans x y x).
Qed.

Lemma less_below x y z :
  less x y = true -> less z y = false -> less z x = false.
Proof.
  intros Hxy Hzy. destruct (less z x) eqn:Hzx; [|done].
  by rewrite <- Hzy, (less_trans z x y).
Qed.

Lemma is_heap_spec h : is_heap less h = true <-> heap_inv h.
Proof.
  unfold is_heap, heap_inv. rewrite forallb_forall. split.
  - intros H i x p Hi Hx Hp.
    assert (Hin : In i (seq 1 (length h - 1))).
    { apply in_seq. apply lookup_lt_Some in Hx. lia. }
    specialize (H i Hin). unfold heap_ok_at in H.
    rewrite Hx, Hp in H. by apply negb_true_iff.
  - intros H i Hin. apply in_seq in Hin. unfold heap_ok_at.
    destruct (h !! i) as [x|] eqn:Hx; [|done].
    destruct (h !! parent i) as [p|] eqn:Hp; [|done].
    apply negb_true_iff. apply (H i x p); [lia|done|done].
Qed.

Lemma heap_inv_nil : heap_inv [].
Proof. intros i x p _ Hx. by rewrite lookup_nil in Hx. Qed.

(** *** [_siftdown] *)

Lemma siftdown_loop_length fuel : forall h start pos x,
  length (_siftdown_loop less fuel h start pos x) = length h.
Proof.
  induction fuel as [|fuel IH]; intros h start pos x; cbn [_siftdown_loop].
  - by rewrite length_insert.
  - case_decide; [|by rewrite length_insert].
    destruct (h !! parent pos) as [p|]; [|done].
    destruct (less x p); [|by rewrite length_insert].
    by rewrite IH, length_insert.
Qed.

Lemma parent_lt i : (0 < i)%nat -> (parent i < i)%nat.
Proof. intros Hi. apply Nat.Div0.div_lt_upper_bound. lia. Qed.

Lemma lookup_parent_Some (h : list A) i :
  (i < length h)%nat -> exists p, h !! parent i = Some p.
Proof.
  intros Hi. apply lookup_lt_is_Some_2.
  assert (parent i <= i)%nat by (apply Nat.Div0.div_le_upper_bound; lia).
  lia.
Qed.

Lemma siftdown_loop_perm fuel : forall h start pos x,
  (pos < length h)%nat ->
  _siftdown_loop less fuel h start pos x ≡ₚ <[pos := x]> h.
Proof.
  induction fuel as [|fuel IH]; intros h start pos x Hlen; cbn [_siftdown_loop]; [done|].
  case_decide as Hpos; [|done].
  destruct (lookup_parent_Some h pos Hlen) as [p Hp]. rewrite Hp.
  destruct (less x p); [|done].
  assert (Hne : parent pos <> pos) by (pose proof (parent_lt pos); lia).
  rewrite IH by (rewrite length_insert; apply lookup_lt_Some in Hp; lia).
  rewrite <- (list_insert_insert_eq h pos p x).
  apply Permutation_insert_swap.
  - by rewrite list_lookup_insert_eq.
  - by rewrite list_lookup_insert_ne.
Qed.

(** The invariant of the [_siftdown] loop: the heap order holds for
    every pair except [(pos, parent pos)], and the children of [pos]
    are not below [newitem] nor below the parent of [pos]. *)
Lemma siftdown_loop_inv fuel : forall h pos x,
  (pos <= fuel)%nat -> (pos < length h)%nat ->
  (forall i y p, (0 < i)%nat -> i <> pos -> h !! i = Some y ->
      h !! parent i = Some p -> less y p = false) ->
  (forall c y, (0 < c)%nat -> parent c = pos -> h !! c = Some y ->
      less y x = false) ->
  (forall c y p, (0 < pos)%nat -> (0 < c)%nat -> parent c = pos ->
      h !! c = Some y -> h !! parent pos = Some p -> less y p = false) ->
  heap_inv (_siftdown_loop less fuel h 0 pos x).
Proof.
  assert (Hexit : forall h pos x,
    (pos < length h)%nat ->
    (forall i y p, (0 < i)%nat -> i <> pos -> h !! i = Some y ->
        h !! parent i = Some p -> less y p = false) ->
    (forall c y, (0 < c)%nat -> parent c = pos -> h !! c = Some y ->
        less y x = false) ->
    (forall p, (0 < pos)%nat -> h !! parent pos = Some p -> less x p = false) ->
    heap_inv (<[pos := x]> h)).
  { intros h pos x Hlen Hex Hch Hpar i y p Hi Hy Hp.
    pose proof (parent_lt i Hi).
    destruct (decide (i = pos)) as [->|Hne].
    - rewrite list_lookup_insert_eq in Hy by done.
      rewrite list_lookup_insert_ne in Hp by lia.
      injection Hy as <-. by apply Hpar.
    - rewrite list_lookup_insert_ne in Hy by done.
      destruct (decide (parent i = pos)) as [Hpi|Hpi].
      + rewrite Hpi, list_lookup_insert_eq in Hp by done.
        injection Hp as <-. by eapply Hch.
      + rewrite list_lookup_insert_ne in Hp by done. by eapply Hex. }
  induction fuel as [|fuel IH]; intros h pos x Hfuel Hlen Hex Hch Hgr;
    cbn [_siftdown_loop].
  { apply Hexit; auto. intros; lia. }
  case_decide as Hpos; [|apply Hexit; auto; intros; lia].
  destruct (lookup_parent_Some h pos Hlen) as [P HP]. rewrite HP.
  destruct (less x P) eqn:HxP.
  2:{ apply Hexit; auto. intros p _ Hp. congruence. }
  pose proof (parent_lt pos) as Hlt.
  apply IH.
  - lia.
  - rewrite length_insert. lia.
  - intros i y p Hi Hne Hy Hp.
    pose proof (parent_lt i Hi).
    destruct (decide (i = pos)) as [->|Hne'].
    + rewrite list_lookup_insert_eq in Hy by done. injection Hy as <-.
      rewrite list_lookup_insert_ne in Hp by lia.
      rewrite HP in Hp. injection Hp as <-. apply less_irrefl.
    + rewrite list_lookup_insert_ne in Hy by done.
      destruct (decide (parent i = pos)) as [Hpi|Hpi].
      * rewrite Hpi, list_lookup_insert_eq in Hp by done. injection Hp as <-.
        eapply Hgr; eauto.
      * rewrite list_lookup_insert_ne in Hp by done. by eapply Hex.
  - intros c y Hc Hpc Hy.
    destruct (decide (c = pos)) as [->|Hne].
    + rewrite list_lookup_insert_eq in Hy by done. injection Hy as <-.
      by apply less_asym.
    + rewrite list_lookup_insert_ne in Hy by done.
      apply (less_below x P y HxP). eapply Hex; eauto. by rewrite Hpc.
  - intros c y p Hpp Hc Hpc Hy Hp.
    pose proof (parent_lt (parent pos) Hpp).
    rewrite list_lookup_insert_ne in Hp by lia.
    assert (HPp : less P p = false) by (eapply (Hex (parent pos)); eauto; lia).
    destruct (decide (c = pos)) as [->|Hne].
    + rewrite list_lookup_insert_eq in Hy by done. by injection Hy as <-.
    + rewrite list_lookup_insert_ne in Hy by done.
      apply (less_negtrans y P p); [|done].
      eapply Hex; eauto. by rewrite Hpc.
Qed.

Lemma siftdown_inv (h : list A) pos :
  (pos < length h)%nat ->
  (forall i y p, (0 < i)%nat -> i <> pos -> h !! i = Some y ->
      h !! parent i = Some p -> less y p = false) ->
  (forall c, (0 < c)%nat -> parent c = pos -> h !! c = None) ->
  heap_inv (_siftdown less h 0 pos).
Proof.
  intros Hlen Hex Hleaf. unfold _siftdown.
  destruct (lookup_lt_is_Some_2 h pos Hlen) as [x Hx]. rewrite Hx.
  apply siftdown_loop_inv; auto.
  - intros c y Hc Hpc Hy. rewrite (Hleaf c Hc Hpc) in Hy. done.
  - intros c y p _ Hc Hpc Hy. rewrite (Hleaf c Hc Hpc) in Hy. done.
Qed.

Lemma siftdown_perm (h : list A) start pos :
  _siftdown less h start pos ≡ₚ h.
Proof.
  unfold _siftdown. destruct (h !! pos) as [x|] eqn:Hx; [|done].
  rewrite siftdown_loop_perm by (by eapply lookup_lt_Some).
  by rewrite list_insert_id.
Qed.

(** *** [heappush] *)

Lemma heappush_perm h x : heappush less h x ≡ₚ x :: h.
Proof.
  unfold heappush. rewrite siftdown_perm.
  by rewrite Permutation_app_comm.
Qed.

Lemma heappush_inv h x : heap_inv h -> heap_inv (heappush less h x).
Proof.
  intros Hh. unfold heappush. apply siftdown_inv.
  - rewrite length_app. simpl. lia.
  - intros i y p Hi Hne Hy Hp.
    pose proof (parent_lt i Hi).
    assert (i < length h)%nat.
    { apply lookup_lt_Some in Hy. rewrite length_app in Hy. simpl in Hy. lia. }
    rewrite lookup_app_l in Hy, Hp by lia. by eapply Hh.
  - intros c Hc Hpc. apply lookup_ge_None_2.
    rewrite length_app. simpl.
    assert (2 * parent c + 1 <= c)%nat; [|lia].
    pose proof (Nat.div_mod_eq (c - 1) 2).
    pose proof (Nat.mod_upper_bound (c - 1) 2). lia.
Qed.

(** *** [_siftup] *)

Lemma smaller_child_spec (h : list A) cp :
  (cp < length h)%nat ->
  exists v, h !! smaller_child less h (length h) cp = Some v
    /\ (smaller_child less h (length h) cp = cp
        \/ smaller_child less h (length h) cp = S cp)
    /\ (forall y, h !! cp = Some y -> less y v = false)
    /\ (forall y, h !! S cp = Some y -> less y v = false).
Proof.
  intros Hcp. unfold smaller_child. rewrite Nat.add_1_r.
  destruct (lookup_lt_is_Some_2 h cp Hcp) as [c Hc]. rewrite Hc.
  case_decide as Hr.
  - destruct (lookup_lt_is_Some_2 h (S cp) Hr) as [r Hr']. rewrite Hr'.
    destruct (less c r) eqn:Hcr.
    + exists c. repeat split; auto.
      * intros y [= <-]. apply less_irrefl.
      * intros y [= <-]. by apply less_asym.
    + exists r. repeat split; auto.
      * intros y [= <-]. done.
      * intros y [= <-]. apply less_irrefl.
  - exists c. repeat split; auto.
    + intros y [= <-]. apply less_irrefl.
    + intros y Hy. apply lookup_lt_Some in Hy. lia.
Qed.

Lemma parent_child c pos :
  (0 < c)%nat -> parent c = pos <-> (c = 2 * pos + 1 \/ c = 2 * pos + 2)%nat.
Proof.
  intros Hc.
  pose proof (Nat.div_mod_eq (c - 1) 2).
  pose proof (Nat.mod_upper_bound (c - 1) 2). lia.
Qed.

(** The invariant of the [_siftup] loop: the heap order holds for every
    pair whose parent is not [pos], and the children of [pos] are not
    below the parent of [pos]. *)
Definition siftup_inv (h : list A) (pos : nat) : Prop :=
  (forall i y p, (0 < i)%nat -> parent i <> pos -> h !! i = Some y ->
      h !! parent i = Some p -> less y p = false) /\
  (forall c y p, (0 < pos)%nat -> (0 < c)%nat -> parent c = pos ->
      h !! c = Some y -> h !! parent pos = Some p -> less y p = false).

Lemma siftup_loop_spec fuel : forall h pos h' pos' x,
  (length h - pos <= fuel)%nat -> (pos < length h)%nat ->
  _siftup_loop less fuel h (length h) pos = (h', pos') ->
  length h' = length h /\ (pos' < length h)%nat
  /\ (length h <= 2 * pos' + 1)%nat
  /\ <[pos' := x]> h' ≡ₚ <[pos := x]> h
  /\ (siftup_inv h pos -> siftup_inv h' pos').
Proof.
  induction fuel as [|fuel IH]; intros h pos h' pos' x Hfuel Hlen;
    cbn [_siftup_loop].
  { intros [= <- <-]. split_and!; first [done|lia]. }
  case_decide as Hcp.
  2:{ intros [= <- <-]. split_and!; first [done|lia]. }
  destruct (smaller_child_spec h (2 * pos + 1) Hcp)
    as (v & Hv & Hc & Hleft & Hright).
  set (c := smaller_child less h (length h) (2 * pos + 1)) in *.
  rewrite Hv. intros Hloop.
  assert (Hclen : (c < length h)%nat) by (by eapply lookup_lt_Some).
  assert (Hcpos : (pos < c)%nat) by lia.
  rewrite <- (length_insert h pos v) in Hloop.
  apply (IH _ _ _ _ x) in Hloop; rewrite ?length_insert in *; try lia.
  destruct Hloop as (Hl & Hp' & Hleaf & Hperm & Hinv).
  split_and!; [done..| |].
  - rewrite Hperm. rewrite <- (list_insert_insert_eq h pos v x).
    apply Permutation_insert_swap.
    + by rewrite list_lookup_insert_eq.
    + rewrite list_lookup_insert_ne by lia. done.
  - intros [Ha Hb]. apply Hinv. split.
    + intros i y p Hi Hne Hy Hp.
      pose proof (parent_lt i Hi).
      destruct (decide (i = pos)) as [->|Hipos].
      * rewrite list_lookup_insert_eq in Hy by done. injection Hy as <-.
        rewrite list_lookup_insert_ne in Hp by lia.
        eapply (Hb c); eauto; try lia. apply parent_child; lia.
      * rewrite list_lookup_insert_ne in Hy by done.
        destruct (decide (parent i = pos)) as [Hpi|Hpi].
        -- rewrite Hpi, list_lookup_insert_eq in Hp by done.
           injection Hp as <-.
           apply parent_child in Hpi; [|done].
           destruct Hpi as [->| ->]; [by apply Hleft|].
           apply Hright. by rewrite <- Hy; f_equal; lia.
        -- rewrite list_lookup_insert_ne in Hp by done. by eapply Ha.
    + intros g y p _ Hg Hpg Hy Hp.
      assert (parent c = pos) as Hpc by (apply parent_child; lia).
      pose proof (parent_lt g Hg).
      rewrite list_lookup_insert_ne in Hy by lia.
      rewrite Hpc, list_lookup_insert_eq in Hp by done. injection Hp as <-.
      eapply (Ha g); eauto; try lia. by rewrite Hpg.
Qed.

Lemma siftup_root_perm (h : list A) : _siftup less h 0 ≡ₚ h.
Proof.
  unfold _siftup. destruct (h !! 0%nat) as [x|] eqn:Hx; [|done].
  destruct (_siftup_loop less (length h - 0) h (length h) 0)
    as [h' pos'] eqn:Hloop.
  apply (siftup_loop_spec _ _ _ _ _ x) in Hloop;
    [|lia|by eapply lookup_lt_Some].
  destruct Hloop as (_ & _ & _ & Hperm & _).
  by rewrite siftdown_perm, Hperm, list_insert_id.
Qed.

Lemma siftup_root_inv (h : list A) :
  (forall i y p, (0 < i)%nat -> parent i <> 0%nat -> h !! i = Some y ->
      h !! parent i = Some p -> less y p = false) ->
  heap_inv (_siftup less h 0).
Proof.
  intros Ha. unfold _siftup.
  destruct (h !! 0%nat) as [x|] eqn:Hx.
  2:{ apply lookup_ge_None in Hx. destruct h; [apply heap_inv_nil|simpl in Hx; lia]. }
  destruct (_siftup_loop less (length h - 0) h (length h) 0)
    as [h' pos'] eqn:Hloop.
  apply (siftup_loop_spec _ _ _ _ _ x) in Hloop;
    [|lia|by eapply lookup_lt_Some].
  destruct Hloop as (Hl & Hp' & Hleaf & _ & Hinv).
  destruct Hinv as [Ha' _]; [split; [done|intros; lia]|].
  assert (Hnone : forall c, (0 < c)%nat -> parent c = pos' -> h' !! c = None).
  { intros c Hc Hpc. apply lookup_ge_None_2.
    apply parent_child in Hpc; [|done]. lia. }
  apply siftdown_inv.
  - rewrite length_insert. lia.
  - intros i y p Hi Hne Hy Hp.
    rewrite list_lookup_insert_ne in Hy by done.
    destruct (decide (parent i = pos')) as [Hpi|Hpi].
    + rewrite (Hnone i Hi Hpi) in Hy. done.
    + rewrite list_lookup_insert_ne in Hp by done. by eapply Ha'.
  - intros c Hc Hpc. rewrite list_lookup_insert_ne.
    + by apply Hnone.
    + pose proof (parent_lt c Hc). lia.
Qed.

(** *** [heappop] *)

Lemma heap_inv_root_min h r :
  heap_inv h -> h !! 0%nat = Some r ->
  forall i y, h !! i = Some y -> less y r = false.
Proof.
  intros Hh Hr i. induction (lt_wf i) as [i _ IH]. intros y Hy.
  destruct (decide (i = 0%nat)) as [->|Hi].
  - rewrite Hr in Hy. injection Hy as <-. apply less_irrefl.
  - destruct (lookup_parent_Some h i) as [p Hp]; [by eapply lookup_lt_Some|].
    apply (less_negtrans y p r).
    + eapply (Hh i); eauto. lia.
    + eapply (IH (parent i)); eauto. apply parent_lt. lia.
Qed.

Lemma heappop_is_Some h : h <> [] -> is_Some (heappop less h).
Proof.
  intros Hne. unfold heappop.
  destruct (last h) as [l|] eqn:Hl.
  - destruct (removelast h); eauto.
  - by apply last_is_Some in Hne as [? ?]; congruence.
Qed.

Lemma heappop_root h x h' :
  heappop less h = Some (x, h') -> h !! 0%nat = Some x.
Proof.
  unfold heappop. destruct (last h) as [l|] eqn:Hl; [|done].
  apply last_Some in Hl as [h0 ->]. rewrite removelast_last.
  destruct h0 as [|r t]; intros [= <- <-]; done.
Qed.

Lemma heappop_perm h x h' :
  heappop less h = Some (x, h') -> h ≡ₚ x :: h'.
Proof.
  unfold heappop. destruct (last h) as [l|] eqn:Hl; [|done].
  apply last_Some in Hl as [h0 ->]. rewrite removelast_last.
  destruct h0 as [|r t]; intros [= <- <-]; [done|].
  rewrite siftup_root_perm. simpl.
  rewrite (Permutation_app_comm t [l]). done.
Qed.

Lemma heappop_inv h x h' :
  heap_inv h -> heappop less h = Some (x, h') -> heap_inv h'.
Proof.
  intros Hh. unfold heappop. destruct (last h) as [l|] eqn:Hl; [|done].
  apply last_Some in Hl as [h0 ->]. rewrite removelast_last.
  destruct h0 as [|r t]; intros [= <- <-]; [apply heap_inv_nil|].
  apply siftup_root_inv. intros i y p Hi Hne Hy Hp.
  destruct i as [|i]; [lia|]. simpl in Hy.
  destruct (parent (S i)) as [|j] eqn:Hj; [done|]. simpl in Hp.
  apply (Hh (S i) y p Hi).
  - simpl. apply lookup_app_l_Some. done.
  - rewrite Hj. simpl. by apply lookup_app_l_Some.
Qed.

Lemma heappop_min h x h' :
  heap_inv h -> heappop less h = Some (x, h') ->
  forall y, y ∈ h -> less y x = false.
Proof.
  intros Hh Hpop y Hy. apply list_elem_of_lookup in Hy as [i Hi].
  eapply heap_inv_root_min; eauto. by eapply heappop_root.
Qed.

End HeapqFacts.

(** ** Running monadic code *)

Lemma run_bind {A B} (m : M A) (f : A -> M B) w :
  (m ≫= f) w =
  match m w with
  | (Returned a, w') => f a w'
  | (Raised e, w') => (Raised e, w')
  | (OutOfFuel, w') => (OutOfFuel, w')
  end.
Proof. reflexivity. Qed.

Lemma run_ret {A} (a : A) w : (mret a : M A) w = (Returned a, w).
Proof. reflexivity. Qed.

Lemma run_get w : get w = (Returned w, w).
Proof. reflexivity. Qed.

Lemma run_modify f w : modify f w = (Returned tt, f w).
Proof. reflexivity. Qed.

Lemma run_raise {A} e w : (raise e : M A) w = (Raised e, w).
Proof. reflexivity. Qed.

Lemma run_lift_Returns {A} (a : A) w : lift (Returns a) w = (Returned a, w).
Proof. reflexivity. Qed.

Lemma run_lift_Raises {A} e w : (lift (Raises e) : M A) w = (Raised e, w).
Proof. reflexivity. Qed.

Lemma run_self w : self w = (Returned (optimizer w), w).
Proof. reflexivity. Qed.

Lemma run_modify_self f w :
  modify_self f w = (Returned tt, set_optimizer (f (optimizer w)) w).
Proof. reflexivity. Qed.

Lemma run_modify_metrics f w :
  modify_metrics f w =
  (Returned tt,
   set_optimizer (set_metrics (f (_metrics (optimizer w))) (optimizer w)) w).
Proof. reflexivity. Qed.

Lemma run_log e w : log e w = (Returned tt, set_trace (trace w ++ [e]) w).
Proof. reflexivity. Qed.

Lemma run_time_time w :
  time_time w =
  (Returned (clock (clock_reads w)), set_clock_reads (S (clock_reads w)) w).
Proof. reflexivity. Qed.

Lemma run_future_done f w : future_done f w = (Returned (done (futures w f)), w).
Proof. reflexivity. Qed.

Lemma run_try_except {A} (body : M A) handler w :
  try_except body handler w =
  match body w with
  | (Raised e, w') => handler e w'
  | r => r
  end.
Proof. reflexivity. Qed.

Lemma run_for_each_nil {A} (f : A -> M unit) w :
  for_each [] f w = (Returned tt, w).
Proof. reflexivity. Qed.

Lemma run_for_each_cons {A} (f : A -> M unit) x l w :
  for_each (x :: l) f w = (f x ;; for_each l f) w.
Proof. reflexivity. Qed.

#[local] Opaque mbind mret.

(** Projections of updated records. *)
Ltac simpl_fields :=
  cbn [
    total_requests batches_processed avg_batch_size peak_batch_size
    critical_requests high_priority_requests normal_requests
    low_priority_requests avg_wait_time_ms avg_processing_time_ms
    throughput_req_per_sec avg_gpu_utilization gpu_samples
    batch_efficiency coalescing_rate last_updated set_total_requests
    set_batches_processed set_avg_batch_size set_peak_batch_size
    set_critical_requests set_high_priority_requests
    set_normal_requests set_low_priority_requests set_avg_wait_time_ms
    set_avg_processing_time_ms set_throughput_req_per_sec
    set_avg_gpu_utilization set_gpu_samples set_batch_efficiency
    set_coalescing_rate set_last_updated config gpu_monitor processor
    _request_heap _shutdown _metrics _request_times _coalescing_cache
    set_request_heap set_shutdown set_metrics set_request_times
    set_coalescing_cache optimizer futures next_future clock_reads
    monitor_calls suspensions lock_held lock_waiters trace
    set_optimizer set_futures set_next_future set_clock_reads
    set_monitor_calls set_suspensions set_lock_held set_lock_waiters
    set_trace
    fst snd] in *.

Ltac mrun :=
  repeat (rewrite ?run_bind, ?run_ret, ?run_get, ?run_modify, ?run_raise,
            ?run_lift_Returns, ?run_lift_Raises, ?run_self,
            ?run_modify_self, ?run_modify_metrics, ?run_log,
            ?run_time_time, ?run_future_done, ?run_for_each_nil;
          cbn beta iota zeta; simpl_fields).

(** ** What a computation leaves unchanged

    [preserves R m]: every run of [m] takes a world to an [R]-related
    one, however it ends.  [returns m]: [m] always returns. *)

Definition preserves {A} (R : World -> World -> Prop) (m : M A) : Prop :=
  forall w, R w (m w).2.

Definition returns {A} (m : M A) : Prop :=
  forall w, exists a, (m w).1 = Returned a.

Section Preserves.
Context (R : World -> World -> Prop) `{!PreOrder R}.

Lemma preserves_ret {A} (a : A) : preserves R (mret a).
Proof. intros w. rewrite run_ret. reflexivity. Qed.

Lemma preserves_raise {A} e : preserves R (raise e : M A).
Proof. intros w. reflexivity. Qed.

Lemma preserves_out_of_fuel {A} : preserves R (out_of_fuel : M A).
Proof. intros w. reflexivity. Qed.

Lemma preserves_get : preserves R get.
Proof. intros w. reflexivity. Qed.

Lemma preserves_self : preserves R self.
Proof. intros w. rewrite run_self. reflexivity. Qed.

Lemma preserves_lift {A} (c : Called A) : preserves R (lift c).
Proof. intros w. destruct c; reflexivity. Qed.

Lemma preserves_future_done f : preserves R (future_done f).
Proof. intros w. rewrite run_future_done. reflexivity. Qed.

Lemma preserves_modify f : (forall w, R w (f w)) -> preserves R (modify f).
Proof. intros Hf w. apply Hf. Qed.

Lemma preserves_bind {A B} (m : M A) (f : A -> M B) :
  preserves R m -> (forall a, preserves R (f a)) -> preserves R (m ≫= f).
Proof.
  intros Hm Hf w. rewrite run_bind. specialize (Hm w).
  destruct (m w) as [[a|e|] w']; simpl in *; [|done..].
  etransitivity; [exact Hm|apply Hf].
Qed.

Lemma preserves_try_except {A} (body : M A) handler :
  preserves R body -> (forall e, preserves R (handler e)) ->
  preserves R (try_except body handler).
Proof.
  intros Hm Hf w. rewrite run_try_except. specialize (Hm w).
  destruct (body w) as [[a|e|] w']; simpl in *; [done| |done].
  etransitivity; [exact Hm|apply Hf].
Qed.

Lemma preserves_for_each {A} (l : list A) (f : A -> M unit) :
  (forall x, x ∈ l -> preserves R (f x)) -> preserves R (for_each l f).
Proof.
  induction l as [|x l IH]; intros Hf.
  - intros w. reflexivity.
  - intros w. rewrite run_for_each_cons. revert w.
    apply preserves_bind; [apply Hf; left|intros _; apply IH].
    intros y Hy. apply Hf. by right.
Qed.

End Preserves.

Lemma returns_ret {A} (a : A) : returns (mret a).
Proof. intros w. rewrite run_ret. eauto. Qed.

Lemma returns_get : returns get.
Proof. intros w. rewrite run_get. eauto. Qed.

Lemma returns_self : returns self.
Proof. intros w. rewrite run_self. eauto. Qed.

Lemma returns_modify f : returns (modify f).
Proof. intros w. rewrite run_modify. eauto. Qed.

Lemma returns_future_done f : returns (future_done f).
Proof. intros w. rewrite run_future_done. eauto. Qed.

Lemma returns_lift {A} (a : A) : returns (lift (Returns a)).
Proof. intros w. rewrite run_lift_Returns. eauto. Qed.

Lemma returns_bind {A B} (m : M A) (f : A -> M B) :
  returns m -> (forall a, returns (f a)) -> returns (m ≫= f).
Proof.
  intros Hm Hf w. rewrite run_bind. destruct (Hm w) as [a Ha].
  destruct (m w) as [o w']. simpl in Ha. subst o. apply Hf.
Qed.

Lemma returns_try_except {A} (body : M A) handler :
  (forall w, (body w).1 <> OutOfFuel) -> (forall e, returns (handler e)) ->
  returns (try_except body handler).
Proof.
  intros Hm Hf w. rewrite run_try_except. specialize (Hm w).
  destruct (body w) as [[a|e|] w']; simpl in *; [eauto|apply Hf|done].
Qed.

Lemma returns_for_each {A} (l : list A) (f : A -> M unit) :
  (forall x, returns (f x)) -> returns (for_each l f).
Proof.
  intros Hf. induction l as [|x l IH].
  - intros w. rewrite run_for_each_nil. eauto.
  - intros w. rewrite run_for_each_cons. revert w.
    apply returns_bind; [apply Hf|intros _; apply IH].
Qed.

(** One step through the structure of a computation. *)
Ltac step_one :=
  first
    [ progress intros
    | apply preserves_ret | apply preserves_raise | apply preserves_get
    | apply preserves_self | apply preserves_lift
    | apply preserves_future_done | apply preserves_out_of_fuel
    | apply returns_ret | apply returns_get | apply returns_self
    | apply returns_modify | apply returns_future_done | apply returns_lift
    | apply preserves_bind | apply returns_bind
    | apply preserves_for_each | apply returns_for_each
    | apply preserves_try_except
    | match goal with
      | |- PreOrder _ => apply _
      | |- preserves _ (if ?b then _ else _) => destruct b
      | |- returns (if ?b then _ else _) => destruct b
      | |- preserves _ (match ?x with _ => _ end) => destruct x
      | |- returns (match ?x with _ => _ end) => destruct x
      end ].

(** ** Float arithmetic *)

Lemma Qltb_lt x y : Qltb x y = true <-> (x < y)%Q.
Proof.
  unfold Qltb. rewrite negb_true_iff, <- not_true_iff_false, Qle_bool_iff.
  split; [apply Qnot_le_lt|apply Qlt_not_le].
Qed.

Lemma Qltb_ge x y : Qltb x y = false <-> (y <= x)%Q.
Proof. unfold Qltb. by rewrite negb_false_iff, Qle_bool_iff. Qed.

Lemma py_div_Returns x y : ~ (y == 0)%Q -> py_div x y = Returns (x / y)%Q.
Proof.
  intros Hy. unfold py_div. destruct (Qeq_bool y 0) eqn:E; [|done].
  by apply Qeq_bool_eq in E.
Qed.

Lemma py_div_Raises x y : (y == 0)%Q -> py_div x y = Raises ZeroDivisionError.
Proof. intros Hy. unfold py_div. by rewrite (Qeq_eq_bool _ _ Hy). Qed.

Lemma inject_Z_nonzero n : n <> 0 -> ~ (inject_Z n == 0)%Q.
Proof. intros Hn H. apply Hn. by apply (inject_Z_injective n 0). Qed.

(** ** [_update_metrics] *)

(** What one call of [_update_metrics] does to the counters and the two
    running means, and how it ends: the only possible exception is the
    division by the updated mean processing time (line 448). *)
Lemma update_metrics_run w batch_size processing_time_ms :
  let m := _metrics (optimizer w) in
  let n := batches_processed m + 1 in
  let avg_size :=
    ((avg_batch_size m * inject_Z (n - 1) + inject_Z batch_size)
     / inject_Z n)%Q in
  let avg_time :=
    ((avg_processing_time_ms m * inject_Z (n - 1) + processing_time_ms)
     / inject_Z n)%Q in
  let r := _update_metrics batch_size processing_time_ms w in
  n <> 0 ->
  batches_processed (_metrics (optimizer r.2)) = n
  /\ avg_batch_size (_metrics (optimizer r.2)) = avg_size
  /\ avg_processing_time_ms (_metrics (optimizer r.2)) = avg_time
  /\ r.1 = (if Qeq_bool avg_time 0 then Raised ZeroDivisionError
            else Returned tt).
Proof.
  intros m n avg_size avg_time r Hn. subst r. unfold _update_metrics.
  assert (Hpos : forall x t, Qltb 0 t = true -> py_div x t = Returns (x / t)%Q).
  { intros x t Ht. apply py_div_Returns. apply Qltb_lt in Ht.
    intros E. rewrite E in Ht. by apply Qlt_irrefl in Ht. }
  mrun. rewrite !(py_div_Returns _ (inject_Z _)) by by apply inject_Z_nonzero.
  mrun. fold m n avg_size avg_time.
  destruct (peak_batch_size m <? batch_size); mrun.
  all: destruct (Qltb 0 processing_time_ms) eqn:Hpt; mrun.
  all: rewrite ?(Hpos _ _ Hpt); mrun.
  all: unfold py_div; destruct (Qeq_bool avg_time 0) eqn:Havg; mrun;
    [by repeat split|].
  all: match goal with
       | |- context [Qltb 0 ?t] => destruct (Qltb 0 t) eqn:Ht
       end; mrun; [|by repeat split].
  all: apply Qltb_lt in Ht.
  all: match goal with
       | |- context [Qeq_bool ?t 0] =>
           destruct (Qeq_bool t 0) eqn:E;
           [apply Qeq_bool_eq in E; rewrite E in Ht;
            by apply Qlt_irrefl in Ht|]
       end; mrun; by repeat split.
Qed.

Lemma record_batches_snoc history b w :
  record_batches (history ++ [b]) w =
  (_update_metrics b.1 b.2 (record_batches history w)).2.
Proof. unfold record_batches. by rewrite fold_left_app. Qed.


(** C7.  The running-mean batch size follows the incremental formula
    [mean' = (mean * (n - 1) + x) / n], where [n] is the number of
    batches processed after the increment; with no prior history, the
    batches of sizes 10, 20 and 30 leave [avg_batch_size] at 10, 15 and
    20, whatever their processing times. *)
Theorem avg_batch_size_running_mean w now :
  _metrics (optimizer w) = initial_metrics now ->
  (forall history batch_size processing_time_ms,
     let w1 := record_batches history w in
     let w2 := (_update_metrics batch_size processing_time_ms w1).2 in
     let n := batches_processed (_metrics (optimizer w2)) in
     n = Z.of_nat (length history) + 1
     /\ avg_batch_size (_metrics (optimizer w2))
        = ((avg_batch_size (_metrics (optimizer w1)) * inject_Z (n - 1)
            + inject_Z batch_size) / inject_Z n)%Q)
  /\ (forall t1 t2 t3,
        let avg h := avg_batch_size (_metrics (optimizer (record_batches h w))) in
        let h1 := [(10, t1)] in
        let h2 := [(10, t1); (20, t2)] in
        let h3 := [(10, t1); (20, t2); (30, t3)] in
        (avg h1 == 10)%Q /\ (avg h2 == 15)%Q /\ (avg h3 == 20)%Q).
Proof.
  intros Hinit.
  assert (Hcount : forall history,
    batches_processed (_metrics (optimizer (record_batches history w)))
    = Z.of_nat (length history)).
  { induction history as [|b history IH] using rev_ind; simpl.
    - by rewrite Hinit.
    - rewrite record_batches_snoc, length_app. simpl.
      destruct (update_metrics_run (record_batches history w) b.1 b.2)
        as (-> & _); lia. }
  assert (Hstep : forall history batch_size processing_time_ms,
     let w1 := record_batches history w in
     let w2 := (_update_metrics batch_size processing_time_ms w1).2 in
     let n := batches_processed (_metrics (optimizer w2)) in
     n = Z.of_nat (length history) + 1
     /\ avg_batch_size (_metrics (optimizer w2))
        = ((avg_batch_size (_metrics (optimizer w1)) * inject_Z (n - 1)
            + inject_Z batch_size) / inject_Z n)%Q).
  { intros history bs pt w1 w2 n. subst n w2.
    destruct (update_metrics_run w1 bs pt) as (En & Eavg & _).
    - subst w1. rewrite Hcount. lia.
    - rewrite En, Eavg. subst w1. rewrite Hcount. done. }
  split; [exact Hstep|].
  intros t1 t2 t3 avg h1 h2 h3.
  assert (Hsnoc : forall history bs pt,
    avg (history ++ [(bs, pt)])
    = ((avg history * inject_Z (Z.of_nat (length history) + 1 - 1)
        + inject_Z bs) / inject_Z (Z.of_nat (length history) + 1))%Q).
  { intros history bs pt. unfold avg. rewrite record_batches_snoc.
    cbn [fst snd]. by destruct (Hstep history bs pt) as [-> ->]. }
  assert (E1 : Qeq (avg h1) 10%Q).
  { subst h1. change [(10, t1)] with ([] ++ [(10, t1)]).
    rewrite (Hsnoc [] 10 t1). unfold avg. simpl. by rewrite Hinit. }
  assert (E2 : Qeq (avg h2) 15%Q).
  { subst h2. change [(10, t1); (20, t2)] with (h1 ++ [(20, t2)]).
    rewrite (Hsnoc h1 20 t2). by rewrite E1. }
  split; [done|]. split; [done|].
  subst h3. change [(10, t1); (20, t2); (30, t3)] with (h2 ++ [(30, t3)]).
  rewrite (Hsnoc h2 30 t3). by rewrite E2.
Qed.


Lemma run_total {A} (m : M A) (R : World -> World -> Prop) w :
  returns m -> preserves R m ->
  exists a w', m w = (Returned a, w') /\ R w w'.
Proof.
  intros Hr Hp. destruct (Hr w) as [a Ha]. specialize (Hp w).
  destruct (m w) as [o w']. simpl in *. subst o. eauto.
Qed.

(** The primitives are [modify]s and [bind]s: [frame tac] walks through
    a computation and leaves to [tac] the goals [R w (f w)] of its
    [modify] steps. *)
Create HintDb primitives discriminated.
#[local] Hint Unfold modify_self modify_metrics log time_time
  timeout_expired lock_release lock_acquire serve_waiters submit_enqueue
  submit_create producer_runs new_future cancel set_result set_exception
  suspended asyncio_sleep : primitives.

(** Facts about whole methods, used before their definition is opened. *)
Create HintDb frames discriminated.

Ltac frame tac :=
  repeat first
    [ solve [auto with frames nocore]
    | step_one
    | progress autounfold with primitives
    | apply preserves_modify; intros; tac ].

(** *** The fields that never change *)

Definition same_settings (w w' : World) : Prop :=
  config (optimizer w') = config (optimizer w)
  /\ gpu_monitor (optimizer w') = gpu_monitor (optimizer w)
  /\ processor (optimizer w') = processor (optimizer w).

#[local] Instance same_settings_preorder : PreOrder same_settings.
Proof.
  split.
  - by intros w.
  - intros w1 w2 w3 (? & ? & ?) (? & ? & ?). repeat split; congruence.
Qed.

Ltac settings_tac :=
  try match goal with |- context [if ?b then _ else _] => destruct b end;
  red; simpl_fields; done.

Lemma lock_acquire_returns : returns lock_acquire.
Proof. frame idtac. Qed.

Lemma lock_acquire_settings : preserves same_settings lock_acquire.
Proof. frame settings_tac. Qed.

Lemma suspended_settings : preserves same_settings suspended.
Proof. frame settings_tac. Qed.

(** ** [_calculate_optimal_batch_size] *)

(** The sizes that the GPU step can leave (lines 243-264). *)
Definition gpu_sized (cfg : BatchOptimizerConfig) (b : Z) : Prop :=
  b = target_batch_size cfg
  \/ b = Z.min (target_batch_size cfg + 4) (max_batch_size cfg)
  \/ b = Z.max (target_batch_size cfg - 4) (min_batch_size cfg).

(** The effect of the peek (lines 268-273) on the size. *)
Definition overridden (cfg : BatchOptimizerConfig)
    (heap : list PrioritizedRequest) (b : Z) : Z :=
  match heap with
  | top :: _ =>
      if priority top =? priority_value CRITICAL then critical_batch_size cfg
      else if priority top =? priority_value HIGH
           then Z.min b (high_priority_batch_size cfg)
           else b
  | [] => b
  end.

Lemma gpu_adjusted_size_run monitor w :
  let cfg := config (optimizer w) in
  let r := gpu_adjusted_size monitor (target_batch_size cfg) w in
  same_settings w r.2
  /\ ((exists b, r.1 = Returned b /\ gpu_sized cfg b) \/ exists e, r.1 = Raised e).
Proof.
  intros cfg r. subst r. unfold gpu_adjusted_size. mrun.
  destruct (monitor (monitor_calls w)) as [gpu_util|e]; mrun;
    [|split; [done|eauto]].
  match goal with
  | |- context [if ?c then modify_metrics _ else _] => destruct c
  end; mrun.
  all: unfold py_div;
    match goal with
    | |- context [Qeq_bool ?t 0] => destruct (Qeq_bool t 0)
    end; mrun; [split; [done|eauto]|].
  all: fold cfg;
    repeat match goal with
    | |- context [if Qltb ?a ?b then _ else _] => destruct (Qltb a b)
    end; mrun; (split; [done|left]); eexists; (split; [done|]);
    unfold gpu_sized; auto.
Qed.

(** One sizing round: it always returns; the size is the one left by
    the GPU step, overridden by the priority of the queue head that the
    peek saw (the heap is not touched between the peek and the return,
    so it is the heap of the final world). *)
Lemma calculate_optimal_batch_size_run w :
  let cfg := config (optimizer w) in
  let r := _calculate_optimal_batch_size w in
  exists b,
    gpu_sized cfg b
    /\ r.1 = Returned (overridden cfg (_request_heap (optimizer r.2)) b)
    /\ same_settings w r.2.
Proof.
  intros cfg r. subst r. unfold _calculate_optimal_batch_size.
  rewrite run_bind, run_self. cbn beta iota zeta. fold cfg.
  set (G := match enable_gpu_aware_sizing cfg with
            | true => _ | false => _ end).
  assert (HG : exists b w1, G w = (Returned b, w1)
                 /\ gpu_sized cfg b /\ same_settings w w1).
  { subst G. destruct (enable_gpu_aware_sizing cfg);
      [|exists (target_batch_size cfg), w; rewrite run_ret;
        split; [done|]; split; [by left|done]].
    destruct (gpu_monitor (optimizer w)) as [monitor|];
      [|exists (target_batch_size cfg), w; rewrite run_ret;
        split; [done|]; split; [by left|done]].
    rewrite run_try_except.
    destruct (gpu_adjusted_size_run monitor w) as [Hs Hr]. fold cfg in Hs, Hr.
    destruct (gpu_adjusted_size monitor (target_batch_size cfg) w)
      as [o w1]. simpl in *.
    destruct Hr as [(b & -> & Hb)|(e & ->)]; cbn beta iota.
    - by exists b, w1.
    - exists (target_batch_size cfg), w1. rewrite run_ret.
      split; [done|]. split; [by left|done]. }
  destruct HG as (b & w1 & HG & Hb & Hs1).
  rewrite run_bind, HG. cbn beta iota. rewrite run_bind.
  destruct (run_total lock_acquire same_settings w1)
    as ([] & w2 & -> & Hs2);
    [apply lock_acquire_returns|apply lock_acquire_settings|].
  exists b. split; [done|].
  assert (Hcfg : config (optimizer w2) = cfg).
  { destruct Hs1 as [E1 _], Hs2 as [E2 _]. unfold cfg. congruence. }
  assert (Hs : same_settings w w2) by (by etransitivity).
  unfold priority_override, lock_release. mrun. rewrite Hcfg.
  destruct (_request_heap (optimizer w2)) as [|top rest] eqn:Hheap; mrun.
  { rewrite Hheap. split; [reflexivity|exact Hs]. }
  destruct (priority top =? priority_value CRITICAL) eqn:Hc; mrun;
    [rewrite Hheap; unfold overridden; rewrite Hc;
     split; [reflexivity|exact Hs]|].
  destruct (priority top =? priority_value HIGH) eqn:Hh; mrun;
    rewrite Hheap; unfold overridden; rewrite Hc, Hh;
    (split; [reflexivity|exact Hs]).
Qed.

(** C1 (as amended).  When the configured target and critical sizes lie
    within [[min_batch_size, max_batch_size]] and the high-priority size
    is not below [min_batch_size], every sizing round returns a size
    within [[min_batch_size, max_batch_size]], whatever the utilization
    samples and the queue. *)
Theorem optimal_batch_size_within_bounds w :
  let cfg := config (optimizer w) in
  min_batch_size cfg <= target_batch_size cfg <= max_batch_size cfg ->
  min_batch_size cfg <= critical_batch_size cfg <= max_batch_size cfg ->
  min_batch_size cfg <= high_priority_batch_size cfg ->
  exists size,
    (_calculate_optimal_batch_size w).1 = Returned size
    /\ min_batch_size cfg <= size <= max_batch_size cfg.
Proof.
  intros cfg Htarget Hcritical Hhigh.
  destruct (calculate_optimal_batch_size_run w) as (b & Hb & -> & _).
  fold cfg in Hb |- *. eexists. split; [done|].
  assert (min_batch_size cfg <= b <= max_batch_size cfg)
    by (destruct Hb as [->|[->| ->]]; lia).
  unfold overridden. destruct (_request_heap _) as [|top rest]; [done|].
  destruct (priority top =? priority_value CRITICAL); [done|].
  destruct (priority top =? priority_value HIGH); lia.
Qed.

(** C4.  When the queue head that the sizing round peeks at has
    CRITICAL priority, the round returns [critical_batch_size], whatever
    the utilization step did before. *)
Theorem critical_head_gives_critical_size w top rest :
  let r := _calculate_optimal_batch_size w in
  _request_heap (optimizer r.2) = top :: rest ->
  priority top = priority_value CRITICAL ->
  r.1 = Returned (critical_batch_size (config (optimizer w))).
Proof.
  intros r Hheap Htop. subst r.
  destruct (calculate_optimal_batch_size_run w) as (b & _ & -> & _).
  rewrite Hheap. unfold overridden. by rewrite Htop.
Qed.

(** ** [_calculate_timeout] *)

(** C6 (as amended).  With adaptive timeout enabled, [_calculate_timeout]
    returns [min_timeout_ms] when the queue length is at least twice the
    target size, [max_timeout_ms] when it is below the target size
    halved and rounded down ([batch_size // 2]), and otherwise
    [min + (max - min) * (1 - queue_size / batch_size)], a division that
    cannot fail there; for min 10, max 100 and target 16 the queue
    lengths 32, 4 and 16 give 10, 100 and 10. *)
Theorem calculate_timeout_cases s target_size :
  adaptive_timeout (config s) = true ->
  let cfg := config s in
  let queue_size := Z.of_nat (length (_request_heap s)) in
  _calculate_timeout s target_size =
    Returns
      (if queue_size >=? 2 * target_size then min_timeout_ms cfg
       else if queue_size <? target_size / 2 then max_timeout_ms cfg
       else (min_timeout_ms cfg
             + (max_timeout_ms cfg - min_timeout_ms cfg)
               * (1 - inject_Z queue_size / inject_Z target_size))%Q)
  /\ (min_timeout_ms cfg = 10%Q -> max_timeout_ms cfg = 100%Q ->
      target_size = 16 ->
      exists timeout,
        _calculate_timeout s target_size = Returns timeout
        /\ (queue_size = 32 -> (timeout == 10)%Q)
        /\ (queue_size = 4 -> (timeout == 100)%Q)
        /\ (queue_size = 16 -> (timeout == 10)%Q)).
Proof.
  intros Hadaptive cfg queue_size.
  assert (Hgen : _calculate_timeout s target_size =
    Returns
      (if queue_size >=? 2 * target_size then min_timeout_ms cfg
       else if queue_size <? target_size / 2 then max_timeout_ms cfg
       else (min_timeout_ms cfg
             + (max_timeout_ms cfg - min_timeout_ms cfg)
               * (1 - inject_Z queue_size / inject_Z target_size))%Q)).
  { unfold _calculate_timeout. cbn zeta. rewrite Hadaptive.
    fold cfg queue_size. cbn [negb]. rewrite (Z.mul_comm target_size 2).
    destruct (queue_size >=? 2 * target_size) eqn:Hfull; [done|].
    destruct (queue_size <? target_size / 2); [done|].
    rewrite py_div_Returns; [done|]. apply inject_Z_nonzero. lia. }
  split; [exact Hgen|].
  intros Hmin Hmax ->. eexists. split; [exact Hgen|].
  rewrite Hmin, Hmax. by repeat split; intros ->.
Qed.

(** ** Futures and the dispatcher *)

Definition same_futures (w w' : World) : Prop := futures w' = futures w.

#[local] Instance same_futures_preorder : PreOrder same_futures.
Proof. split; [by intros w|]. intros w1 w2 w3 H1 H2. red. congruence. Qed.

Ltac futures_tac := red; simpl_fields; done.

Lemma update_metrics_futures batch_size processing_time_ms :
  preserves same_futures (_update_metrics batch_size processing_time_ms).
Proof. unfold _update_metrics. frame futures_tac. Qed.

Lemma time_time_futures : preserves same_futures time_time.
Proof. frame futures_tac. Qed.

Lemma for_each_pass {A} (l : list A) w :
  for_each l (fun _ => mret tt) w = (Returned tt, w).
Proof.
  induction l as [|x l IH]; [done|].
  by rewrite run_for_each_cons, run_bind, run_ret.
Qed.

(** [_update_wait_time] divides by [total] only when [total > 0]. *)
Lemma update_wait_time_returns wait_time_ms :
  returns (_update_wait_time wait_time_ms).
Proof.
  intros w. unfold _update_wait_time. mrun.
  destruct (0 <? total_requests (_metrics (optimizer w))) eqn:Htotal; mrun;
    [|by eexists].
  rewrite py_div_Returns by (apply inject_Z_nonzero; lia). mrun. by eexists.
Qed.

Lemma update_wait_time_futures wait_time_ms :
  preserves same_futures (_update_wait_time wait_time_ms).
Proof. unfold _update_wait_time. frame futures_tac. Qed.

#[local] Hint Resolve update_wait_time_returns update_wait_time_futures
  update_metrics_futures : frames.

(** The store after one guarded completion. *)
Definition completed (f : nat) (s : FutureState)
    (st : nat -> FutureState) : nat -> FutureState :=
  if done (st f) then st else store_set f s st.

(** One iteration of the distribution loop returns, and completes the
    request's future only if it is still pending. *)
Lemma distribute_result_run req result w :
  exists w', distribute_result (req, result) w = (Returned tt, w')
             /\ futures w' = completed (future req) (Finished result) (futures w).
Proof.
  unfold distribute_result, completed.
  rewrite run_bind, run_future_done. cbn beta iota. rewrite run_bind.
  destruct (done (futures w (future req))) eqn:Hdone; cbn [negb].
  - rewrite run_ret. cbn beta iota.
    match goal with
    | |- exists x, ?T ?w1 = _ /\ _ =>
        destruct (run_total T same_futures w1) as ([] & w2 & -> & Hw2);
          [frame idtac|frame futures_tac|]
    end.
    by exists w2.
  - unfold set_result. rewrite run_bind, run_get. cbn beta iota.
    rewrite Hdone, run_modify. cbn beta iota.
    match goal with
    | |- exists x, ?T ?w1 = _ /\ _ =>
        destruct (run_total T same_futures w1) as ([] & w2 & -> & Hw2);
          [frame idtac|frame futures_tac|]
    end.
    by exists w2.
Qed.

Lemma distribute_results_run batch : forall results w,
  exists w',
    distribute_results batch results w = (Returned tt, w')
    /\ (forall f, done (futures w f) = true -> futures w' f = futures w f)
    /\ (forall f, f ∉ map future batch -> futures w' f = futures w f).
Proof.
  unfold distribute_results.
  induction batch as [|req batch IH]; intros results w.
  { exists w. by destruct results. }
  destruct results as [|result results].
  { by exists w. }
  change (zip (req :: batch) (result :: results))
    with ((req, result) :: zip batch results).
  rewrite run_for_each_cons, run_bind.
  destruct (distribute_result_run req result w) as (w1 & -> & Hw1).
  cbn beta iota. destruct (IH results w1) as (w' & -> & Hdone & Hother).
  exists w'. split; [done|]. rewrite Hw1 in Hdone, Hother.
  unfold completed, store_set in Hdone, Hother. split.
  - intros f Hf. rewrite Hdone.
    + destruct (done (futures w (future req))) eqn:E; [done|].
      case_decide; [|done]. subst f. congruence.
    + destruct (done (futures w (future req))) eqn:E; [done|].
      case_decide; [|done]. subst f. congruence.
  - intros f Hf. apply not_elem_of_cons in Hf as [Hne Hf].
    rewrite Hother by done.
    destruct (done (futures w (future req))); [done|]. by case_decide.
Qed.

Lemma fail_batch_run batch e : forall w,
  exists w',
    fail_batch batch e w = (Returned tt, w')
    /\ (forall f, done (futures w f) = true -> futures w' f = futures w f)
    /\ (forall f, f ∉ map future batch -> futures w' f = futures w f)
    /\ (forall req, req ∈ batch -> done (futures w (future req)) = false ->
          futures w' (future req) = Failed e).
Proof.
  unfold fail_batch.
  induction batch as [|r batch IH]; intros w.
  { exists w. rewrite run_for_each_nil. split_and!; try done.
    intros req Hreq. by apply elem_of_nil in Hreq. }
  rewrite run_for_each_cons, run_bind, run_bind, run_future_done.
  cbn beta iota.
  set (w1 := if done (futures w (future r)) then w
             else set_futures (store_set (future r) (Failed e) (futures w)) w).
  assert (Hstep :
    (if negb (done (futures w (future r)))
     then set_exception (future r) e else mret tt) w = (Returned tt, w1)).
  { subst w1. unfold set_exception.
    destruct (done (futures w (future r))) eqn:Hdone; cbn [negb]; [done|].
    rewrite run_bind, run_get. cbn beta iota. by rewrite Hdone. }
  rewrite Hstep. cbn beta iota.
  assert (Hw1 : futures w1 = completed (future r) (Failed e) (futures w)).
  { subst w1. unfold completed. by destruct (done (futures w (future r))). }
  clearbody w1. clear Hstep.
  destruct (IH w1) as (w' & -> & Hdone & Hother & Hfail).
  exists w'. split; [done|]. rewrite Hw1 in Hdone, Hother, Hfail.
  unfold completed, store_set in Hdone, Hother, Hfail.
  split_and!.
  - intros f Hf. rewrite Hdone.
    + destruct (done (futures w (future r))) eqn:E; [done|].
      case_decide; [|done]. subst f. congruence.
    + destruct (done (futures w (future r))) eqn:E; [done|].
      case_decide; [|done]. subst f. congruence.
  - intros f Hf. apply not_elem_of_cons in Hf as [Hne Hf].
    rewrite Hother by done.
    destruct (done (futures w (future r))); [done|]. by case_decide.
  - intros req Hreq Hpending.
    destruct (decide (future req = future r)) as [Heq|Hne].
    + rewrite Heq in Hpending |- *. rewrite Hdone; rewrite Hpending.
      * by case_decide.
      * by case_decide.
    + apply elem_of_cons in Hreq as [->|Hreq]; [done|].
      apply Hfail; [done|].
      destruct (done (futures w (future r))); [done|]. by case_decide.
Qed.

Lemma suspended_returns : returns suspended.
Proof. frame idtac. Qed.

#[local] Hint Resolve suspended_returns time_time_futures : frames.

(** The futures at the end of [_process_batch] are those left by the
    distribution loop or by the [except] branch. *)
Lemma process_batch_futures req batch w :
  let w0 := (time_time w).2 in
  let called := call_processor (req :: batch) w0 in
  futures (_process_batch (req :: batch) w).2
  = futures
      match called.1 with
      | Returned results => (distribute_results (req :: batch) results called.2).2
      | Raised e => (fail_batch (req :: batch) e called.2).2
      | OutOfFuel => called.2
      end.
Proof.
  intros w0 called. subst called w0. cbn [_process_batch].
  rewrite run_bind, !run_time_time. cbn beta iota. simpl_fields.
  rewrite run_bind, run_try_except, run_bind.
  match goal with
  | |- context [call_processor ?b ?w0] =>
      destruct (call_processor b w0) as [[results|e|] w1]
  end; cbn beta iota; simpl_fields; [| |done].
  - destruct (distribute_results_run (req :: batch) results w1)
      as (w2 & -> & _).
    cbn beta iota. simpl_fields.
    match goal with
    | |- futures (?T ?w).2 = _ =>
        assert (HT : preserves same_futures T) by frame futures_tac;
        apply HT
    end.
  - destruct (fail_batch_run (req :: batch) e w1) as (w2 & -> & _).
    cbn beta iota. simpl_fields.
    match goal with
    | |- futures (?T ?w).2 = _ =>
        assert (HT : preserves same_futures T) by frame futures_tac;
        apply HT
    end.
Qed.

(** C8.  Completing a batch never touches a future that is already done:
    the distribution loop (success path) and the [except] branch
    (failure path) always return, so no [InvalidStateError] is raised,
    and every future that was done when they started keeps its state;
    the same holds for [_process_batch] as a whole, from the moment the
    processor call ends. *)
Theorem completion_skips_done_futures batch w :
  (forall results,
     let r := distribute_results batch results w in
     r.1 = Returned tt
     /\ forall f, done (futures w f) = true -> futures r.2 f = futures w f)
  /\ (forall e,
        let r := fail_batch batch e w in
        r.1 = Returned tt
        /\ forall f, done (futures w f) = true -> futures r.2 f = futures w f)
  /\ (batch <> [] ->
      let called := call_processor batch (time_time w).2 in
      forall f, done (futures called.2 f) = true ->
        futures (_process_batch batch w).2 f = futures called.2 f).
Proof.
  split_and!.
  - intros results r. subst r.
    by destruct (distribute_results_run batch results w) as (w' & -> & H & _).
  - intros e r. subst r.
    by destruct (fail_batch_run batch e w) as (w' & -> & H & _).
  - intros Hne called f Hf. destruct batch as [|req batch]; [done|].
    rewrite process_batch_futures. fold called.
    destruct called.1 as [results|e|]; [| |done].
    + by destruct (distribute_results_run (req :: batch) results called.2)
        as (w' & -> & H & _); apply H.
    + by destruct (fail_batch_run (req :: batch) e called.2)
        as (w' & -> & H & _); apply H.
Qed.


(** ** Coalescing *)

(** The first member of every group, in the order of the groups. *)
Definition primaries (groups : list (Z * list PrioritizedRequest))
    : list PrioritizedRequest :=
  omap (fun kg : Z * list PrioritizedRequest => head kg.2) groups.

Lemma primaries_app g1 g2 : primaries (g1 ++ g2) = primaries g1 ++ primaries g2.
Proof. apply omap_app. Qed.

Lemma primaries_cons k g groups :
  primaries ((k, g) :: groups)
  = match g with
    | p :: _ => p :: primaries groups
    | [] => primaries groups
    end.
Proof. by destruct g. Qed.

Lemma group_add_primaries h r groups :
  Forall (fun kg : Z * list PrioritizedRequest => kg.2 <> []) groups ->
  primaries (group_add h r groups) = primaries groups
  \/ primaries (group_add h r groups) = primaries groups ++ [r].
Proof.
  induction groups as [|[k g] groups IH]; intros Hne;
    cbn [group_add]; [by right|].
  apply Forall_cons in Hne as [Hg Hne]. simpl in Hg.
  destruct (k =? h); rewrite !primaries_cons.
  - left. by destruct g.
  - destruct g as [|p g]; [done|].
    destruct (IH Hne) as [-> | ->]; [by left|by right].
Qed.

Lemma group_add_nonempty h r groups :
  Forall (fun kg : Z * list PrioritizedRequest => kg.2 <> []) groups ->
  Forall (fun kg : Z * list PrioritizedRequest => kg.2 <> [])
    (group_add h r groups).
Proof.
  induction groups as [|[k g] groups IH]; intros Hne; simpl.
  { by repeat constructor. }
  apply Forall_cons in Hne as [Hg Hne].
  destruct (k =? h); constructor; simpl; auto.
  by destruct g.
Qed.

(** The requests of the groups, with their key. *)
Definition grouped (groups : list (Z * list PrioritizedRequest))
    (h : Z) (r : PrioritizedRequest) : Prop :=
  exists g, (h, g) ∈ groups /\ r ∈ g.

Lemma group_add_new h r groups : grouped (group_add h r groups) h r.
Proof.
  induction groups as [|[k g] groups IH]; simpl.
  { exists [r]. split; by left. }
  destruct (k =? h) eqn:E.
  - apply Z.eqb_eq in E as ->. exists (g ++ [r]). split; [by left|].
    apply elem_of_app. right. by left.
  - destruct IH as (g' & Hin & Hr). exists g'. split; [by right|done].
Qed.

Lemma group_add_old h r groups k x :
  grouped groups k x -> grouped (group_add h r groups) k x.
Proof.
  intros (g0 & Hin & Hx).
  induction groups as [|[k' g] groups IH]; simpl.
  { by apply elem_of_nil in Hin. }
  apply elem_of_cons in Hin as [[= <- <-]|Hin].
  - destruct (k =? h).
    + exists (g0 ++ [r]). split; [by left|]. apply elem_of_app. by left.
    + exists g0. split; [by left|done].
  - destruct (k' =? h).
    + exists g0. split; [by right|done].
    + destruct (IH Hin) as (g' & Hin' & Hx'). exists g'.
      split; [by right|done].
Qed.

Lemma group_add_inv h r groups k g :
  (k, g) ∈ group_add h r groups ->
  forall x, x ∈ g -> (x = r /\ k = h) \/ grouped groups k x.
Proof.
  induction groups as [|[k' g'] groups IH]; simpl; intros Hin x Hx.
  { apply list_elem_of_singleton in Hin as [= -> ->].
    apply list_elem_of_singleton in Hx. by left. }
  destruct (k' =? h) eqn:E.
  - apply Z.eqb_eq in E as ->.
    apply elem_of_cons in Hin as [[= -> ->]|Hin].
    + apply elem_of_app in Hx as [Hx|Hx].
      * right. exists g'. split; [by left|done].
      * apply list_elem_of_singleton in Hx. by left.
    + right. exists g. split; [by right|done].
  - apply elem_of_cons in Hin as [[= -> ->]|Hin].
    + right. exists g'. split; [by left|done].
    + destruct (IH Hin x Hx) as [?|(g0 & Hg0 & Hx0)]; [by left|].
      right. exists g0. split; [by right|done].
Qed.

Lemma group_requests_snoc batch r :
  group_requests (batch ++ [r])
  = group_add (req_hash (request_data r)) r (group_requests batch).
Proof. unfold group_requests. by rewrite fold_left_app. Qed.

(** What [groups] holds after the first loop of [_coalesce_requests]. *)
Lemma group_requests_spec batch :
  let groups := group_requests batch in
  Forall (fun kg : Z * list PrioritizedRequest => kg.2 <> []) groups
  /\ sublist (primaries groups) batch
  /\ (forall r, r ∈ batch -> grouped groups (req_hash (request_data r)) r)
  /\ (forall k r, grouped groups k r ->
        r ∈ batch /\ k = req_hash (request_data r)).
Proof.
  induction batch as [|r batch IH] using rev_ind; simpl.
  { split_and!; try done.
    - intros r Hr. by apply elem_of_nil in Hr.
    - intros k r (g & Hg & _). by apply elem_of_nil in Hg. }
  destruct IH as (Hne & Hsub & Hin & Hout).
  rewrite group_requests_snoc. split_and!.
  - by apply group_add_nonempty.
  - destruct (group_add_primaries (req_hash (request_data r)) r _ Hne)
      as [-> | ->].
    + by apply sublist_inserts_r.
    + by apply sublist_app.
  - intros x Hx. apply elem_of_app in Hx as [Hx|Hx].
    + apply group_add_old. by apply Hin.
    + apply list_elem_of_singleton in Hx as ->. apply group_add_new.
  - intros k x (g & Hg & Hx).
    destruct (group_add_inv _ _ _ _ _ Hg x Hx) as [[-> ->]|Hold].
    + split; [|done]. apply elem_of_app. right. by left.
    + destruct (Hout k x Hold) as [? ?]. split; [|done].
      apply elem_of_app. by left.
Qed.

(** One iteration of the second loop: the primary is kept, and for a
    group of two or more the ids of the others are recorded under the
    id of the primary. *)
Lemma coalesce_group_run coalesced group w c w1 :
  coalesce_group coalesced group w = (Returned c, w1) ->
  futures w1 = futures w
  /\ match group with
     | primary :: (_ :: _) as others =>
         c = coalesced ++ [primary]
         /\ _coalescing_cache (optimizer w1)
            = <[request_id primary := map request_id others]>
                (_coalescing_cache (optimizer w))
     | [primary] =>
         c = coalesced ++ [primary]
         /\ _coalescing_cache (optimizer w1) = _coalescing_cache (optimizer w)
     | [] => False
     end.
Proof.
  destruct group as [|primary [|other others]]; cbn [coalesce_group].
  - by rewrite run_raise.
  - rewrite run_ret. by intros [= <- <-].
  - mrun. unfold py_div.
    match goal with
    | |- context [Qeq_bool ?t 0] => destruct (Qeq_bool t 0)
    end; mrun; [done|].
    by intros [= <- <-].
Qed.

Lemma coalesce_groups_run groups : forall coalesced w c w1,
  coalesce_groups groups coalesced w = (Returned c, w1) ->
  c = coalesced ++ primaries groups
  /\ futures w1 = futures w
  /\ (forall id, id ∉ map request_id (primaries groups) ->
        _coalescing_cache (optimizer w1) !! id
        = _coalescing_cache (optimizer w) !! id)
  /\ (NoDup (map request_id (primaries groups)) ->
      forall k primary other others,
        (k, primary :: other :: others) ∈ groups ->
        _coalescing_cache (optimizer w1) !! request_id primary
        = Some (map request_id (other :: others))).
Proof.
  induction groups as [|[k0 g0] groups IH]; intros coalesced w c w1;
    cbn [coalesce_groups].
  { rewrite run_ret. intros [= <- <-]. split_and!; try done.
    - by rewrite app_nil_r.
    - intros _ k p o os Hin. by apply elem_of_nil in Hin. }
  rewrite run_bind.
  destruct (coalesce_group coalesced g0 w) as [[c0|e|] w0] eqn:Hgroup;
    [|done..].
  apply coalesce_group_run in Hgroup as [Hf0 Hg0].
  intros Hrest. apply IH in Hrest as (-> & Hf & Hother & Hcache).
  rewrite primaries_cons.
  destruct g0 as [|primary [|other others]]; [done| |].
  - destruct Hg0 as [-> Hc0]. split_and!.
    + by rewrite <- app_assoc.
    + congruence.
    + intros id Hid. cbn [map] in Hid.
      apply not_elem_of_cons in Hid as [_ Hid]. rewrite Hother by done.
      by rewrite Hc0.
    + intros Hnodup k p o os Hin. cbn [map] in Hnodup.
      apply NoDup_cons in Hnodup as [_ Hnodup].
      apply elem_of_cons in Hin as [[=]|Hin]. by eapply Hcache.
  - destruct Hg0 as [-> Hc0]. split_and!.
    + by rewrite <- app_assoc.
    + congruence.
    + intros id Hid. cbn [map] in Hid.
      apply not_elem_of_cons in Hid as [Hne Hid]. rewrite Hother by done.
      rewrite Hc0. by rewrite lookup_insert_ne.
    + intros Hnodup k p o os Hin. cbn [map] in Hnodup.
      apply NoDup_cons in Hnodup as [Hfresh Hnodup].
      apply elem_of_cons in Hin as [[= -> -> -> ->]|Hin].
      * rewrite Hother by done. rewrite Hc0. by rewrite lookup_insert_eq.
      * by eapply Hcache.
Qed.

(** A future that the run did not complete: it is as before, pending
    (a future allocated by a producer) or cancelled (a caller's
    deadline). *)
Definition not_completed (f : nat) (w w' : World) : Prop :=
  futures w' f = futures w f
  \/ futures w' f = Pending
  \/ futures w' f = Cancelled.

#[local] Instance not_completed_preorder f : PreOrder (not_completed f).
Proof.
  split; [by left|].
  intros w1 w2 w3 H12 [H23|H23]; [|by right].
  red. rewrite H23. exact H12.
Qed.

Ltac not_completed_tac :=
  red; simpl_fields; unfold store_set;
  repeat first
    [ case_decide
    | match goal with
      | |- context [if ?b then _ else _] => destruct b
      end ]; simpl_fields; unfold store_set; repeat case_decide; auto.

Lemma call_processor_not_completed f batch :
  preserves (not_completed f) (call_processor batch).
Proof. unfold call_processor. frame not_completed_tac. Qed.

Lemma coalesce_groups_settings groups : forall coalesced,
  preserves same_settings (coalesce_groups groups coalesced).
Proof.
  induction groups as [|[k group] groups IH]; intros coalesced;
    cbn [coalesce_groups]; [frame settings_tac|].
  apply preserves_bind; [apply _| |intros c; apply IH].
  unfold coalesce_group. frame settings_tac.
Qed.

(** Without a processor the default handler answers every request whose
    future is still pending. *)
Lemma distribute_results_default batch : forall w req,
  NoDup (map future batch) ->
  req ∈ batch ->
  done (futures w (future req)) = false ->
  futures
    (distribute_results batch
       (map (fun req => DefaultHandled (request_data req)) batch) w).2
    (future req)
  = Finished (DefaultHandled (request_data req)).
Proof.
  unfold distribute_results.
  induction batch as [|r batch IH]; intros w req Hnodup Hreq Hpending.
  { by apply elem_of_nil in Hreq. }
  cbn [map] in *. apply NoDup_cons in Hnodup as [Hfresh Hnodup].
  change (zip (r :: batch) (?x :: ?l)) with ((r, x) :: zip batch l).
  rewrite run_for_each_cons, run_bind.
  destruct (distribute_result_run r (DefaultHandled (request_data r)) w)
    as (w1 & -> & Hw1).
  cbn beta iota. unfold completed in Hw1.
  apply elem_of_cons in Hreq as [->|Hreq].
  - rewrite Hpending in Hw1.
    destruct (distribute_results_run batch
                (map (fun req => DefaultHandled (request_data req)) batch) w1)
      as (w' & Hrun & Hdone & _).
    unfold distribute_results in Hrun. rewrite Hrun. cbn [snd].
    rewrite Hdone; rewrite Hw1; unfold store_set; by case_decide.
  - apply IH; [done|done|].
    assert (future req <> future r).
    { intros E. apply Hfresh. rewrite <- E.
      apply list_elem_of_In, in_map. by apply list_elem_of_In. }
    rewrite Hw1. destruct (done (futures w (future r))); [done|].
    unfold store_set. by case_decide.
Qed.

Lemma sublist_map {A B} (f : A -> B) (l k : list A) :
  sublist l k -> sublist (map f l) (map f k).
Proof. induction 1; simpl; by constructor. Qed.

Lemma NoDup_map_inj {A B} (f : A -> B) (l : list A) x y :
  NoDup (map f l) -> x ∈ l -> y ∈ l -> f x = f y -> x = y.
Proof.
  induction l as [|a l IH]; simpl; intros Hnd Hx Hy Hf.
  { by apply elem_of_nil in Hx. }
  apply NoDup_cons in Hnd as [Ha Hnd].
  assert (Hin : forall z, z ∈ l -> f z ∈ map f l).
  { intros z Hz. apply list_elem_of_In, in_map. by apply list_elem_of_In. }
  apply elem_of_cons in Hx as [->|Hx]; apply elem_of_cons in Hy as [->|Hy].
  - done.
  - destruct Ha. rewrite Hf. by apply Hin.
  - destruct Ha. rewrite <- Hf. by apply Hin.
  - by apply IH.
Qed.

Lemma primaries_elem k primary others groups :
  (k, primary :: others) ∈ groups -> primary ∈ primaries groups.
Proof.
  intros Hin. unfold primaries. apply list_elem_of_omap.
  by exists (k, primary :: others).
Qed.

(** C2.  When coalescing drops a request from a collected batch (it
    shares its payload hash with an earlier request of the batch), its
    id is recorded in [_coalescing_cache] under the id of the kept
    request, yet the dispatch of the coalesced batch never completes its
    future: the future is left as it was, or cancelled by its caller's
    deadline, so the caller of [submit_request] gets [TimeoutError].
    The kept requests are the ones that are answered (shown here for the
    default handler). *)
Theorem coalesced_duplicates_never_completed batch w coalesced w1 req :
  _coalesce_requests batch w = (Returned coalesced, w1) ->
  NoDup (map future batch) ->
  NoDup (map request_id batch) ->
  req ∈ batch ->
  req ∉ coalesced ->
  (exists primary ids,
     primary ∈ coalesced
     /\ req_hash (request_data primary) = req_hash (request_data req)
     /\ _coalescing_cache (optimizer w1) !! request_id primary = Some ids
     /\ request_id req ∈ ids)
  /\ let w2 := (_process_batch coalesced w1).2 in
     not_completed (future req) w w2
     /\ (futures w (future req) = Pending ->
         wait_for (futures w2 (future req)) = Raises TimeoutError)
     /\ (processor (optimizer w) = None ->
         forall kept, kept ∈ coalesced ->
           futures w (future kept) = Pending ->
           futures w2 (future kept)
           = Finished (DefaultHandled (request_data kept))).
Proof.
  intros Hrun Hfutures Hids Hreq Hdropped.
  unfold _coalesce_requests in Hrun.
  assert (Hsettings : same_settings w w1).
  { pose proof (coalesce_groups_settings (group_requests batch) [] w) as H.
    by rewrite Hrun in H. }
  apply coalesce_groups_run in Hrun as (-> & Hf & _ & Hcache).
  rewrite app_nil_l in *.
  destruct (group_requests_spec batch) as (Hne & Hsub & Hin & Hout).
  destruct (Hin req Hreq) as (g & Hg & Hmember).
  assert (Hg' := Hg). apply list_elem_of_In in Hg'.
  rewrite Forall_forall in Hne. pose proof (Hne _ Hg) as Hgne. simpl in Hgne.
  destruct g as [|primary others]; [done|].
  assert (Hprimary : primary ∈ primaries (group_requests batch))
    by by eapply primaries_elem.
  assert (Hothers : req ∈ others).
  { apply elem_of_cons in Hmember as [->|]; [done|done]. }
  destruct others as [|other others]; [by apply elem_of_nil in Hothers|].
  assert (Hsame : req_hash (request_data primary) = req_hash (request_data req)).
  { destruct (Hout (req_hash (request_data req)) primary) as [_ ->]; [|done].
    exists (primary :: other :: others). split; [done|by left]. }
  assert (Hnd : NoDup (map request_id (primaries (group_requests batch)))).
  { eapply sublist_NoDup; [|by apply sublist_map]. done. }
  split.
  { exists primary, (map request_id (other :: others)). split_and!; try done.
    - by eapply Hcache.
    - apply list_elem_of_In, in_map. by apply list_elem_of_In. }
  intros w2.
  assert (Hnot : not_completed (future req) w w2).
  { subst w2.
    destruct (primaries (group_requests batch)) as [|r coalesced] eqn:Hco;
      [by apply elem_of_nil in Hprimary|].
    assert (Hfresh : future req ∉ map future (r :: coalesced)).
    { intros Hmem. apply list_elem_of_In, in_map_iff in Hmem as (x & Hfx & Hx).
      apply list_elem_of_In in Hx.
      assert (x = req); [|by subst x].
      eapply (NoDup_map_inj future batch); eauto.
      eapply elem_of_sublist; [exact Hx|exact Hsub]. }
    red. rewrite process_batch_futures, <- Hf.
    set (w0 := (time_time w1).2).
    change (futures w1) with (futures w0).
    pose proof (call_processor_not_completed (future req) (r :: coalesced) w0)
      as Hcalled.
    destruct (call_processor (r :: coalesced) w0) as [[results|e|] wc];
      cbn [fst snd] in *; [| |done].
    - destruct (distribute_results_run (r :: coalesced) results wc)
        as (w' & -> & _ & Hother).
      cbn [snd]. by rewrite Hother.
    - destruct (fail_batch_run (r :: coalesced) e wc)
        as (w' & -> & _ & Hother & _).
      cbn [snd]. by rewrite Hother. }
  split; [done|]. split.
  { intros Hpending.
    destruct Hnot as [E|[E|E]]; rewrite E; [by rewrite Hpending|done..]. }
  intros Hnone kept Hkept Hpending. subst w2.
  destruct (primaries (group_requests batch)) as [|r coalesced] eqn:Hco;
    [by apply elem_of_nil in Hkept|].
  rewrite process_batch_futures.
  assert (Hcalled : forall w0 : World,
    processor (optimizer w0) = None ->
    call_processor (r :: coalesced) w0
    = (Returned (map (fun req => DefaultHandled (request_data req))
                   (r :: coalesced)), w0)).
  { intros w0 Hw0. unfold call_processor.
    rewrite run_bind, run_self. cbn beta iota. by rewrite Hw0. }
  rewrite Hcalled
    by (rewrite run_time_time; simpl_fields;
        destruct Hsettings as (_ & _ & ->); exact Hnone).
  cbn [fst snd]. apply distribute_results_default; [|done|].
  - eapply sublist_NoDup; [|by apply sublist_map]. done.
  - rewrite run_time_time. simpl_fields. by rewrite Hf, Hpending.
Qed.

(** ** The order of the queue *)

Lemma request_less_spec a b :
  request_less a b = true <->
  priority a < priority b
  \/ (priority a = priority b /\ (timestamp a < timestamp b)%Q).
Proof.
  unfold request_less.
  destruct (priority a =? priority b) eqn:Hp.
  - apply Z.eqb_eq in Hp.
    destruct (Qeq_bool (timestamp a) (timestamp b)) eqn:Ht.
    + apply Qeq_bool_eq in Ht. split; [done|].
      intros [?|[_ Hlt]]; [lia|]. rewrite Ht in Hlt.
      by apply Qlt_irrefl in Hlt.
    + rewrite Qltb_lt. split; [by right|]. intros [?|[_ ?]]; [lia|done].
  - apply Z.eqb_neq in Hp. rewrite Z.ltb_lt. split; [by left|].
    intros [?|[? _]]; [done|lia].
Qed.

Lemma request_less_false a b :
  request_less a b = false <->
  priority b < priority a
  \/ (priority a = priority b /\ (timestamp b <= timestamp a)%Q).
Proof.
  rewrite <- not_true_iff_false, request_less_spec. split.
  - intros H. destruct (Z.lt_trichotomy (priority a) (priority b))
      as [?|[?|?]]; [destruct H; by left| |by left].
    right. split; [done|]. apply Qnot_lt_le. intros ?. apply H. by right.
  - intros [?|[? Hle]] [?|[? Hlt]]; try lia.
    by apply Qle_not_lt in Hle.
Qed.

Lemma request_less_irrefl a : request_less a a = false.
Proof. apply request_less_false. right. split; [done|apply Qle_refl]. Qed.

Lemma request_less_trans a b c :
  request_less a b = true -> request_less b c = true ->
  request_less a c = true.
Proof.
  rewrite !request_less_spec.
  intros [?|[? ?]] [?|[? ?]]; try (left; lia).
  right. split; [lia|]. by eapply Qlt_trans.
Qed.

Lemma request_less_negtrans a b c :
  request_less a b = false -> request_less b c = false ->
  request_less a c = false.
Proof.
  rewrite !request_less_false.
  intros [?|[? ?]] [?|[? ?]]; try (left; lia).
  right. split; [lia|]. by eapply Qle_trans.
Qed.

(** The queue is a heap for the order of the requests. *)
Definition queue_ok (w : World) : Prop :=
  heap_inv request_less (_request_heap (optimizer w)).

Lemma heappush_queue heap req :
  heap_inv request_less heap ->
  heap_inv request_less (Heapq.heappush request_less heap req).
Proof.
  apply heappush_inv;
    [apply request_less_irrefl|apply request_less_trans
    |apply request_less_negtrans].
Qed.

Definition queue_kept (w w' : World) : Prop := queue_ok w -> queue_ok w'.

#[local] Instance queue_kept_preorder : PreOrder queue_kept.
Proof.
  split; [by intros w H|]. intros w1 w2 w3 H1 H2 H. by apply H2, H1.
Qed.

Ltac queue_tac :=
  red; unfold queue_ok; simpl_fields;
  try match goal with
      | |- context [if ?b then _ else _] => destruct b
      end;
  simpl_fields; auto using heappush_queue.

Lemma lock_acquire_queue : preserves queue_kept lock_acquire.
Proof. frame queue_tac. Qed.

Lemma suspended_queue : preserves queue_kept suspended.
Proof. frame queue_tac. Qed.

(** ** [_collect_batch] *)





(** Entering [async with self._heap_lock]: the waiting producers push
    first; with no producer waiting the queue is as before. *)
Definition waiters_served (w w' : World) : Prop :=
  lock_waiters w' = lock_waiters w /\ queue_kept w w'.

#[local] Instance waiters_served_preorder : PreOrder waiters_served.
Proof.
  split; [by split|].
  intros w1 w2 w3 [E1 Q1] [E2 Q2]. split; [congruence|by etransitivity].
Qed.

Ltac waiters_tac := split; [by simpl_fields|queue_tac].

Lemma lock_acquire_run w :
  exists w1,
    lock_acquire w = (Returned tt, w1)
    /\ lock_waiters w1 = []
    /\ queue_kept w w1
    /\ (lock_waiters w = [] ->
        _request_heap (optimizer w1) = _request_heap (optimizer w)).
Proof.
  unfold lock_acquire, serve_waiters.
  rewrite run_bind, run_bind, run_get. cbn beta iota.
  rewrite run_bind, run_modify. cbn beta iota.
  match goal with
  | |- context [for_each ?l ?f ?w0] =>
      destruct (run_total (for_each l f) waiters_served w0)
        as ([] & w1 & Hrun & Hwaiters & Hqueue);
        [frame idtac|frame waiters_tac|]
  end.
  rewrite Hrun. cbn beta iota. mrun. eexists. split; [done|].
  simpl_fields. split_and!; [done|exact Hqueue|].
  intros Hnone. rewrite Hnone in Hrun. rewrite run_for_each_nil in Hrun.
  by injection Hrun as <-.
Qed.

Lemma heappop_queue heap req heap' :
  heap_inv request_less heap ->
  Heapq.heappop request_less heap = Some (req, heap') ->
  heap_inv request_less heap'
  /\ heap ≡ₚ req :: heap'
  /\ forall other, other ∈ heap -> request_less other req = false.
Proof.
  intros Hheap Hpop. split_and!.
  - eapply heappop_inv; eauto using request_less_irrefl,
      request_less_trans, request_less_negtrans.
  - eapply heappop_perm; eauto using request_less_irrefl,
      request_less_trans.
  - eapply heappop_min; eauto using request_less_irrefl,
      request_less_negtrans.
Qed.



(** ** The queue stays a heap

    Every method keeps the heap invariant of [_request_heap], so the
    queue of every world reached from a fresh optimizer is a heap. *)

Lemma collect_loop_queue fuel : forall target_size timeout start_time batch,
  preserves queue_kept
    (collect_loop fuel target_size timeout start_time batch).
Proof.
  induction fuel as [|fuel IH]; intros target_size timeout start_time batch;
    cbn [collect_loop]; [frame queue_tac|].
  destruct (Z.of_nat (length batch) <? target_size); [|frame queue_tac].
  intros w Hqueue. rewrite run_bind.
  destruct (lock_acquire_run w) as (w1 & -> & _ & Hq1 & _).
  cbn beta iota. rewrite run_bind, run_self. cbn beta iota.
  assert (Hqueue1 : queue_ok w1) by by apply Hq1.
  destruct (_request_heap (optimizer w1)) as [|top rest] eqn:Hheap.
  - match goal with
    | |- queue_ok (?T w1).2 =>
        assert (HT : preserves queue_kept T); [|by apply HT]
    end.
    destruct batch; frame queue_tac.
  - rewrite <- Hheap.
    destruct (Heapq.heappop request_less (_request_heap (optimizer w1)))
      as [[req heap']|] eqn:Hpop; [|by rewrite run_raise].
    destruct (heappop_queue _ _ _ Hqueue1 Hpop) as (Hheap' & _).
    rewrite run_bind, run_modify_self. cbn beta iota.
    match goal with
    | |- queue_ok (?T ?w2).2 =>
        assert (HT : preserves queue_kept T); [|by apply HT]
    end.
    frame queue_tac.
Qed.

Lemma collect_batch_queue fuel target_size :
  preserves queue_kept (_collect_batch fuel target_size).
Proof.
  unfold _collect_batch.
  assert (Hcoalesce : forall groups coalesced,
            preserves queue_kept (coalesce_groups groups coalesced)).
  { induction groups as [|[k group] groups IH]; intros coalesced;
      cbn [coalesce_groups]; [frame queue_tac|].
    apply preserves_bind; [apply _| |intros c; apply IH].
    unfold coalesce_group. frame queue_tac. }
  pose proof (collect_loop_queue fuel target_size) as Hloop.
  unfold _coalesce_requests. frame queue_tac.
Qed.

Lemma process_batch_queue batch : preserves queue_kept (_process_batch batch).
Proof.
  unfold _process_batch, call_processor, distribute_results, fail_batch,
    distribute_result, _update_metrics, _update_wait_time.
  frame queue_tac.
Qed.

Lemma calculate_optimal_batch_size_queue :
  preserves queue_kept _calculate_optimal_batch_size.
Proof.
  unfold _calculate_optimal_batch_size, gpu_adjusted_size, priority_override.
  frame queue_tac.
Qed.

Lemma processing_loop_queue fuel collect_fuel :
  preserves queue_kept (_processing_loop fuel collect_fuel).
Proof.
  induction fuel as [|fuel IH]; cbn [_processing_loop]; [frame queue_tac|].
  pose proof (collect_batch_queue collect_fuel) as Hcollect.
  pose proof process_batch_queue as Hprocess.
  pose proof calculate_optimal_batch_size_queue as Hsize.
  frame queue_tac.
Qed.

(** X1.  The queue of a running optimizer is always a heap: in every
    world that the processing loop reaches from a new optimizer,
    whatever the producers submit meanwhile, [_request_heap] satisfies
    the heap condition of [heapq] for the order of the requests. *)
Lemma processing_loop_queue_is_heap cfg monitor process fuel collect_fuel :
  let w := (_processing_loop fuel collect_fuel
              (new_world (new_optimizer cfg monitor process))).2 in
  Heapq.is_heap request_less (_request_heap (optimizer w)) = true.
Proof.
  intros w. apply is_heap_spec. apply processing_loop_queue.
  apply heap_inv_nil.
Qed.

(** ** The processing loop *)



(** ** Invariants of the whole optimizer

    [invariant_of_methods R tac] adds to the context that every method
    of the consumer task preserves [R], where [tac] proves [R w (f w)]
    for the updates [f] of the primitives. *)
Ltac invariant_of_methods R tac :=
  let Hcoalesce := fresh "Hcoalesce" in
  let Hloop := fresh "Hloop" in
  let Hcollect := fresh "Hcollect" in
  let Hprocess := fresh "Hprocess" in
  let Hsize := fresh "Hsize" in
  assert (Hcoalesce : forall groups coalesced,
            preserves R (coalesce_groups groups coalesced));
  [ let groups := fresh "groups" in
    let IH := fresh "IH" in
    intros groups; induction groups as [|[? ?] groups IH]; intros ?;
    cbn [coalesce_groups]; [frame tac|];
    apply preserves_bind;
      [apply _|unfold coalesce_group; frame tac|intros ?; apply IH]
  | assert (Hloop : forall fuel target_size timeout start_time batch,
              preserves R
                (collect_loop fuel target_size timeout start_time batch));
    [ let fuel := fresh "fuel" in
      let IH := fresh "IH" in
      intros fuel; induction fuel as [|fuel IH]; intros ? ? ? ?;
      cbn [collect_loop]; frame tac
    | assert (Hcollect : forall fuel target_size,
                preserves R (_collect_batch fuel target_size));
      [ intros ? ?; unfold _collect_batch, _coalesce_requests; frame tac
      | assert (Hprocess : forall batch, preserves R (_process_batch batch));
        [ intros ?;
          unfold _process_batch, call_processor, distribute_results,
            fail_batch, distribute_result, _update_metrics,
            _update_wait_time;
          frame tac
        | assert (Hsize : preserves R _calculate_optimal_batch_size);
          [ unfold _calculate_optimal_batch_size, priority_override;
            frame tac; unfold gpu_adjusted_size; frame tac
          | ] ] ] ] ].

Ltac invariant_of_loop R tac :=
  invariant_of_methods R tac;
  let fuel := fresh "fuel" in
  let IH := fresh "IH" in
  intros fuel; induction fuel as [|fuel IH]; intros ?;
  cbn [_processing_loop]; frame tac.

(** ** The request counters *)

(** [total_requests] is the sum of the four counters by priority. *)
Definition counters_ok (w : World) : Prop :=
  let m := _metrics (optimizer w) in
  total_requests m
  = critical_requests m + high_priority_requests m + normal_requests m
    + low_priority_requests m.

Definition counters_kept (w w' : World) : Prop :=
  counters_ok w -> counters_ok w'.

#[local] Instance counters_kept_preorder : PreOrder counters_kept.
Proof.
  split; [by intros w H|]. intros w1 w2 w3 H1 H2 H. by apply H2, H1.
Qed.

Ltac counters_tac :=
  red; unfold counters_ok; simpl_fields;
  try match goal with
      | |- context [if ?b then _ else _] => destruct b
      end;
  simpl_fields; auto.

(** The counter that [submit_request] increments for a priority (lines
    200-207): LOW and BACKGROUND share [low_priority_requests]. *)
Definition counter_of (p : RequestPriority) (m : BatchOptimizerMetrics) : Z :=
  match p with
  | CRITICAL => critical_requests m
  | HIGH => high_priority_requests m
  | NORMAL => normal_requests m
  | LOW | BACKGROUND => low_priority_requests m
  end.

Definition same_counter (p q : RequestPriority) : bool :=
  match p, q with
  | CRITICAL, CRITICAL | HIGH, HIGH | NORMAL, NORMAL => true
  | (LOW | BACKGROUND), (LOW | BACKGROUND) => true
  | _, _ => false
  end.

Lemma submit_enqueue_run req p w :
  exists w',
    submit_enqueue (req, p) w = (Returned tt, w')
    /\ total_requests (_metrics (optimizer w'))
       = total_requests (_metrics (optimizer w)) + 1
    /\ (forall q, counter_of q (_metrics (optimizer w'))
          = counter_of q (_metrics (optimizer w))
            + (if same_counter p q then 1 else 0))
    /\ _request_heap (optimizer w')
       = Heapq.heappush request_less (_request_heap (optimizer w)) req.
Proof.
  unfold submit_enqueue. mrun.
  destruct p; mrun; eexists; (split; [reflexivity|]); simpl_fields;
    (split; [reflexivity|]); (split; [|reflexivity]);
    intros []; cbn [counter_of same_counter]; simpl_fields; lia.
Qed.

Lemma submit_enqueue_counters rp : preserves counters_kept (submit_enqueue rp).
Proof.
  destruct rp as [req p]. intros w.
  unfold submit_enqueue. mrun.
  destruct p; mrun; red; unfold counters_ok; simpl_fields; lia.
Qed.

#[local] Hint Resolve submit_enqueue_counters : frames.

Lemma processing_loop_counters :
  forall fuel collect_fuel,
    preserves counters_kept (_processing_loop fuel collect_fuel).
Proof. invariant_of_loop counters_kept counters_tac. Qed.

(** ** [submit_request] *)

(** The request that [submit_request] builds (lines 181-191) in world
    [w]: the id is formatted from a first reading of the clock, the
    timestamp is a second reading, the future is a new one. *)
Definition submitted_request (s : Submission) (w : World)
    : PrioritizedRequest :=
  {| priority := priority_value (sub_priority s);
     timestamp := clock (S (clock_reads w));
     request_id := format_request_id (clock (clock_reads w)) (sub_object_id s);
     request_data := sub_request_data s;
     future := next_future w |}.

Lemma producer_runs_run s w :
  lock_held w = false ->
  let req := submitted_request s w in
  exists w',
    producer_runs s w = (Returned tt, w')
    /\ _request_heap (optimizer w')
       = Heapq.heappush request_less (_request_heap (optimizer w)) req
    /\ futures w' = store_set (next_future w) Pending (futures w)
    /\ next_future w' = S (next_future w)
    /\ _request_times (optimizer w')
       = <[request_id req := clock (S (S (clock_reads w)))]>
           (_request_times (optimizer w))
    /\ total_requests (_metrics (optimizer w'))
       = total_requests (_metrics (optimizer w)) + 1
    /\ (forall q, counter_of q (_metrics (optimizer w'))
          = counter_of q (_metrics (optimizer w))
            + (if same_counter (sub_priority s) q then 1 else 0)).
Proof.
  intros Hfree req. unfold producer_runs, submit_create, new_future.
  mrun. rewrite Hfree. fold req.
  match goal with
  | |- context [submit_enqueue ?rp ?w0] =>
      destruct (submit_enqueue_run req (sub_priority s) w0)
        as (w' & Hrun & Htotal & Hcount & Hheap)
  end.
  exists w'. split; [exact Hrun|]. simpl_fields.
  split; [exact Hheap|].
  revert Hrun. unfold submit_enqueue. mrun.
  destruct (sub_priority s); mrun; intros [= <-]; simpl_fields;
    split_and!; try reflexivity; intros []; cbn [counter_of same_counter];
    simpl_fields; lia.
Qed.

(** X3.  [total_requests] always equals the sum of the four counters by
    priority: this holds in every world that the processing loop reaches
    from a new optimizer, whatever the producers submit meanwhile.  One
    submission adds one to [total_requests] and one to the counter of
    its priority, where LOW and BACKGROUND share
    [low_priority_requests]; the other counters keep their value. *)
Theorem request_counters_add_up :
  (forall cfg monitor process fuel collect_fuel,
     counters_ok
       (_processing_loop fuel collect_fuel
          (new_world (new_optimizer cfg monitor process))).2)
  /\ (forall s w,
        lock_held w = false ->
        let m := _metrics (optimizer w) in
        let m' := _metrics (optimizer (producer_runs s w).2) in
        total_requests m' = total_requests m + 1
        /\ counter_of (sub_priority s) m' = counter_of (sub_priority s) m + 1
        /\ (sub_priority s = BACKGROUND ->
            low_priority_requests m' = low_priority_requests m + 1)
        /\ forall q, same_counter (sub_priority s) q = false ->
             counter_of q m' = counter_of q m).
Proof.
  split.
  - intros cfg monitor process fuel collect_fuel.
    apply processing_loop_counters. reflexivity.
  - intros s w Hfree m m'. subst m m'.
    destruct (producer_runs_run s w Hfree)
      as (w' & -> & _ & _ & _ & _ & Htotal & Hcount).
    cbn [snd]. split_and!.
    + exact Htotal.
    + rewrite Hcount. by destruct (sub_priority s).
    + intros Hp. specialize (Hcount BACKGROUND). rewrite Hp in Hcount.
      exact Hcount.
    + intros q Hq. rewrite Hcount, Hq. lia.
Qed.


(** ** The GPU step of [_calculate_optimal_batch_size] *)

(** The samples kept after [gpu_util] is appended (lines 249-251): one
    sample is dropped from the front when the list is longer than the
    window. *)
Definition window_samples (cfg : BatchOptimizerConfig) (samples : list Q)
    (gpu_util : Q) : list Q :=
  let appended := samples ++ [gpu_util] in
  if Z.of_nat (length appended) >? gpu_utilization_window cfg
  then tail appended else appended.

(** The size chosen from the mean utilization (lines 257-261). *)
Definition size_for (cfg : BatchOptimizerConfig) (avg_gpu_util : Q)
    (batch_size : Z) : Z :=
  if Qltb avg_gpu_util (target_gpu_utilization cfg - (1 # 10))%Q then
    Z.min (batch_size + 4) (max_batch_size cfg)
  else if Qltb (target_gpu_utilization cfg + (1 # 10))%Q avg_gpu_util then
    Z.max (batch_size - 4) (min_batch_size cfg)
  else batch_size.

Lemma gpu_adjusted_size_samples monitor batch_size w :
  let cfg := config (optimizer w) in
  let m := _metrics (optimizer w) in
  let r := gpu_adjusted_size monitor batch_size w in
  match monitor (monitor_calls w) with
  | Raises e => r.1 = Raised e /\ _metrics (optimizer r.2) = m
  | Returns gpu_util =>
      let samples := window_samples cfg (gpu_samples m) gpu_util in
      let avg := (py_sum samples / inject_Z (Z.of_nat (length samples)))%Q in
      gpu_samples (_metrics (optimizer r.2)) = samples
      /\ match samples with
         | [] => r.1 = Raised ZeroDivisionError
         | _ :: _ =>
             r.1 = Returned (size_for cfg avg batch_size)
             /\ avg_gpu_utilization (_metrics (optimizer r.2)) = avg
         end
  end.
Proof.
  intros cfg m r. subst r. unfold gpu_adjusted_size. mrun.
  destruct (monitor (monitor_calls w)) as [gpu_util|e]; mrun; [|done].
  fold cfg m. unfold window_samples. cbn zeta.
  destruct (Z.of_nat (length (gpu_samples m ++ [gpu_util]))
            >? gpu_utilization_window cfg); mrun.
  - destruct (tail (gpu_samples m ++ [gpu_util])) as [|x l] eqn:Htail.
    + rewrite py_div_Raises by done. mrun. done.
    + rewrite py_div_Returns
        by (apply inject_Z_nonzero; cbn [length]; lia).
      mrun. unfold size_for. fold cfg.
      repeat match goal with
             | |- context [if Qltb ?a ?b then _ else _] => destruct (Qltb a b)
             end; mrun; done.
  - destruct (gpu_samples m ++ [gpu_util]) as [|x l] eqn:Happ.
    + by destruct (gpu_samples m).
    + rewrite py_div_Returns
        by (apply inject_Z_nonzero; cbn [length]; lia).
      mrun. unfold size_for. fold cfg.
      repeat match goal with
             | |- context [if Qltb ?a ?b then _ else _] => destruct (Qltb a b)
             end; mrun; done.
Qed.

(** The list of samples is never longer than the window. *)
Definition window_ok (w : World) : Prop :=
  Z.of_nat (length (gpu_samples (_metrics (optimizer w))))
  <= Z.max 0 (gpu_utilization_window (config (optimizer w))).

Definition window_kept (w w' : World) : Prop := window_ok w -> window_ok w'.

#[local] Instance window_kept_preorder : PreOrder window_kept.
Proof.
  split; [by intros w H|]. intros w1 w2 w3 H1 H2 H. by apply H2, H1.
Qed.

Ltac window_tac :=
  red; unfold window_ok; simpl_fields;
  try match goal with
      | |- context [if ?b then _ else _] => destruct b
      end;
  simpl_fields; auto.

Lemma window_samples_length cfg samples gpu_util :
  Z.of_nat (length samples) <= Z.max 0 (gpu_utilization_window cfg) ->
  Z.of_nat (length (window_samples cfg samples gpu_util))
  <= Z.max 0 (gpu_utilization_window cfg).
Proof.
  intros Hlen. unfold window_samples. cbn zeta.
  destruct (Z.of_nat (length (samples ++ [gpu_util]))
            >? gpu_utilization_window cfg) eqn:Hover.
  - destruct samples; cbn [app tail length] in *; [lia|].
    rewrite length_app. cbn [length].
    rewrite length_app in Hover. cbn [length] in Hover. lia.
  - lia.
Qed.

Lemma gpu_adjusted_size_window monitor batch_size :
  preserves window_kept (gpu_adjusted_size monitor batch_size).
Proof.
  intros w Hok. red.
  pose proof (gpu_adjusted_size_samples monitor batch_size w) as H.
  pose proof (gpu_adjusted_size_run monitor w) as [(Hcfg & _) _].
  cbn zeta in H.
  assert (Hcfg' : config (optimizer (gpu_adjusted_size monitor batch_size w).2)
                  = config (optimizer w)).
  { assert (Hs : preserves same_settings (gpu_adjusted_size monitor batch_size))
      by (unfold gpu_adjusted_size; frame settings_tac).
    apply Hs. }
  rewrite Hcfg'.
  unfold window_ok in Hok.
  destruct (monitor (monitor_calls w)) as [gpu_util|e]; cbn beta iota in H.
  - destruct H as [-> _]. by apply window_samples_length.
  - destruct H as [_ ->]. exact Hok.
Qed.

#[local] Hint Resolve gpu_adjusted_size_window : frames.

Lemma processing_loop_window :
  forall fuel collect_fuel,
    preserves window_kept (_processing_loop fuel collect_fuel).
Proof.
  assert (Hsubmit : forall rp, preserves window_kept (submit_enqueue rp)).
  { intros [req p]. unfold submit_enqueue. destruct p; frame window_tac. }
  invariant_of_loop window_kept window_tac.
Qed.

(** The GPU fields of the metrics are written by the GPU step only. *)
Definition same_gpu_metrics (w w' : World) : Prop :=
  gpu_samples (_metrics (optimizer w')) = gpu_samples (_metrics (optimizer w))
  /\ avg_gpu_utilization (_metrics (optimizer w'))
     = avg_gpu_utilization (_metrics (optimizer w)).

#[local] Instance same_gpu_metrics_preorder : PreOrder same_gpu_metrics.
Proof.
  split; [by intros w|].
  intros w1 w2 w3 [? ?] [? ?]. split; congruence.
Qed.

Ltac gpu_metrics_tac :=
  try match goal with |- context [if ?b then _ else _] => destruct b end;
  red; simpl_fields; done.

Lemma preserves_conj {A} (R1 R2 : World -> World -> Prop) (m : M A) :
  preserves R1 m -> preserves R2 m ->
  preserves (fun w w' => R1 w w' /\ R2 w w') m.
Proof. intros H1 H2 w. split; [apply H1|apply H2]. Qed.

(** Lines 243-264: the size after the GPU step. *)
Definition gpu_step (s : BatchOptimizer) : M Z :=
  let cfg := config s in
  let batch_size := target_batch_size cfg in
  match enable_gpu_aware_sizing cfg, gpu_monitor s with
  | true, Some monitor =>
      try_except (gpu_adjusted_size monitor batch_size)
        (fun e => mret batch_size)
  | _, _ => mret batch_size
  end.

(** A sizing round is the GPU step followed by the peek under the lock,
    which leaves the GPU fields alone. *)
Lemma calculate_optimal_batch_size_steps w b w1 :
  gpu_step (optimizer w) w = (Returned b, w1) ->
  same_settings w w1 ->
  let r := _calculate_optimal_batch_size w in
  r.1 = Returned (overridden (config (optimizer w))
                    (_request_heap (optimizer r.2)) b)
  /\ same_gpu_metrics w1 r.2.
Proof.
  intros Hstep Hs1 r. subst r. unfold _calculate_optimal_batch_size.
  rewrite run_bind, run_self. cbn beta iota zeta.
  unfold gpu_step in Hstep. cbn zeta in Hstep.
  rewrite run_bind, Hstep. cbn beta iota. rewrite run_bind.
  destruct (run_total lock_acquire
              (fun w w' => same_settings w w' /\ same_gpu_metrics w w') w1)
    as ([] & w2 & -> & Hs2 & Hg2);
    [apply lock_acquire_returns
    |apply preserves_conj; [apply lock_acquire_settings|frame gpu_metrics_tac]|].
  assert (Hcfg : config (optimizer w2) = config (optimizer w)).
  { destruct Hs1 as [E1 _], Hs2 as [E2 _]. congruence. }
  unfold priority_override, lock_release. mrun. rewrite Hcfg.
  destruct (_request_heap (optimizer w2)) as [|top rest] eqn:Hheap; mrun.
  { rewrite Hheap. split; [reflexivity|exact Hg2]. }
  destruct (priority top =? priority_value CRITICAL) eqn:Hc; mrun;
    [rewrite Hheap; unfold overridden; rewrite Hc;
     split; [reflexivity|exact Hg2]|].
  destruct (priority top =? priority_value HIGH) eqn:Hh; mrun;
    rewrite Hheap; unfold overridden; rewrite Hc, Hh;
    (split; [reflexivity|exact Hg2]).
Qed.

Lemma gpu_adjusted_size_settings monitor batch_size :
  preserves same_settings (gpu_adjusted_size monitor batch_size).
Proof. unfold gpu_adjusted_size. frame settings_tac. Qed.

(** X5.  The list of utilization samples is a sliding window: in every
    world that the processing loop reaches from a new optimizer it holds
    at most [gpu_utilization_window] samples (none when the window is
    not positive). *)
Theorem gpu_samples_within_window cfg monitor process fuel collect_fuel :
  let w := (_processing_loop fuel collect_fuel
              (new_world (new_optimizer cfg monitor process))).2 in
  Z.of_nat (length (gpu_samples (_metrics (optimizer w))))
  <= Z.max 0 (gpu_utilization_window cfg).
Proof.
  intros w.
  assert (Hcfg : config (optimizer w) = cfg).
  { assert (Hs : forall fuel collect_fuel,
              preserves same_settings (_processing_loop fuel collect_fuel))
      by invariant_of_loop same_settings settings_tac.
    apply Hs. }
  rewrite <- Hcfg. apply processing_loop_window.
  red. cbn. lia.
Qed.



(** X8.  With a window that is not positive GPU-aware sizing is silently
    off: the sample is appended and dropped at once, the mean of the
    empty list divides by zero, the [ZeroDivisionError] is swallowed
    (line 263), and the round goes on with [target_batch_size] whatever
    the monitor reports; no sample is ever kept. *)
Theorem nonpositive_window_disables_gpu_sizing w :
  let cfg := config (optimizer w) in
  gpu_utilization_window cfg <= 0 ->
  gpu_samples (_metrics (optimizer w)) = [] ->
  let r := _calculate_optimal_batch_size w in
  r.1 = Returned (overridden cfg (_request_heap (optimizer r.2))
                    (target_batch_size cfg))
  /\ gpu_samples (_metrics (optimizer r.2)) = [].
Proof.
  intros cfg Hwindow Hempty r.
  assert (Hstep : exists w1,
    gpu_step (optimizer w) w = (Returned (target_batch_size cfg), w1)
    /\ same_settings w w1
    /\ gpu_samples (_metrics (optimizer w1)) = []).
  { unfold gpu_step. cbn zeta. fold cfg.
    destruct (enable_gpu_aware_sizing cfg);
      [|exists w; rewrite run_ret; by split_and!].
    destruct (gpu_monitor (optimizer w)) as [monitor|];
      [|exists w; rewrite run_ret; by split_and!].
    pose proof (gpu_adjusted_size_samples monitor (target_batch_size cfg) w)
      as Hrun.
    pose proof (gpu_adjusted_size_settings monitor (target_batch_size cfg) w)
      as Hs.
    cbn zeta in Hrun. fold cfg in Hrun. rewrite Hempty in Hrun.
    rewrite run_try_except.
    destruct (gpu_adjusted_size monitor (target_batch_size cfg) w)
      as [o w1]. cbn [fst snd] in *. exists w1.
    destruct (monitor (monitor_calls w)) as [gpu_util|e];
      cbn beta iota in Hrun.
    - unfold window_samples in Hrun. cbn [app length] in Hrun.
      cbn zeta in Hrun.
      assert (E : (Z.of_nat 1 >? gpu_utilization_window cfg) = true)
        by (apply Z.gtb_lt; lia).
      rewrite E in Hrun. cbn [tail] in Hrun.
      destruct Hrun as [Hsamples ->]. rewrite run_ret. by split_and!.
    - destruct Hrun as [-> Hm]. rewrite run_ret. split_and!; try done.
      by rewrite Hm. }
  destruct Hstep as (w1 & Hstep & Hs & Hsamples).
  destruct (calculate_optimal_batch_size_steps w _ w1 Hstep Hs)
    as [Hr [Hg _]].
  fold r in Hr, Hg. fold cfg in Hr. split; [exact Hr|]. congruence.
Qed.

(** X9.  When the queue head that the sizing round peeks at has HIGH
    priority, the size is the smaller of the size left by the GPU step
    and [high_priority_batch_size] (lines 272-273): it never exceeds
    [high_priority_batch_size]. *)
Theorem high_head_caps_size w top rest :
  let cfg := config (optimizer w) in
  let r := _calculate_optimal_batch_size w in
  _request_heap (optimizer r.2) = top :: rest ->
  priority top = priority_value HIGH ->
  exists b size,
    r.1 = Returned size
    /\ size = Z.min b (high_priority_batch_size cfg)
    /\ size <= high_priority_batch_size cfg
    /\ (b = target_batch_size cfg
        \/ b = Z.min (target_batch_size cfg + 4) (max_batch_size cfg)
        \/ b = Z.max (target_batch_size cfg - 4) (min_batch_size cfg)).
Proof.
  intros cfg r Hheap Htop. subst r.
  destruct (calculate_optimal_batch_size_run w) as (b & Hb & -> & _).
  rewrite Hheap. unfold overridden. rewrite Htop. cbn.
  exists b. eexists. split; [reflexivity|]. fold cfg.
  split; [reflexivity|]. split; [lia|exact Hb].
Qed.

(** ** The range of [_calculate_timeout] *)

Lemma calculate_timeout_returns s batch_size :
  exists timeout, _calculate_timeout s batch_size = Returns timeout.
Proof.
  unfold _calculate_timeout. cbn zeta.
  destruct (adaptive_timeout (config s)); cbn [negb]; [|by eexists].
  destruct (_ >=? _) eqn:Hfull; [by eexists|].
  destruct (_ <? _); [by eexists|].
  rewrite Z.geb_leb in Hfull. apply Z.leb_gt in Hfull.
  rewrite py_div_Returns; [by eexists|]. apply inject_Z_nonzero. lia.
Qed.


(** ** More on [_update_metrics] *)

(** The counter, the peak and the two means are written before the
    division of line 448, so they are updated even when it raises. *)
Lemma update_metrics_peak w batch_size processing_time_ms :
  let m := _metrics (optimizer w) in
  let r := _update_metrics batch_size processing_time_ms w in
  batches_processed m + 1 <> 0 ->
  peak_batch_size (_metrics (optimizer r.2))
  = Z.max (peak_batch_size m) batch_size.
Proof.
  intros m r Hn. subst r. unfold _update_metrics.
  assert (Hpos : forall x t, Qltb 0 t = true -> py_div x t = Returns (x / t)%Q).
  { intros x t Ht. apply py_div_Returns. apply Qltb_lt in Ht.
    intros E. rewrite E in Ht. by apply Qlt_irrefl in Ht. }
  mrun. rewrite !(py_div_Returns _ (inject_Z _)) by by apply inject_Z_nonzero.
  mrun. fold m.
  destruct (peak_batch_size m <? batch_size) eqn:Hlt;
    [apply Z.ltb_lt in Hlt|apply Z.ltb_ge in Hlt]; mrun.
  all: destruct (Qltb 0 processing_time_ms) eqn:Hpt; mrun.
  all: rewrite ?(Hpos _ _ Hpt); mrun.
  all: unfold py_div;
    match goal with
    | |- context [Qeq_bool ?t 0] => destruct (Qeq_bool t 0) eqn:Havg
    end; mrun; [lia|].
  all: match goal with
       | |- context [Qltb 0 ?t] => destruct (Qltb 0 t) eqn:Ht
       end; mrun; [|lia].
  all: match goal with
       | |- context [Qeq_bool ?t 0] => destruct (Qeq_bool t 0) eqn:E
       end; mrun; lia.
Qed.

(** X11.  Over any history of batches, each recorded by [_update_metrics]
    at the end of [_process_batch], [batches_processed] counts the
    batches and [peak_batch_size] is the largest size seen, also for the
    batches whose update raised [ZeroDivisionError] at line 448: the
    counter and the peak are written before that division. *)
Theorem peak_and_count_survive_failed_updates history : forall w,
  0 <= batches_processed (_metrics (optimizer w)) ->
  let w' := record_batches history w in
  batches_processed (_metrics (optimizer w'))
  = batches_processed (_metrics (optimizer w)) + Z.of_nat (length history)
  /\ peak_batch_size (_metrics (optimizer w'))
     = fold_left Z.max (map fst history) (peak_batch_size (_metrics (optimizer w))).
Proof.
  induction history as [|[bs pt] history IH]; intros w Hn; cbn zeta.
  { cbn. split; [lia|done]. }
  cbn [record_batches fold_left map fst snd length].
  change (fold_left _ history ?w0) with (record_batches history w0).
  destruct (update_metrics_run w bs pt) as (En & _); [lia|].
  pose proof (update_metrics_peak w bs pt) as Hpeak. cbn zeta in Hpeak.
  destruct (IH (_update_metrics bs pt w).2) as [IH1 IH2]; [lia|].
  split.
  - rewrite IH1, En. lia.
  - rewrite IH2, Hpeak by lia. done.
Qed.


(** ** The order of [PrioritizedRequest] *)

(** X13.  The comparison generated by [@dataclass(order=True)] looks at
    [(priority, timestamp)] only: it is a strict weak order (irreflexive,
    transitive, with transitive incomparability), two requests are
    incomparable exactly when they agree on priority and timestamp, and
    the id, the payload and the future of a request play no role. *)
Theorem request_order_is_strict_weak :
  (forall a, request_less a a = false)
  /\ (forall a b c, request_less a b = true -> request_less b c = true ->
        request_less a c = true)
  /\ (forall a b c, request_less a b = false -> request_less b c = false ->
        request_less a c = false)
  /\ (forall a b,
        request_less a b = false /\ request_less b a = false
        <-> priority a = priority b /\ (timestamp a == timestamp b)%Q)
  /\ (forall a b id data f,
        request_less
          {| priority := priority a; timestamp := timestamp a;
             request_id := id; request_data := data; future := f |} b
        = request_less a b).
Proof.
  split_and!.
  - apply request_less_irrefl.
  - apply request_less_trans.
  - apply request_less_negtrans.
  - intros a b. rewrite !request_less_false. split.
    + intros [[?|[? Hba]] [?|[? Hab]]]; try lia.
      split; [done|]. by apply Qle_antisym.
    + intros [Hp Ht]. split; right; (split; [done|]); rewrite Ht;
        apply Qle_refl.
  - intros a b id data f. reflexivity.
Qed.

(** ** What [_coalesce_requests] keeps *)

Definition hash_of (req : PrioritizedRequest) : Z :=
  req_hash (request_data req).

(** [batch] without the requests whose payload hash occurred before, in
    [seen] or earlier in [batch]. *)
Fixpoint first_of_each_hash (seen : list Z) (batch : list PrioritizedRequest)
    : list PrioritizedRequest :=
  match batch with
  | [] => []
  | req :: rest =>
      if existsb (Z.eqb (hash_of req)) seen
      then first_of_each_hash seen rest
      else req :: first_of_each_hash (hash_of req :: seen) rest
  end.

Lemma first_of_each_hash_seen batch : forall seen1 seen2,
  (forall h, existsb (Z.eqb h) seen1 = existsb (Z.eqb h) seen2) ->
  first_of_each_hash seen1 batch = first_of_each_hash seen2 batch.
Proof.
  induction batch as [|req rest IH]; intros seen1 seen2 Hseen; [done|].
  cbn [first_of_each_hash]. rewrite <- Hseen.
  destruct (existsb _ seen1); [by apply IH|].
  f_equal. apply IH. intros h. cbn [existsb]. by rewrite Hseen.
Qed.

Lemma group_add_keys h r groups :
  map fst (group_add h r groups)
  = if existsb (Z.eqb h) (map fst groups) then map fst groups
    else map fst groups ++ [h].
Proof.
  induction groups as [|[k g] groups IH]; [done|].
  cbn [group_add map fst existsb]. rewrite (Z.eqb_sym h k).
  destruct (k =? h); [done|]. cbn [orb map fst]. rewrite IH.
  by destruct (existsb _ _).
Qed.

Lemma group_add_primaries_keys h r groups :
  Forall (fun kg : Z * list PrioritizedRequest => kg.2 <> []) groups ->
  primaries (group_add h r groups)
  = if existsb (Z.eqb h) (map fst groups) then primaries groups
    else primaries groups ++ [r].
Proof.
  induction groups as [|[k g] groups IH]; intros Hne; [done|].
  apply Forall_cons in Hne as [Hg Hne]. cbn [snd] in Hg.
  cbn [group_add map fst existsb]. rewrite (Z.eqb_sym h k).
  destruct (k =? h); cbn [orb]; rewrite !primaries_cons.
  - destruct g; [done|]. by destruct g.
  - destruct g as [|p g]; [done|]. rewrite IH by done.
    by destruct (existsb _ _).
Qed.

Lemma group_fold_primaries batch : forall groups,
  Forall (fun kg : Z * list PrioritizedRequest => kg.2 <> []) groups ->
  primaries
    (fold_left (fun groups req => group_add (hash_of req) req groups)
       batch groups)
  = primaries groups ++ first_of_each_hash (map fst groups) batch.
Proof.
  induction batch as [|req rest IH]; intros groups Hne.
  { cbn. by rewrite app_nil_r. }
  cbn [fold_left first_of_each_hash].
  rewrite IH by by apply group_add_nonempty.
  rewrite group_add_keys, group_add_primaries_keys by done.
  destruct (existsb (Z.eqb (hash_of req)) (map fst groups)); [done|].
  rewrite <- app_assoc. cbn [app]. do 2 f_equal.
  apply first_of_each_hash_seen. intros h.
  rewrite existsb_app. cbn [existsb]. by destruct (h =? hash_of req), (existsb _ _).
Qed.

Lemma group_requests_primaries batch :
  primaries (group_requests batch) = first_of_each_hash [] batch.
Proof. apply (group_fold_primaries batch []). constructor. Qed.

(** The second loop returns when the groups are not empty and the
    divisor [batches_processed + 1] is not zero. *)
Lemma coalesce_groups_total groups : forall coalesced w,
  Forall (fun kg : Z * list PrioritizedRequest => kg.2 <> []) groups ->
  0 <= batches_processed (_metrics (optimizer w)) ->
  exists c w',
    coalesce_groups groups coalesced w = (Returned c, w')
    /\ batches_processed (_metrics (optimizer w'))
       = batches_processed (_metrics (optimizer w)).
Proof.
  induction groups as [|[k g] groups IH]; intros coalesced w Hne Hn;
    cbn [coalesce_groups].
  { rewrite run_ret. by eexists _, _. }
  apply Forall_cons in Hne as [Hg Hne]. cbn [snd] in Hg.
  rewrite run_bind.
  assert (Hgroup : exists c0 w0,
    coalesce_group coalesced g w = (Returned c0, w0)
    /\ batches_processed (_metrics (optimizer w0))
       = batches_processed (_metrics (optimizer w))).
  { destruct g as [|primary [|other others]]; [done| |];
      cbn [coalesce_group].
    - rewrite run_ret. by eexists _, _.
    - mrun. rewrite py_div_Returns by (apply inject_Z_nonzero; lia).
      mrun. by eexists _, _. }
  destruct Hgroup as (c0 & w0 & -> & Hn0). cbn beta iota.
  destruct (IH c0 w0 Hne) as (c & w' & -> & Hn'); [lia|].
  exists c, w'. split; [done|]. congruence.
Qed.

Lemma first_of_each_hash_sublist batch : forall seen,
  sublist (first_of_each_hash seen batch) batch.
Proof.
  induction batch as [|req rest IH]; intros seen; [done|].
  cbn [first_of_each_hash]. destruct (existsb _ _).
  - by apply sublist_cons.
  - by apply sublist_skip.
Qed.

Lemma existsb_eqb_elem h (seen : list Z) :
  existsb (Z.eqb h) seen = true <-> h ∈ seen.
Proof.
  rewrite existsb_exists. split.
  - intros (x & Hx & E). apply Z.eqb_eq in E as ->. by apply list_elem_of_In.
  - intros Hin. exists h. split; [by apply list_elem_of_In|apply Z.eqb_refl].
Qed.

(** The hashes of the kept requests are distinct, and none is in
    [seen]. *)
Lemma first_of_each_hash_NoDup batch : forall seen,
  NoDup (map hash_of (first_of_each_hash seen batch))
  /\ forall h, h ∈ map hash_of (first_of_each_hash seen batch) -> h ∉ seen.
Proof.
  induction batch as [|req rest IH]; intros seen.
  { split; [constructor|]. intros h Hh. by apply elem_of_nil in Hh. }
  cbn [first_of_each_hash].
  destruct (existsb (Z.eqb (hash_of req)) seen) eqn:Hseen; [apply IH|].
  destruct (IH (hash_of req :: seen)) as [Hnd Hfresh].
  cbn [map]. split.
  - apply NoDup_cons. split; [|done].
    intros Hin. apply Hfresh in Hin. apply Hin. by left.
  - intros h Hh. apply elem_of_cons in Hh as [->|Hh].
    + intros Hin. apply existsb_eqb_elem in Hin. congruence.
    + apply Hfresh in Hh. intros Hin. apply Hh. by right.
Qed.

(** Requests with distinct hashes are all kept. *)
Lemma first_of_each_hash_distinct batch : forall seen,
  NoDup (map hash_of batch) ->
  (forall h, h ∈ map hash_of batch -> h ∉ seen) ->
  first_of_each_hash seen batch = batch.
Proof.
  induction batch as [|req rest IH]; intros seen Hnd Hfresh; [done|].
  cbn [map] in *. apply NoDup_cons in Hnd as [Hreq Hnd].
  cbn [first_of_each_hash].
  destruct (existsb (Z.eqb (hash_of req)) seen) eqn:Hseen.
  { apply existsb_eqb_elem in Hseen. destruct (Hfresh (hash_of req)); [by left|done]. }
  f_equal. apply IH; [done|].
  intros h Hh Hin. apply elem_of_cons in Hin as [->|Hin]; [done|].
  apply (Hfresh h); [by right|done].
Qed.

(** The groups of a batch with distinct hashes are singletons, and the
    second loop passes over singletons without touching anything. *)
Lemma group_requests_distinct batch :
  NoDup (map hash_of batch) ->
  group_requests batch = map (fun req => (hash_of req, [req])) batch.
Proof.
  induction batch as [|req batch IH] using rev_ind; intros Hnd; [done|].
  rewrite map_app in Hnd. apply NoDup_app in Hnd as (Hnd & Hfresh & _).
  rewrite group_requests_snoc, IH by done. rewrite map_app. cbn [map].
  fold (hash_of req).
  assert (Hnew : hash_of req ∉ map hash_of batch).
  { intros Hin. apply (Hfresh _ Hin). by left. }
  clear -Hnew. induction batch as [|r batch IH]; [done|].
  cbn [map] in *. apply not_elem_of_cons in Hnew as [Hne Hnew].
  cbn [group_add app].
  destruct (hash_of r =? hash_of req) eqn:E;
    [apply Z.eqb_eq in E; congruence|].
  by rewrite IH.
Qed.

Lemma coalesce_groups_singletons batch : forall coalesced w,
  coalesce_groups (map (fun req => (hash_of req, [req])) batch) coalesced w
  = (Returned (coalesced ++ batch), w).
Proof.
  induction batch as [|req batch IH]; intros coalesced w;
    cbn [map coalesce_groups].
  { by rewrite run_ret, app_nil_r. }
  rewrite run_bind. cbn [coalesce_group]. rewrite run_ret. cbn beta iota.
  rewrite IH. by rewrite <- app_assoc.
Qed.

Lemma coalesce_requests_run batch w :
  0 <= batches_processed (_metrics (optimizer w)) ->
  exists w',
    _coalesce_requests batch w = (Returned (first_of_each_hash [] batch), w').
Proof.
  intros Hn. unfold _coalesce_requests.
  destruct (group_requests_spec batch) as (Hne & _).
  destruct (coalesce_groups_total (group_requests batch) [] w Hne Hn)
    as (c & w' & Hrun & _).
  rewrite Hrun. exists w'.
  apply coalesce_groups_run in Hrun as (-> & _).
  by rewrite app_nil_l, group_requests_primaries.
Qed.

(** X14.  [_coalesce_requests] keeps, of every set of requests with the
    same payload hash, the one that comes first in the batch, and keeps
    the order of the batch: the result is the batch without the requests
    whose hash occurred earlier in it.  The kept requests have pairwise
    distinct hashes.  The call returns whenever [batches_processed] is
    not negative (the divisor of lines 356-359 is then positive), and
    it completes no future. *)
Theorem coalesce_keeps_first_of_each_hash batch w :
  0 <= batches_processed (_metrics (optimizer w)) ->
  let r := _coalesce_requests batch w in
  r.1 = Returned (first_of_each_hash [] batch)
  /\ sublist (first_of_each_hash [] batch) batch
  /\ NoDup (map hash_of (first_of_each_hash [] batch))
  /\ (forall req, req ∈ batch ->
        exists kept, kept ∈ first_of_each_hash [] batch
                     /\ hash_of kept = hash_of req)
  /\ futures r.2 = futures w.
Proof.
  intros Hn r. subst r. unfold _coalesce_requests.
  destruct (group_requests_spec batch) as (Hne & _ & Hin & Hout).
  destruct (coalesce_groups_total (group_requests batch) [] w Hne Hn)
    as (c & w' & Hrun & _).
  rewrite Hrun. cbn [fst snd].
  apply coalesce_groups_run in Hrun as (-> & Hf & _).
  rewrite app_nil_l, group_requests_primaries.
  split_and!; try done.
  - apply first_of_each_hash_sublist.
  - apply first_of_each_hash_NoDup.
  - intros req Hreq. destruct (Hin req Hreq) as (g & Hg & Hmember).
    rewrite Forall_forall in Hne. pose proof (Hne _ Hg) as Hgne.
    cbn [snd] in Hgne. destruct g as [|primary others]; [done|].
    exists primary. split.
    + rewrite <- group_requests_primaries. by eapply primaries_elem.
    + destruct (Hout (req_hash (request_data req)) primary) as [_ E].
      { exists (primary :: others). split; [done|by left]. }
      by unfold hash_of.
Qed.

(** X15.  On a batch whose requests have pairwise distinct payload hashes
    [_coalesce_requests] returns the batch itself and changes nothing:
    no entry is added to [_coalescing_cache] and [coalescing_rate] is
    not updated. *)
Theorem coalesce_distinct_hashes_is_identity batch w :
  NoDup (map hash_of batch) ->
  _coalesce_requests batch w = (Returned batch, w).
Proof.
  intros Hnd. unfold _coalesce_requests.
  rewrite group_requests_distinct by done.
  by rewrite coalesce_groups_singletons.
Qed.

(** X16.  Coalescing is idempotent: applied to a batch that it returned,
    [_coalesce_requests] returns the same batch and changes nothing. *)
Theorem coalesce_is_idempotent batch w coalesced w1 :
  _coalesce_requests batch w = (Returned coalesced, w1) ->
  _coalesce_requests coalesced w1 = (Returned coalesced, w1).
Proof.
  intros Hrun. unfold _coalesce_requests in Hrun.
  apply coalesce_groups_run in Hrun as (-> & _).
  rewrite app_nil_l, group_requests_primaries.
  unfold _coalesce_requests.
  rewrite group_requests_distinct by apply first_of_each_hash_NoDup.
  by rewrite coalesce_groups_singletons.
Qed.

(** ** More on [_collect_batch] *)

(** Producers only add to the queue. *)
Definition queue_grows (w w' : World) : Prop :=
  (length (_request_heap (optimizer w))
   <= length (_request_heap (optimizer w')))%nat.

#[local] Instance queue_grows_preorder : PreOrder queue_grows.
Proof.
  split; [by intros w; red|]. intros w1 w2 w3 H1 H2. red in H1, H2 |- *. lia.
Qed.

Lemma heappush_length (heap : list PrioritizedRequest) req :
  length (Heapq.heappush request_less heap req) = S (length heap).
Proof. by rewrite heappush_perm. Qed.

Ltac queue_grows_tac :=
  red; simpl_fields;
  try match goal with
      | |- context [if ?b then _ else _] => destruct b
      end;
  simpl_fields; rewrite ?heappush_length; lia.

Lemma lock_acquire_grows : preserves queue_grows lock_acquire.
Proof. frame queue_grows_tac. Qed.

(** The clock is only read forward. *)
Definition clock_advances (w w' : World) : Prop :=
  (clock_reads w <= clock_reads w')%nat.

#[local] Instance clock_advances_preorder : PreOrder clock_advances.
Proof.
  split; [by intros w; red|]. intros w1 w2 w3 H1 H2. red in H1, H2 |- *. lia.
Qed.

Ltac clock_advances_tac :=
  red; simpl_fields;
  try match goal with
      | |- context [if ?b then _ else _] => destruct b
      end;
  simpl_fields; lia.

Lemma submit_enqueue_clock rp : preserves clock_advances (submit_enqueue rp).
Proof.
  destruct rp as [req p]. intros w. unfold submit_enqueue. mrun.
  destruct p; mrun; red; simpl_fields; lia.
Qed.

#[local] Hint Resolve submit_enqueue_clock : frames.

Lemma lock_acquire_clock : preserves clock_advances lock_acquire.
Proof. frame clock_advances_tac. Qed.

(** Collecting does not count batches. *)
Definition same_batches (w w' : World) : Prop :=
  batches_processed (_metrics (optimizer w'))
  = batches_processed (_metrics (optimizer w)).

#[local] Instance same_batches_preorder : PreOrder same_batches.
Proof. split; [by intros w|]. intros w1 w2 w3 H1 H2. red. congruence. Qed.

Ltac same_batches_tac :=
  try match goal with |- context [if ?b then _ else _] => destruct b end;
  red; simpl_fields; done.

Lemma collect_loop_batches fuel : forall target_size timeout start_time batch,
  preserves same_batches
    (collect_loop fuel target_size timeout start_time batch).
Proof.
  induction fuel as [|fuel IH]; intros ? ? ? ?; cbn [collect_loop];
    frame same_batches_tac.
Qed.

(** The loop never takes more than [target_size] requests. *)
Lemma collect_loop_length fuel : forall target_size timeout start_time
    batch w result w',
  collect_loop fuel target_size timeout start_time batch w
    = (Returned result, w') ->
  Z.of_nat (length result) <= Z.max target_size (Z.of_nat (length batch)).
Proof.
  induction fuel as [|fuel IH];
    intros target_size timeout start_time batch w result w';
    cbn [collect_loop]; [done|].
  destruct (Z.of_nat (length batch) <? target_size) eqn:Hroom;
    [|rewrite run_ret; intros [= <- <-]; lia].
  apply Z.ltb_lt in Hroom.
  rewrite run_bind.
  destruct (lock_acquire_run w) as (w1 & -> & _).
  cbn beta iota. rewrite run_bind, run_self. cbn beta iota.
  destruct (_request_heap (optimizer w1)) as [|top rest] eqn:Hheap.
  - destruct batch as [|b batch].
    + rewrite run_bind.
      match goal with
      | |- context [asyncio_sleep ?d ?w0] =>
          destruct (asyncio_sleep d w0) as [[[]|e|] w2]
      end; cbn beta iota; [|done..].
      unfold lock_release, timeout_expired. mrun.
      match goal with
      | |- context [if ?c then _ else _] => destruct c
      end.
      * rewrite run_ret. intros [= <- <-]. cbn [length] in *. lia.
      * intros Hrun. apply IH in Hrun. cbn [length] in *. lia.
    + unfold lock_release. mrun. intros [= <- <-]. lia.
  - rewrite <- Hheap.
    destruct (Heapq.heappop request_less (_request_heap (optimizer w1)))
      as [[req heap']|] eqn:Hpop; [|by rewrite run_raise].
    unfold lock_release, timeout_expired. mrun.
    match goal with
    | |- context [if ?c then _ else _] => destruct c
    end.
    + rewrite run_ret. intros [= <- <-]. rewrite length_app. cbn [length]. lia.
    + intros Hrun. apply IH in Hrun. rewrite length_app in Hrun.
      cbn [length] in Hrun. lia.
Qed.

Lemma first_of_each_hash_nonempty batch :
  batch <> [] -> first_of_each_hash [] batch <> [].
Proof. by destruct batch. Qed.

Lemma collect_batch_length fuel target_size w batch w' :
  _collect_batch fuel target_size w = (Returned batch, w') ->
  Z.of_nat (length batch) <= Z.max 0 target_size.
Proof.
  intros Hrun. unfold _collect_batch in Hrun.
  rewrite run_bind, run_self in Hrun. cbn beta iota in Hrun.
  rewrite run_bind in Hrun.
  destruct (_calculate_timeout (optimizer w) target_size)
    as [timeout|e]; [|done].
  rewrite run_lift_Returns in Hrun. cbn beta iota in Hrun.
  rewrite run_bind, run_time_time in Hrun. cbn beta iota in Hrun.
  rewrite run_bind in Hrun.
  match type of Hrun with
  | context [collect_loop ?f ?t ?to ?st ?bt ?w0] =>
      destruct (collect_loop f t to st bt w0)
        as [[collected| |] w1] eqn:Hloop; [|done..]
  end.
  apply collect_loop_length in Hloop. cbn [length] in Hloop.
  rewrite run_bind, run_self in Hrun. cbn beta iota in Hrun.
  destruct (enable_coalescing _ && _).
  - unfold _coalesce_requests in Hrun.
    apply coalesce_groups_run in Hrun as (-> & _).
    rewrite app_nil_l.
    destruct (group_requests_spec collected) as (_ & Hsub & _).
    apply sublist_length in Hsub. lia.
  - rewrite run_ret in Hrun. injection Hrun as <- _. lia.
Qed.

(** X17.  A batch returned by [_collect_batch] never holds more than
    [target_size] requests; for a target size that is not positive it is
    empty. *)
Theorem collect_batch_size_bound fuel target_size w batch w' :
  _collect_batch fuel target_size w = (Returned batch, w') ->
  Z.of_nat (length batch) <= Z.max 0 target_size
  /\ (target_size <= 0 -> batch = []).
Proof.
  intros Hrun. pose proof (collect_batch_length _ _ _ _ _ Hrun) as Hlen.
  split; [exact Hlen|]. intros Hle. destruct batch; [done|].
  cbn [length] in Hlen. lia.
Qed.

(** The loop returns within [target_size + 1] iterations once it has a
    request or the queue has one: it sleeps only on an empty queue with
    an empty batch. *)
Lemma collect_loop_returns fuel : forall target_size timeout start_time
    batch w,
  1 <= target_size ->
  batch <> [] \/ _request_heap (optimizer w) <> [] ->
  (Z.to_nat (target_size - Z.of_nat (length batch)) < fuel)%nat ->
  exists result w',
    collect_loop fuel target_size timeout start_time batch w
      = (Returned result, w')
    /\ result <> [].
Proof.
  induction fuel as [|fuel IH];
    intros target_size timeout start_time batch w Htarget Hsome Hfuel;
    [lia|].
  cbn [collect_loop].
  destruct (Z.of_nat (length batch) <? target_size) eqn:Hroom.
  2:{ apply Z.ltb_ge in Hroom. rewrite run_ret. eexists _, _.
      split; [done|]. intros ->. cbn [length] in Hroom. lia. }
  apply Z.ltb_lt in Hroom. rewrite run_bind.
  pose proof (lock_acquire_grows w) as Hgrows.
  destruct (lock_acquire_run w) as (w1 & Hacq & _).
  rewrite Hacq in Hgrows |- *. cbn [snd] in Hgrows. red in Hgrows.
  cbn beta iota. rewrite run_bind, run_self. cbn beta iota.
  destruct (_request_heap (optimizer w1)) as [|top rest] eqn:Hheap.
  - destruct batch as [|b batch].
    + destruct Hsome as [?|Hq]; [done|].
      destruct (_request_heap (optimizer w)); [done|].
      cbn [length] in Hgrows. lia.
    + unfold lock_release. mrun. by eexists _, _.
  - rewrite <- Hheap.
    destruct (heappop_is_Some request_less (_request_heap (optimizer w1)))
      as [[req heap'] Hpop]; [by rewrite Hheap|].
    rewrite Hpop. unfold lock_release, timeout_expired. mrun.
    match goal with
    | |- context [if ?c then _ else _] => destruct c
    end.
    + rewrite run_ret. eexists _, _. split; [done|]. by destruct batch.
    + apply IH; [done|left; by destruct batch|].
      rewrite length_app. cbn [length]. lia.
Qed.

(** X18.  The timeout of [_collect_batch] is checked only after a request
    was taken (line 297): when the queue is not empty and the target
    size is at least 1, the call returns a batch that is not empty and
    holds at most [target_size] requests, within [target_size + 1]
    iterations of its loop, whatever the timeout and the clock. *)
Theorem collect_batch_serves_nonempty_queue fuel target_size w :
  _request_heap (optimizer w) <> [] ->
  1 <= target_size ->
  (Z.to_nat target_size < fuel)%nat ->
  0 <= batches_processed (_metrics (optimizer w)) ->
  exists batch w',
    _collect_batch fuel target_size w = (Returned batch, w')
    /\ batch <> []
    /\ Z.of_nat (length batch) <= target_size.
Proof.
  intros Hqueue Htarget Hfuel Hn.
  assert (Hrun : exists batch w',
    _collect_batch fuel target_size w = (Returned batch, w')
    /\ batch <> []).
  { unfold _collect_batch. rewrite run_bind, run_self. cbn beta iota.
    destruct (calculate_timeout_returns (optimizer w) target_size)
      as [timeout ->].
    rewrite run_bind, run_lift_Returns. cbn beta iota.
    rewrite run_bind, run_time_time. cbn beta iota. rewrite run_bind.
    match goal with
    | |- context [collect_loop ?f ?t ?to ?st ?bt ?w0] =>
        pose proof (collect_loop_batches f t to st bt w0) as Hsame;
        destruct (collect_loop_returns f t to st bt w0)
          as (collected & w1 & Hloop & Hne);
          [done|by right|cbn [length]; lia|]
    end.
    rewrite Hloop in Hsame |- *. cbn [snd] in Hsame. red in Hsame.
    simpl_fields. cbn beta iota. rewrite run_bind, run_self. cbn beta iota.
    destruct (enable_coalescing _ && _).
    - destruct (coalesce_requests_run collected w1) as [w2 ->]; [lia|].
      eexists _, _. split; [done|]. by apply first_of_each_hash_nonempty.
    - rewrite run_ret. by eexists _, _. }
  destruct Hrun as (batch & w' & Hrun & Hne).
  exists batch, w'. split_and!; [done..|].
  apply collect_batch_length in Hrun. lia.
Qed.

(** *** Where the requests go *)

Definition same_queue (w w' : World) : Prop :=
  _request_heap (optimizer w') = _request_heap (optimizer w)
  /\ lock_waiters w' = lock_waiters w.

#[local] Instance same_queue_preorder : PreOrder same_queue.
Proof.
  split; [by intros w|].
  intros w1 w2 w3 [? ?] [? ?]. split; congruence.
Qed.

Ltac same_queue_tac :=
  try match goal with |- context [if ?b then _ else _] => destruct b end;
  red; simpl_fields; done.

(** A suspension during which no producer submits leaves the queue as
    it is. *)
Lemma suspended_quiet w :
  (forall k, submitted (activity k) = []) ->
  lock_waiters w = [] ->
  exists w', suspended w = (Returned tt, w') /\ same_queue w w'.
Proof.
  intros Hquiet Hnone. unfold suspended.
  rewrite run_bind, run_get. cbn beta iota zeta.
  rewrite run_bind, run_modify. cbn beta iota.
  rewrite run_bind.
  assert (Hserve : exists w1,
    (if lock_held w then mret tt else serve_waiters)
      (set_suspensions (S (suspensions w)) w) = (Returned tt, w1)
    /\ same_queue w w1).
  { destruct (lock_held w).
    - rewrite run_ret. by eexists.
    - unfold serve_waiters. mrun. rewrite Hnone, run_for_each_nil.
      eexists. split; [done|]. red. simpl_fields. by rewrite Hnone. }
  destruct Hserve as (w1 & -> & Hq1). cbn beta iota.
  rewrite Hquiet, run_bind, run_for_each_nil. cbn beta iota.
  rewrite run_bind.
  match goal with
  | |- context [for_each ?l cancel ?w0] =>
      destruct (run_total (for_each l cancel) same_queue w0)
        as ([] & w2 & -> & Hq2); [frame idtac|frame same_queue_tac|]
  end.
  cbn beta iota.
  destruct (stop_called _); mrun; eexists; (split; [done|]).
  - etransitivity; [exact Hq1|]. etransitivity; [exact Hq2|].
    red. by simpl_fields.
  - by etransitivity.
Qed.

Lemma collect_loop_settings fuel : forall target_size timeout start_time batch,
  preserves same_settings
    (collect_loop fuel target_size timeout start_time batch).
Proof.
  induction fuel as [|fuel IH]; intros ? ? ? ?; cbn [collect_loop];
    frame settings_tac.
Qed.

(** With no producer submitting, what the loop adds to the batch is what
    it takes from the queue. *)
Lemma collect_loop_conserves fuel : forall target_size timeout start_time
    batch w result w',
  (forall k, submitted (activity k) = []) ->
  lock_waiters w = [] ->
  collect_loop fuel target_size timeout start_time batch w
    = (Returned result, w') ->
  result ++ _request_heap (optimizer w') ≡ₚ batch ++ _request_heap (optimizer w)
  /\ lock_waiters w' = [].
Proof.
  induction fuel as [|fuel IH];
    intros target_size timeout start_time batch w result w' Hquiet Hnone;
    cbn [collect_loop]; [done|].
  destruct (Z.of_nat (length batch) <? target_size);
    [|rewrite run_ret; by intros [= <- <-]].
  rewrite run_bind.
  destruct (lock_acquire_run w) as (w1 & -> & Hnone1 & _ & Hsame).
  specialize (Hsame Hnone). cbn beta iota.
  rewrite run_bind, run_self. cbn beta iota. rewrite <- Hsame.
  destruct (_request_heap (optimizer w1)) as [|top rest] eqn:Hheap.
  - destruct batch as [|b batch].
    + rewrite run_bind. unfold asyncio_sleep. rewrite run_bind, run_log.
      cbn beta iota.
      match goal with
      | |- context [suspended ?w0] =>
          destruct (suspended_quiet w0 Hquiet) as (w2 & -> & Hq2 & Hw2);
            [by simpl_fields|]
      end.
      simpl_fields. cbn beta iota.
      unfold lock_release, timeout_expired. mrun.
      match goal with
      | |- context [if ?c then _ else _] => destruct c
      end.
      * rewrite run_ret. intros [= <- <-]. simpl_fields.
        rewrite Hq2, Hw2, Hheap. done.
      * intros Hrun. apply IH in Hrun as [Hperm Hw']; [|done|].
        -- simpl_fields. rewrite Hq2, Hheap in Hperm. done.
        -- simpl_fields. congruence.
    + unfold lock_release. mrun. intros [= <- <-]. simpl_fields.
      by rewrite Hheap.
  - rewrite <- Hheap.
    destruct (Heapq.heappop request_less (_request_heap (optimizer w1)))
      as [[req heap']|] eqn:Hpop; [|by rewrite run_raise].
    assert (Hperm : _request_heap (optimizer w1) ≡ₚ req :: heap').
    { eapply heappop_perm;
        eauto using request_less_irrefl, request_less_trans. }
    unfold lock_release, timeout_expired. mrun.
    match goal with
    | |- context [if ?c then _ else _] => destruct c
    end.
    + rewrite run_ret. intros [= <- <-]. simpl_fields.
      split; [|done]. rewrite Hperm, <- app_assoc. done.
    + intros Hrun. apply IH in Hrun as [Hrun Hw']; [|done|by simpl_fields].
      simpl_fields. split; [|done].
      rewrite Hrun, Hperm, <- app_assoc. done.
Qed.

Lemma coalesce_groups_queue groups : forall coalesced,
  preserves same_queue (coalesce_groups groups coalesced).
Proof.
  induction groups as [|[k group] groups IH]; intros coalesced;
    cbn [coalesce_groups]; [frame same_queue_tac|].
  apply preserves_bind; [apply _| |intros c; apply IH].
  unfold coalesce_group. frame same_queue_tac.
Qed.

(** X19.  While no producer submits, the requests that [_collect_batch]
    takes from the queue and the requests that stay in it make up the
    queue it found, and [get_queue_size] drops by the number taken.
    The batch returned holds the requests taken, or, when coalescing is
    enabled and more than one was taken, the first of each payload
    hash: the others are in neither the batch nor the queue. *)
Theorem collect_batch_conserves_requests fuel target_size w batch w' :
  (forall k, submitted (activity k) = []) ->
  lock_waiters w = [] ->
  _collect_batch fuel target_size w = (Returned batch, w') ->
  exists taken,
    taken ++ _request_heap (optimizer w') ≡ₚ _request_heap (optimizer w)
    /\ get_queue_size (optimizer w')
       = get_queue_size (optimizer w) - Z.of_nat (length taken)
    /\ batch = (if enable_coalescing (config (optimizer w))
                   && (1 <? length taken)%nat
                then first_of_each_hash [] taken else taken).
Proof.
  intros Hquiet Hnone Hrun. unfold _collect_batch in Hrun.
  rewrite run_bind, run_self in Hrun. cbn beta iota in Hrun.
  rewrite run_bind in Hrun.
  destruct (_calculate_timeout (optimizer w) target_size)
    as [timeout|e]; [|done].
  rewrite run_lift_Returns in Hrun. cbn beta iota in Hrun.
  rewrite run_bind, run_time_time in Hrun. cbn beta iota in Hrun.
  rewrite run_bind in Hrun.
  match type of Hrun with
  | context [collect_loop ?f ?t ?to ?st ?bt ?w0] =>
      pose proof (collect_loop_settings f t to st bt w0) as Hsettings;
      destruct (collect_loop f t to st bt w0)
        as [[taken| |] w1] eqn:Hloop; [|done..]
  end.
  cbn [snd] in Hsettings. destruct Hsettings as [Hcfg _].
  simpl_fields.
  apply collect_loop_conserves in Hloop as [Hperm _]; [|done|by simpl_fields].
  simpl_fields. cbn [app] in Hperm.
  rewrite run_bind, run_self in Hrun. cbn beta iota in Hrun.
  rewrite Hcfg in Hrun.
  exists taken.
  assert (Hq : _request_heap (optimizer w') = _request_heap (optimizer w1)
               /\ batch = (if enable_coalescing (config (optimizer w))
                              && (1 <? length taken)%nat
                           then first_of_each_hash [] taken else taken)).
  { destruct (enable_coalescing _ && _).
    - unfold _coalesce_requests in Hrun.
      pose proof (coalesce_groups_queue (group_requests taken) [] w1) as [Hq _].
      rewrite Hrun in Hq. cbn [snd] in Hq.
      apply coalesce_groups_run in Hrun as (-> & _).
      by rewrite app_nil_l, group_requests_primaries.
    - rewrite run_ret in Hrun. by injection Hrun as <- <-. }
  destruct Hq as [Hq Hbatch]. rewrite Hq. split_and!; [done| |done].
  unfold get_queue_size. rewrite Hq, <- Hperm, length_app. lia.
Qed.

(** X20.  When the timeout computed for the batch is negative and the
    clock does not go backwards, [_collect_batch] on a queue that is not
    empty returns one request only, whatever the target size: the
    timeout has expired at the first check, right after the first
    request was taken.  With no producer waiting for the lock it is the
    head of the queue. *)
Theorem negative_timeout_gives_single_request fuel target_size w timeout :
  (forall n m, (n <= m)%nat -> (clock n <= clock m)%Q) ->
  _calculate_timeout (optimizer w) target_size = Returns timeout ->
  (timeout < 0)%Q ->
  _request_heap (optimizer w) <> [] ->
  1 <= target_size ->
  (0 < fuel)%nat ->
  exists req w',
    _collect_batch fuel target_size w = (Returned [req], w')
    /\ (lock_waiters w = [] ->
        Heapq.heappop request_less (_request_heap (optimizer w))
        = Some (req, _request_heap (optimizer w'))).
Proof.
  intros Hclock Htimeout Hneg Hqueue Htarget Hfuel.
  destruct fuel as [|fuel]; [lia|].
  unfold _collect_batch. rewrite run_bind, run_self. cbn beta iota.
  rewrite Htimeout, run_bind, run_lift_Returns. cbn beta iota.
  rewrite run_bind, run_time_time. cbn beta iota. rewrite run_bind.
  cbn [collect_loop length].
  assert (Hroom : (Z.of_nat 0 <? target_size) = true)
    by (apply Z.ltb_lt; lia).
  rewrite Hroom, run_bind.
  set (w0 := set_clock_reads (S (clock_reads w)) w).
  pose proof (lock_acquire_grows w0) as Hgrows.
  pose proof (lock_acquire_clock w0) as Hreads.
  destruct (lock_acquire_run w0) as (w1 & Hacq & _ & _ & Hsame).
  rewrite Hacq in Hgrows, Hreads |- *. cbn [snd] in Hgrows, Hreads.
  red in Hgrows, Hreads. subst w0. simpl_fields.
  cbn beta iota. rewrite run_bind, run_self. cbn beta iota.
  destruct (_request_heap (optimizer w1)) as [|top rest] eqn:Hheap.
  { destruct (_request_heap (optimizer w)); [done|].
    cbn [length] in Hgrows. lia. }
  rewrite <- Hheap.
  destruct (heappop_is_Some request_less (_request_heap (optimizer w1)))
    as [[req heap'] Hpop]; [by rewrite Hheap|].
  rewrite Hpop.
  unfold lock_release, timeout_expired. mrun.
  assert (Hexpired :
    Qltb timeout ((clock (clock_reads w1) - clock (clock_reads w)) * 1000)
    = true).
  { apply Qltb_lt.
    assert (clock (clock_reads w) <= clock (clock_reads w1))%Q
      by (apply Hclock; lia).
    assert (0 <= (clock (clock_reads w1) - clock (clock_reads w)) * 1000)%Q
      by (apply Qmult_le_0_compat; [lra|done]).
    lra. }
  rewrite Hexpired. mrun.
  rewrite andb_false_r. mrun.
  exists req. eexists. split; [reflexivity|]. simpl_fields.
  intros Hnone. rewrite <- (Hsame Hnone). by rewrite <- Hheap.
Qed.

(** ** More on [_process_batch] *)

(** The distribution loop pairs requests and results by position
    ([zip], line 387). *)
Lemma distribute_results_positions batch : forall results w,
  NoDup (map future batch) ->
  let w' := (distribute_results batch results w).2 in
  (forall i req, batch !! i = Some req -> (length results <= i)%nat ->
     futures w' (future req) = futures w (future req))
  /\ (forall i req result,
        batch !! i = Some req -> results !! i = Some result ->
        done (futures w (future req)) = false ->
        futures w' (future req) = Finished result).
Proof.
  induction batch as [|r batch IH]; intros results w Hnd; cbn zeta.
  { split; intros i req; by rewrite lookup_nil. }
  destruct results as [|x results].
  { unfold distribute_results. cbn [zip zip_with]. rewrite run_for_each_nil.
    split; [done|]. intros i req result _. by rewrite lookup_nil. }
  cbn [map] in Hnd. apply NoDup_cons in Hnd as [Hfresh Hnd].
  assert (Hother : forall j req, batch !! j = Some req ->
            future req <> future r).
  { intros j req Hj E. apply Hfresh. rewrite <- E.
    apply list_elem_of_In, in_map, list_elem_of_In.
    by eapply list_elem_of_lookup_2. }
  unfold distribute_results.
  change (zip (r :: batch) (x :: results)) with ((r, x) :: zip batch results).
  rewrite run_for_each_cons, run_bind.
  destruct (distribute_result_run r x w) as (w1 & -> & Hw1).
  cbn beta iota. fold (distribute_results batch results w1).
  destruct (IH results w1 Hnd) as [IH1 IH2]. cbn zeta in IH1, IH2.
  assert (Hkeep : forall j req, batch !! j = Some req ->
            futures w1 (future req) = futures w (future req)).
  { intros j req Hj. rewrite Hw1. unfold completed, store_set.
    destruct (done (futures w (future r))); [done|].
    case_decide as E; [|done]. by apply Hother in Hj. }
  split.
  - intros [|j] req Hi Hlen; cbn [length] in Hlen; [lia|].
    cbn in Hi. rewrite (IH1 j) by (done || lia). by eapply Hkeep.
  - intros [|j] req result Hi Hres Hpending; cbn in Hi, Hres.
    + injection Hi as ->. injection Hres as ->.
      destruct (distribute_results_run batch results w1)
        as (w' & -> & Hdone & _).
      cbn [snd].
      assert (E : futures w1 (future req) = Finished result).
      { rewrite Hw1. unfold completed, store_set. rewrite Hpending.
        by case_decide. }
      rewrite Hdone; rewrite E; done.
    + apply (IH2 j); [done..|]. by rewrite (Hkeep j).
Qed.

Lemma call_processor_result batch w process :
  processor (optimizer w) = Some process ->
  (call_processor batch w).1
  = match process (map request_data batch) with
    | Returns results => Returned results
    | Raises e => Raised e
    end.
Proof.
  intros Hprocessor. unfold call_processor.
  rewrite run_bind, run_self. cbn beta iota.
  rewrite Hprocessor, run_bind, run_log. cbn beta iota. rewrite run_bind.
  match goal with
  | |- context [suspended ?w0] =>
      destruct (suspended_returns w0) as [[] Hs];
      destruct (suspended w0) as [o w1]
  end.
  simpl in Hs. subst o. cbn beta iota.
  by destruct (process _).
Qed.

(** X21.  When the processor returns, the i-th result goes to the i-th
    request of the batch: a request whose future is pending when the
    call ends is completed with the result at its position.  The lists
    are paired by [zip] (line 387), so when the processor returns fewer
    results than requests, the futures of the requests beyond the last
    result are left as they are: they get neither a result nor an
    exception. *)
Theorem results_are_distributed_by_position batch w process results :
  processor (optimizer w) = Some process ->
  process (map request_data batch) = Returns results ->
  NoDup (map future batch) ->
  let called := call_processor batch (time_time w).2 in
  let w' := (_process_batch batch w).2 in
  (forall i req result,
     batch !! i = Some req -> results !! i = Some result ->
     done (futures called.2 (future req)) = false ->
     futures w' (future req) = Finished result)
  /\ (forall i req,
        batch !! i = Some req -> (length results <= i)%nat ->
        futures w' (future req) = futures called.2 (future req)).
Proof.
  intros Hprocessor Hreturns Hnd called w'. subst w'.
  destruct batch as [|r batch].
  { split; intros i req; by rewrite lookup_nil. }
  rewrite process_batch_futures. fold called.
  assert (Hcalled : called.1 = Returned results).
  { subst called. rewrite (call_processor_result _ _ process).
    - by rewrite Hreturns.
    - rewrite run_time_time. by simpl_fields. }
  rewrite Hcalled.
  destruct (distribute_results_positions (r :: batch) results called.2 Hnd)
    as [Hpos Hshort].
  split; [exact Hshort|exact Hpos].
Qed.

(** *** The tables [_request_times] and [_coalescing_cache] *)

Definition same_tables (w w' : World) : Prop :=
  _request_times (optimizer w') = _request_times (optimizer w)
  /\ _coalescing_cache (optimizer w') = _coalescing_cache (optimizer w).

#[local] Instance same_tables_preorder : PreOrder same_tables.
Proof.
  split; [by intros w|].
  intros w1 w2 w3 [? ?] [? ?]. split; congruence.
Qed.

Ltac same_tables_tac :=
  try match goal with |- context [if ?b then _ else _] => destruct b end;
  red; simpl_fields; done.

(** The distribution loop only deletes from the tables. *)
Definition tables_shrink (w w' : World) : Prop :=
  _request_times (optimizer w') ⊆ _request_times (optimizer w)
  /\ _coalescing_cache (optimizer w') ⊆ _coalescing_cache (optimizer w).

#[local] Instance tables_shrink_preorder : PreOrder tables_shrink.
Proof.
  split; [by intros w|].
  intros w1 w2 w3 [? ?] [? ?]. split; by etransitivity.
Qed.

Ltac tables_shrink_tac :=
  try match goal with |- context [if ?b then _ else _] => destruct b end;
  red; simpl_fields; split; try done; apply delete_subseteq.

Lemma update_wait_time_tables wait_time_ms :
  preserves same_tables (_update_wait_time wait_time_ms).
Proof. unfold _update_wait_time. frame same_tables_tac. Qed.

Lemma distribute_result_shrinks rr : preserves tables_shrink (distribute_result rr).
Proof.
  destruct rr as [req result].
  unfold distribute_result, _update_wait_time. frame tables_shrink_tac.
Qed.

Lemma distribute_result_tables req result w :
  let w' := (distribute_result (req, result) w).2 in
  _request_times (optimizer w') !! request_id req = None
  /\ _coalescing_cache (optimizer w') !! request_id req = None.
Proof.
  cbn zeta. unfold distribute_result.
  rewrite run_bind, run_future_done. cbn beta iota. rewrite run_bind.
  assert (Hfirst : exists w1,
    (if negb (done (futures w (future req)))
     then set_result (future req) result else mret tt) w = (Returned tt, w1)
    /\ same_tables w w1).
  { destruct (done (futures w (future req))) eqn:Hdone; cbn [negb].
    - rewrite run_ret. by eexists.
    - unfold set_result. rewrite run_bind, run_get. cbn beta iota.
      rewrite Hdone, run_modify. by eexists. }
  destruct Hfirst as (w1 & -> & _). cbn beta iota.
  rewrite run_bind, run_self. cbn beta iota. rewrite run_bind.
  assert (Hcache : exists w2,
    match _coalescing_cache (optimizer w1) !! request_id req with
    | Some coalesced_ids =>
        for_each coalesced_ids (fun _ => mret tt);;
        modify_self (fun s =>
          set_coalescing_cache
            (delete (request_id req) (_coalescing_cache s)) s)
    | None => mret tt
    end w1 = (Returned tt, w2)
    /\ _coalescing_cache (optimizer w2) !! request_id req = None).
  { destruct (_coalescing_cache (optimizer w1) !! request_id req) eqn:Hc.
    - rewrite run_bind, for_each_pass. cbn beta iota.
      rewrite run_modify_self. eexists. split; [done|]. simpl_fields.
      apply lookup_delete_eq.
    - rewrite run_ret. by eexists. }
  destruct Hcache as (w2 & -> & Hc2). cbn beta iota.
  rewrite run_bind, run_self. cbn beta iota.
  destruct (_request_times (optimizer w2) !! request_id req) eqn:Ht.
  - rewrite run_bind, run_time_time. cbn beta iota. rewrite run_bind.
    match goal with
    | |- context [_update_wait_time ?t ?w0] =>
        destruct (run_total (_update_wait_time t) same_tables w0)
          as ([] & w3 & -> & Ht3 & Hc3);
          [apply update_wait_time_returns|apply update_wait_time_tables|]
    end.
    cbn beta iota. rewrite run_modify_self. simpl_fields.
    split; [apply lookup_delete_eq|]. by rewrite Hc3.
  - rewrite run_ret. done.
Qed.

Lemma distribute_results_tables batch : forall results w,
  (length batch <= length results)%nat ->
  let w' := (distribute_results batch results w).2 in
  forall req, req ∈ batch ->
    _request_times (optimizer w') !! request_id req = None
    /\ _coalescing_cache (optimizer w') !! request_id req = None.
Proof.
  induction batch as [|r batch IH]; intros results w Hlen; cbn zeta.
  { intros req Hreq. by apply elem_of_nil in Hreq. }
  destruct results as [|x results]; cbn [length] in Hlen; [lia|].
  unfold distribute_results.
  change (zip (r :: batch) (x :: results)) with ((r, x) :: zip batch results).
  rewrite run_for_each_cons, run_bind.
  pose proof (distribute_result_tables r x w) as Hr. cbn zeta in Hr.
  destruct (distribute_result_run r x w) as (w1 & Hrun & _).
  rewrite Hrun in Hr |- *. cbn [snd] in Hr. cbn beta iota.
  fold (distribute_results batch results w1).
  assert (Hshrink : tables_shrink w1 (distribute_results batch results w1).2).
  { unfold distribute_results. apply preserves_for_each; [apply _|].
    intros rr _. apply distribute_result_shrinks. }
  intros req Hreq. apply elem_of_cons in Hreq as [->|Hreq].
  - destruct Hr as [Ht Hc], Hshrink as [St Sc]. split.
    + by eapply lookup_weaken_None.
    + by eapply lookup_weaken_None.
  - apply IH; [lia|done].
Qed.

Lemma process_batch_tables req batch w :
  let w0 := (time_time w).2 in
  let called := call_processor (req :: batch) w0 in
  same_tables
    match called.1 with
    | Returned results => (distribute_results (req :: batch) results called.2).2
    | Raised e => (fail_batch (req :: batch) e called.2).2
    | OutOfFuel => called.2
    end
    (_process_batch (req :: batch) w).2.
Proof.
  intros w0 called. subst called w0. cbn [_process_batch].
  rewrite run_bind, !run_time_time. cbn beta iota. simpl_fields.
  rewrite run_bind, run_try_except, run_bind.
  match goal with
  | |- context [call_processor ?b ?w0] =>
      destruct (call_processor b w0) as [[results|e|] w1]
  end; cbn beta iota; simpl_fields; [| |done].
  - destruct (distribute_results_run (req :: batch) results w1)
      as (w2 & -> & _).
    cbn beta iota. simpl_fields.
    match goal with
    | |- same_tables _ (?T ?w).2 =>
        assert (HT : preserves same_tables T);
          [unfold _update_metrics; frame same_tables_tac|apply HT]
    end.
  - destruct (fail_batch_run (req :: batch) e w1) as (w2 & -> & _).
    cbn beta iota. simpl_fields.
    match goal with
    | |- same_tables _ (?T ?w).2 =>
        assert (HT : preserves same_tables T);
          [unfold _update_metrics; frame same_tables_tac|apply HT]
    end.
Qed.

Lemma fail_batch_tables batch e : preserves same_tables (fail_batch batch e).
Proof. unfold fail_batch. frame same_tables_tac. Qed.

(** X22.  The entries of [_request_times] and [_coalescing_cache] are
    removed by the distribution loop only (lines 396 and 402).  When the
    processor returns at least as many results as the batch has
    requests, no request of the batch has an entry in either table
    afterwards.  When the processor raises, both tables are at the end
    of [_process_batch] as they were when the call ended: the entries of
    the failed requests stay. *)
Theorem request_times_removed_only_on_success batch w process :
  processor (optimizer w) = Some process ->
  let called := call_processor batch (time_time w).2 in
  let s' := optimizer (_process_batch batch w).2 in
  (forall results,
     process (map request_data batch) = Returns results ->
     (length batch <= length results)%nat ->
     forall req, req ∈ batch ->
       _request_times s' !! request_id req = None
       /\ _coalescing_cache s' !! request_id req = None)
  /\ (forall e,
        batch <> [] ->
        process (map request_data batch) = Raises e ->
        _request_times s' = _request_times (optimizer called.2)
        /\ _coalescing_cache s' = _coalescing_cache (optimizer called.2)).
Proof.
  intros Hprocessor called s'. subst s'.
  destruct batch as [|r batch].
  { split; [|done]. intros results _ _ req Hreq. by apply elem_of_nil in Hreq. }
  pose proof (process_batch_tables r batch w) as Htables.
  cbn zeta in Htables. fold called in Htables.
  assert (Hcalled : called.1
    = match process (map request_data (r :: batch)) with
      | Returns results => Returned results
      | Raises e => Raised e
      end).
  { subst called. apply call_processor_result.
    rewrite run_time_time. by simpl_fields. }
  rewrite Hcalled in Htables. split.
  - intros results Hreturns Hlen req Hreq. rewrite Hreturns in Htables.
    destruct Htables as [-> ->].
    by apply distribute_results_tables.
  - intros e _ Hraises. rewrite Hraises in Htables.
    destruct Htables as [-> ->].
    apply fail_batch_tables.
Qed.

(** ** The lock outside [_collect_batch] *)

(** Whether the lock is held after [trace]. *)
Fixpoint held_after (held : bool) (trace : list Event) : bool :=
  match trace with
  | [] => held
  | Acquire :: t => held_after true t
  | Release :: t => held_after false t
  | _ :: t => held_after held t
  end.

Lemma lock_discipline_app t1 : forall held t2,
  lock_discipline held (t1 ++ t2)
  = lock_discipline held t1 && lock_discipline (held_after held t1) t2.
Proof.
  induction t1 as [|e t1 IH]; intros held t2; [done|].
  destruct e; cbn [app lock_discipline held_after]; rewrite IH;
    by rewrite ?andb_assoc.
Qed.

Lemma held_after_app t1 : forall held t2,
  held_after held (t1 ++ t2) = held_after (held_after held t1) t2.
Proof.
  induction t1 as [|e t1 IH]; intros held t2; [done|].
  destruct e; cbn [app held_after]; by rewrite IH.
Qed.

(** The events added take the lock from free to free without suspending
    under it. *)
Definition lock_idle (w w' : World) : Prop :=
  exists events,
    trace w' = trace w ++ events
    /\ lock_discipline false events = true
    /\ held_after false events = false.

#[local] Instance lock_idle_preorder : PreOrder lock_idle.
Proof.
  split.
  - intros w. exists []. by rewrite app_nil_r.
  - intros w1 w2 w3 (t1 & E1 & D1 & H1) (t2 & E2 & D2 & H2).
    exists (t1 ++ t2). split_and!.
    + by rewrite E2, E1, app_assoc.
    + by rewrite lock_discipline_app, D1, H1, D2.
    + by rewrite held_after_app, H1.
Qed.

Ltac lock_idle_tac :=
  try match goal with |- context [if ?b then _ else _] => destruct b end;
  red; simpl_fields;
  first [ exists []; by rewrite app_nil_r
        | eexists [_]; split; [reflexivity|]; split; reflexivity ].

Lemma submit_enqueue_idle rp : preserves lock_idle (submit_enqueue rp).
Proof.
  destruct rp as [req p]. intros w. unfold submit_enqueue. mrun.
  destruct p; mrun; exists [Acquire; Push; Release]; simpl_fields;
    by rewrite <- !app_assoc.
Qed.

#[local] Hint Resolve submit_enqueue_idle : frames.

Lemma serve_waiters_idle : preserves lock_idle serve_waiters.
Proof. frame lock_idle_tac. Qed.

Lemma serve_waiters_returns : returns serve_waiters.
Proof. frame idtac. Qed.

Lemma suspended_idle : preserves lock_idle suspended.
Proof. frame lock_idle_tac. Qed.

#[local] Hint Resolve suspended_idle : frames.

(** The peek of the sizing round (lines 267-273). *)
Lemma locked_peek_idle batch_size :
  preserves lock_idle
    (lock_acquire;;
     batch_size ← priority_override batch_size;
     lock_release;;
     mret batch_size).
Proof.
  intros w. unfold lock_acquire. rewrite run_bind, run_bind.
  destruct (run_total serve_waiters lock_idle w)
    as ([] & w1 & -> & Hidle);
    [apply serve_waiters_returns|apply serve_waiters_idle|].
  cbn beta iota. etransitivity; [exact Hidle|].
  unfold priority_override, lock_release. mrun.
  destruct (_request_heap (optimizer w1)) as [|top rest]; mrun.
  { exists [Acquire; Release]. simpl_fields. by rewrite <- !app_assoc. }
  destruct (priority top =? priority_value CRITICAL); mrun;
    [exists [Acquire; Peek; Release]; simpl_fields;
     by rewrite <- !app_assoc|].
  destruct (priority top =? priority_value HIGH); mrun;
    exists [Acquire; Peek; Release]; simpl_fields;
    by rewrite <- !app_assoc.
Qed.

Lemma calculate_optimal_batch_size_idle :
  preserves lock_idle _calculate_optimal_batch_size.
Proof.
  unfold _calculate_optimal_batch_size.
  apply preserves_bind; [apply _|apply preserves_self; apply _|].
  intros s. cbn zeta.
  apply preserves_bind; [apply _| |intros b; apply locked_peek_idle].
  unfold gpu_adjusted_size. frame lock_idle_tac.
Qed.

Lemma process_batch_idle batch : preserves lock_idle (_process_batch batch).
Proof.
  unfold _process_batch, call_processor, distribute_results,
    fail_batch, distribute_result, _update_metrics, _update_wait_time.
  frame lock_idle_tac.
Qed.

(** X23.  Outside [_collect_batch] the consumer never suspends while it
    holds the queue lock: from a trace in which the lock is free and no
    sleep or processor call lies between an acquire and its release, a
    sizing round and the dispatch of a batch both lead to such a trace
    again.  The sizing round holds the lock for its peek only; the
    dispatch awaits the processor without the lock. *)
Theorem sizing_and_dispatch_release_before_suspending w :
  lock_discipline false (trace w) = true ->
  held_after false (trace w) = false ->
  (let w' := (_calculate_optimal_batch_size w).2 in
   lock_discipline false (trace w') = true
   /\ held_after false (trace w') = false)
  /\ (forall batch,
        let w' := (_process_batch batch w).2 in
        lock_discipline false (trace w') = true
        /\ held_after false (trace w') = false).
Proof.
  intros Hdiscipline Hfree.
  assert (Hidle : forall w', lock_idle w w' ->
            lock_discipline false (trace w') = true
            /\ held_after false (trace w') = false).
  { intros w' (events & -> & D & H).
    by rewrite lock_discipline_app, held_after_app, Hdiscipline, Hfree. }
  split.
  - apply Hidle, calculate_optimal_batch_size_idle.
  - intros batch. apply Hidle, process_batch_idle.
Qed.

(** ** Futures that are done *)

(** An allocated future stays allocated, and keeps its state once it is
    done. *)
Definition done_kept (f : nat) (w w' : World) : Prop :=
  (f < next_future w)%nat ->
  (f < next_future w')%nat
  /\ (done (futures w f) = true -> futures w' f = futures w f).

#[local] Instance done_kept_preorder f : PreOrder (done_kept f).
Proof.
  split; [by intros w Hf|].
  intros w1 w2 w3 H12 H23 Hf.
  destruct (H12 Hf) as [Hf2 H2]. destruct (H23 Hf2) as [Hf3 H3].
  split; [done|]. intros Hdone.
  rewrite H3; [by apply H2|]. by rewrite H2.
Qed.

Ltac done_kept_tac :=
  let Hf := fresh "Hf" in
  let Hd := fresh "Hd" in
  intros Hf;
  try match goal with
      | |- context [if ?b then _ else _] => destruct b eqn:?
      end;
  simpl_fields; (split; [lia|]); intros Hd; unfold store_set;
  try case_decide; subst; try done; try lia; congruence.

Lemma set_result_done_kept f g r : preserves (done_kept f) (set_result g r).
Proof.
  intros w. unfold set_result. rewrite run_bind, run_get. cbn beta iota.
  destruct (done (futures w g)) eqn:Hg; [by rewrite run_raise|].
  rewrite run_modify. cbn [snd]. intros Hf. simpl_fields.
  split; [done|]. intros Hd. unfold store_set. case_decide; [|done].
  subst. congruence.
Qed.

Lemma set_exception_done_kept f g e :
  preserves (done_kept f) (set_exception g e).
Proof.
  intros w. unfold set_exception. rewrite run_bind, run_get. cbn beta iota.
  destruct (done (futures w g)) eqn:Hg; [by rewrite run_raise|].
  rewrite run_modify. cbn [snd]. intros Hf. simpl_fields.
  split; [done|]. intros Hd. unfold store_set. case_decide; [|done].
  subst. congruence.
Qed.

#[local] Hint Resolve set_result_done_kept set_exception_done_kept : frames.

Lemma processing_loop_done_kept f :
  forall fuel collect_fuel,
    preserves (done_kept f) (_processing_loop fuel collect_fuel).
Proof. invariant_of_loop (done_kept f) done_kept_tac. Qed.

(** X24.  A future that is done keeps its state through everything that
    happens afterwards: the processing loop, the submissions of the
    producers and the deadlines of the waiting callers never give a
    second result or exception to a request that was answered or
    cancelled, and never answer a request that was cancelled. *)
Theorem done_futures_never_change f fuel collect_fuel w :
  (f < next_future w)%nat ->
  done (futures w f) = true ->
  futures (_processing_loop fuel collect_fuel w).2 f = futures w f.
Proof.
  intros Hf Hdone.
  by apply (processing_loop_done_kept f fuel collect_fuel w).
Qed.

End Scheduler.

(** * Concrete runs

    Payloads and processor values are integers, the grouping key of a
    payload is the payload itself, and every reading of the clock is one
    millisecond after the previous one. *)

Definition ex_hash (p : Z) : Z := p.

Definition ex_format_request_id (t : Q) (object_id : Z) : string :=
  match object_id with
  | 1 => "req_1" | 2 => "req_2" | 3 => "req_3" | _ => "req"
  end.

Definition ex_clock (n : nat) : Q := (inject_Z (Z.of_nat n) / 1000)%Q.

(** A clock whose readings are one second apart. *)
Definition slow_clock (n : nat) : Q := inject_Z (Z.of_nat n).

(** Nothing happens while the consumer is suspended. *)
Definition idle (k : nat) : Activity Z :=
  {| submitted := []; timed_out := []; stop_called := false |}.

(** Three producers submit during the first suspension; the first two
    carry the same payload. *)
Definition three_submissions (k : nat) : Activity Z :=
  match k with
  | O =>
      {| submitted :=
           [ {| sub_request_data := 7; sub_priority := NORMAL;
                sub_object_id := 1 |};
             {| sub_request_data := 7; sub_priority := NORMAL;
                sub_object_id := 2 |};
             {| sub_request_data := 8; sub_priority := HIGH;
                sub_object_id := 3 |} ];
         timed_out := []; stop_called := false |}
  | _ => idle k
  end.

Definition ex_request (p : RequestPriority) (t : Q) (id : string)
    (data : Z) (f : nat) : PrioritizedRequest Z :=
  {| priority := priority_value p; timestamp := t; request_id := id;
     request_data := data; future := f |}.

(** A fresh optimizer with the default configuration, no GPU monitor and
    no processor. *)
Definition ex_optimizer : BatchOptimizer Z Z :=
  new_optimizer Z Z ex_clock default_config None None.

Definition ex_world : World Z Z := new_world Z Z ex_optimizer.

(** The same world with [requests] in the queue, pushed in order. *)
Definition with_queue (requests : list (PrioritizedRequest Z))
    (w : World Z Z) : World Z Z :=
  set_optimizer Z Z
    (set_request_heap Z Z
       (fold_left (Heapq.heappush (request_less Z)) requests []) (optimizer Z Z w))
    w.

(** The default configuration with [min_batch_size = 2]. *)
Definition min_two_config : BatchOptimizerConfig :=
  {| min_batch_size := 2; max_batch_size := 64; target_batch_size := 16;
     enable_priority_batching := true; critical_batch_size := 1;
     high_priority_batch_size := 4;
     enable_gpu_aware_sizing := true; target_gpu_utilization := 85 # 100;
     gpu_utilization_window := 10;
     adaptive_timeout := true; min_timeout_ms := 10; max_timeout_ms := 100;
     critical_timeout_ms := 5;
     enable_coalescing := true; coalescing_similarity_threshold := 95 # 100;
     enable_prefetch := true; prefetch_size := 4;
     enable_batch_splitting := true; max_batch_split_size := 32 |}.

Definition critical_request : PrioritizedRequest Z :=
  ex_request CRITICAL 0 "req_1" 7 0.

Definition normal_requests_queue (n : nat) : list (PrioritizedRequest Z) :=
  repeat (ex_request NORMAL 0 "req" 7 0) n.

(** ** C1 *)

(** With [min_batch_size = 2] and the default [critical_batch_size = 1],
    a CRITICAL request at the head of the queue makes the sizing round
    return 1, below [min_batch_size]. *)
Lemma batch_size_below_min_counterexample :
  let w := with_queue [critical_request]
             (new_world Z Z (new_optimizer Z Z ex_clock min_two_config None None)) in
  (_calculate_optimal_batch_size Z Z ex_clock w).1 = Returned 1
  /\ min_batch_size (config Z Z (optimizer Z Z w)) = 2.
Proof. split; reflexivity. Qed.

Lemma optimal_batch_size_within_bounds_witness :
  let w := with_queue [critical_request] ex_world in
  exists size,
    (_calculate_optimal_batch_size Z Z ex_clock w).1 = Returned size
    /\ 1 <= size <= 64.
Proof.
  apply (optimal_batch_size_within_bounds Z Z ex_clock
           (with_queue [critical_request] ex_world)); simpl; lia.
Defined.

(** ** C4 *)

Lemma critical_head_gives_critical_size_witness :
  (_calculate_optimal_batch_size Z Z ex_clock
     (with_queue [critical_request] ex_world)).1 = Returned 1.
Proof.
  apply (critical_head_gives_critical_size Z Z ex_clock
           (with_queue [critical_request] ex_world) critical_request []);
    reflexivity.
Defined.

(** ** C6 *)

Definition queued (n : nat) : BatchOptimizer Z Z :=
  set_request_heap Z Z (normal_requests_queue n) ex_optimizer.

(** With a target size of 5 and 2 requests queued, the queue length is
    below half the target size (2 < 5/2), yet the timeout is not
    [max_timeout_ms = 100]: [5 // 2 = 2], so the interpolation applies
    and gives 64. *)
Lemma timeout_odd_target_counterexample :
  (inject_Z 2 < inject_Z 5 / 2)%Q
  /\ exists timeout,
       _calculate_timeout Z Z (queued 2) 5 = Returns timeout
       /\ (timeout == 64)%Q
       /\ (timeout < max_timeout_ms (config Z Z (queued 2)))%Q.
Proof.
  split; [reflexivity|]. eexists. split; [reflexivity|].
  split; reflexivity.
Qed.

Lemma calculate_timeout_cases_witness :
  exists timeout,
    _calculate_timeout Z Z (queued 16) 16 = Returns timeout
    /\ (timeout == 10)%Q.
Proof.
  destruct (calculate_timeout_cases Z Z (queued 16) 16 eq_refl)
    as [_ Hexample].
  destruct (Hexample eq_refl eq_refl eq_refl) as (timeout & Hrun & _ & _ & H16).
  exists timeout. split; [exact Hrun|]. apply H16. reflexivity.
Defined.

(** ** C7 and C10 *)

Lemma avg_batch_size_running_mean_witness :
  let avg h :=
    avg_batch_size
      (_metrics Z Z (optimizer Z Z (record_batches Z Z ex_clock h ex_world))) in
  let h1 := [(10, 3 # 1)] in
  let h2 := [(10, 3 # 1); (20, 0 # 1)] in
  let h3 := [(10, 3 # 1); (20, 0 # 1); (30, 5 # 1)] in
  (avg h1 == 10)%Q /\ (avg h2 == 15)%Q /\ (avg h3 == 20)%Q.
Proof.
  exact (proj2 (avg_batch_size_running_mean Z Z ex_clock ex_world
                  (ex_clock 0) eq_refl) (3 # 1) (0 # 1) (5 # 1))%Q.
Defined.


(** ** C3 *)

Definition failing_processor (payloads : list Z)
    : Called (list (Result Z Z)) :=
  Raises (ProcessorError "out of memory").

Definition two_requests : list (PrioritizedRequest Z) :=
  [ex_request NORMAL 0 "req_1" 7 0; ex_request NORMAL 0 "req_2" 8 1].

Definition failing_world : World Z Z :=
  new_world Z Z
    (new_optimizer Z Z ex_clock default_config None (Some failing_processor)).


(** ** C2 *)

Ltac distinct :=
  repeat (apply NoDup_cons; split;
          [intros Hin;
           repeat (apply elem_of_cons in Hin as [Hin|Hin]; [discriminate Hin|]);
           by apply elem_of_nil in Hin|]);
  apply NoDup_nil_2.

Definition duplicated_requests : list (PrioritizedRequest Z) :=
  [ex_request NORMAL 0 "req_1" 7 0; ex_request NORMAL 0 "req_2" 7 1;
   ex_request NORMAL 0 "req_3" 8 2].

Lemma coalesced_duplicates_never_completed_witness :
  let r := _coalesce_requests Z Z ex_hash duplicated_requests ex_world in
  let kept := [ex_request NORMAL 0 "req_1" 7 0; ex_request NORMAL 0 "req_3" 8 2] in
  let w2 := (_process_batch Z Z ex_format_request_id ex_clock idle kept r.2).2 in
  r.1 = Returned kept
  /\ _coalescing_cache Z Z (optimizer Z Z r.2) !! "req_1" = Some ["req_2"]
  /\ wait_for Z Z (futures Z Z w2 1%nat) = Raises TimeoutError
  /\ futures Z Z w2 0%nat = Finished Z Z (DefaultHandled Z Z 7).
Proof.
  intros r kept w2.
  assert (Hrun : r = (Returned kept, r.2)) by (vm_compute; reflexivity).
  split; [by rewrite Hrun|]. split; [by vm_compute|].
  split; [|by vm_compute].
  refine (proj1 (proj2 (proj2 (coalesced_duplicates_never_completed Z Z
            ex_hash ex_format_request_id ex_clock idle duplicated_requests
            ex_world kept r.2 (ex_request NORMAL 0 "req_2" 7 1)
            Hrun _ _ _ _))) eq_refl).
  - distinct.
  - distinct.
  - right. left.
  - intros Hin.
    repeat (apply elem_of_cons in Hin as [Hin|Hin]; [discriminate Hin|]).
    by apply elem_of_nil in Hin.
Defined.

(** ** C9 *)

(** With an empty queue, [_collect_batch] enters [async with
    self._heap_lock], then sleeps (line 294) and only then leaves the
    block: the consumer is suspended while it holds the lock.  The
    sizing round on the same world holds the lock for its peek only. *)
Lemma collect_batch_sleeps_holding_lock :
  let r := _collect_batch Z Z ex_hash ex_format_request_id slow_clock idle
             1 1 ex_world in
  r.1 = Returned []
  /\ trace Z Z r.2 = [Acquire; Sleep (1 # 1000); Release]
  /\ lock_discipline false (trace Z Z r.2) = false
  /\ lock_discipline false
       (trace Z Z (_calculate_optimal_batch_size Z Z slow_clock ex_world).2)
     = true.
Proof. repeat split; reflexivity. Qed.

(** ** C5 *)

(** Three requests arrive while the collector waits: the HIGH request,
    submitted last, is collected first; of the two NORMAL requests with
    the same payload the earlier one is kept by the coalescing step. *)
Example collect_batch_order_example :
  let r := _collect_batch Z Z ex_hash ex_format_request_id ex_clock
             three_submissions 10 16 ex_world in
  exists batch,
    r.1 = Returned batch
    /\ map (request_id Z) batch = ["req_3"; "req_1"]
    /\ map (priority Z) batch = [1; 2].
Proof.
  eexists. split; [vm_compute; reflexivity|].
  split; vm_compute; reflexivity.
Qed.

(** ** C1, the other bounds of the configuration *)

(** The default configuration with [target_batch_size = 100]. *)
Definition large_target_config : BatchOptimizerConfig :=
  {| min_batch_size := 1; max_batch_size := 64; target_batch_size := 100;
     enable_priority_batching := true; critical_batch_size := 1;
     high_priority_batch_size := 4;
     enable_gpu_aware_sizing := true; target_gpu_utilization := 85 # 100;
     gpu_utilization_window := 10;
     adaptive_timeout := true; min_timeout_ms := 10; max_timeout_ms := 100;
     critical_timeout_ms := 5;
     enable_coalescing := true; coalescing_similarity_threshold := 95 # 100;
     enable_prefetch := true; prefetch_size := 4;
     enable_batch_splitting := true; max_batch_split_size := 32 |}.

(** A target above [max_batch_size] is returned as it is when no GPU
    monitor is configured and the queue is empty. *)
Example batch_size_above_max_example :
  (_calculate_optimal_batch_size Z Z ex_clock
     (new_world Z Z (new_optimizer Z Z ex_clock large_target_config None None))).1
  = Returned 100.
Proof. reflexivity. Qed.

(** * Further concrete runs *)

(** A monitor that reports a utilization of 50 % at every call, and one
    that raises at every call. *)
Definition half_busy_monitor (n : nat) : Called Q := Returns (1 # 2).



(** The default configuration with [gpu_utilization_window = 0]. *)
Definition no_window_config : BatchOptimizerConfig :=
  {| min_batch_size := 1; max_batch_size := 64; target_batch_size := 16;
     enable_priority_batching := true; critical_batch_size := 1;
     high_priority_batch_size := 4;
     enable_gpu_aware_sizing := true; target_gpu_utilization := 85 # 100;
     gpu_utilization_window := 0;
     adaptive_timeout := true; min_timeout_ms := 10; max_timeout_ms := 100;
     critical_timeout_ms := 5;
     enable_coalescing := true; coalescing_similarity_threshold := 95 # 100;
     enable_prefetch := true; prefetch_size := 4;
     enable_batch_splitting := true; max_batch_split_size := 32 |}.

Definition one_submission : Submission Z :=
  {| sub_request_data := 7; sub_priority := NORMAL; sub_object_id := 1 |}.

Definition high_request : PrioritizedRequest Z :=
  ex_request HIGH 0 "req_2" 8 1.

(** Four NORMAL requests with distinct payloads, in the order of their
    timestamps. *)
Definition four_requests : list (PrioritizedRequest Z) :=
  [ex_request NORMAL 1 "req_1" 1 0; ex_request NORMAL 2 "req_2" 2 1;
   ex_request NORMAL 3 "req_3" 3 2; ex_request NORMAL 4 "req" 4 3].

Definition three_requests : list (PrioritizedRequest Z) :=
  [ex_request NORMAL 1 "req_1" 1 0; ex_request NORMAL 2 "req_2" 2 1;
   ex_request NORMAL 3 "req_3" 3 2].

(** A processor that answers the first request only. *)
Definition short_processor (payloads : list Z) : Called (list (Result Z Z)) :=
  Returns (map (Processed Z Z) (take 1 payloads)).

Definition short_world : World Z Z :=
  new_world Z Z
    (new_optimizer Z Z ex_clock default_config None (Some short_processor)).

(** The world after one producer submitted [one_submission] to an
    optimizer whose processor fails, and the same with the default
    handler. *)
Definition submitted_to_failing : World Z Z :=
  (producer_runs Z Z ex_format_request_id ex_clock one_submission
     failing_world).2.

Definition submitted_world : World Z Z :=
  (producer_runs Z Z ex_format_request_id ex_clock one_submission ex_world).2.

(** The world after the request of [submitted_world] was dispatched. *)
Definition answered_world : World Z Z :=
  (_process_batch Z Z ex_format_request_id ex_clock idle
     (_request_heap Z Z (optimizer Z Z submitted_world)) submitted_world).2.

Lemma ex_clock_monotone n m : (n <= m)%nat -> (ex_clock n <= ex_clock m)%Q.
Proof.
  intros Hnm. unfold ex_clock, Qdiv. apply Qmult_le_compat_r; [|done].
  rewrite <- Zle_Qle. lia.
Qed.




Lemma nonpositive_window_disables_gpu_sizing_witness :
  let r := _calculate_optimal_batch_size Z Z ex_clock
             (new_world Z Z
                (new_optimizer Z Z ex_clock no_window_config
                   (Some half_busy_monitor) None)) in
  r.1 = Returned 16
  /\ gpu_samples (_metrics Z Z (optimizer Z Z r.2)) = [].
Proof.
  intros r. subst r.
  destruct (nonpositive_window_disables_gpu_sizing Z Z ex_clock
              (new_world Z Z
                 (new_optimizer Z Z ex_clock no_window_config
                    (Some half_busy_monitor) None))
              ltac:(vm_compute; discriminate) eq_refl)
    as (Hsize & Hsamples).
  split.
  - etransitivity; [exact Hsize|]. vm_compute. reflexivity.
  - exact Hsamples.
Defined.

Lemma high_head_caps_size_witness :
  exists b size,
    (_calculate_optimal_batch_size Z Z ex_clock
       (with_queue [high_request] ex_world)).1 = Returned size
    /\ size = Z.min b 4
    /\ size <= 4.
Proof.
  destruct (high_head_caps_size Z Z ex_clock
              (with_queue [high_request] ex_world) high_request []
              eq_refl eq_refl)
    as (b & size & Hrun & Hsize & Hle & _).
  exists b, size. split; [exact Hrun|]. split; [exact Hsize|exact Hle].
Defined.


Lemma peak_and_count_survive_failed_updates_witness :
  let w := record_batches Z Z ex_clock [(10, 0 # 1); (20, 3 # 1)] ex_world in
  (_update_metrics Z Z ex_clock 10 (0 # 1) ex_world).1
  = Raised ZeroDivisionError
  /\ batches_processed (_metrics Z Z (optimizer Z Z w)) = 2
  /\ peak_batch_size (_metrics Z Z (optimizer Z Z w)) = 20.
Proof.
  split; [reflexivity|].
  exact (peak_and_count_survive_failed_updates Z Z ex_clock
           [(10, 0 # 1); (20, 3 # 1)] ex_world ltac:(vm_compute; discriminate)).
Defined.


Lemma coalesce_keeps_first_of_each_hash_witness :
  (_coalesce_requests Z Z ex_hash duplicated_requests ex_world).1
  = Returned [ex_request NORMAL 0 "req_1" 7 0; ex_request NORMAL 0 "req_3" 8 2].
Proof.
  exact (proj1 (coalesce_keeps_first_of_each_hash Z Z ex_hash
                  duplicated_requests ex_world
                  ltac:(vm_compute; discriminate))).
Defined.

Lemma coalesce_distinct_hashes_is_identity_witness :
  _coalesce_requests Z Z ex_hash two_requests ex_world
  = (Returned two_requests, ex_world).
Proof.
  apply (coalesce_distinct_hashes_is_identity Z Z ex_hash two_requests
           ex_world).
  distinct.
Defined.

Lemma coalesce_is_idempotent_witness :
  let r := _coalesce_requests Z Z ex_hash duplicated_requests ex_world in
  let kept := [ex_request NORMAL 0 "req_1" 7 0;
               ex_request NORMAL 0 "req_3" 8 2] in
  _coalesce_requests Z Z ex_hash kept r.2 = (Returned kept, r.2).
Proof.
  intros r kept.
  apply (coalesce_is_idempotent Z Z ex_hash duplicated_requests ex_world
           kept r.2).
  vm_compute. reflexivity.
Defined.

Lemma collect_batch_size_bound_witness :
  let r := _collect_batch Z Z ex_hash ex_format_request_id ex_clock idle
             3 2 (with_queue four_requests ex_world) in
  r.1 = Returned [ex_request NORMAL 1 "req_1" 1 0;
                  ex_request NORMAL 2 "req_2" 2 1]
  /\ Z.of_nat 2 <= Z.max 0 2.
Proof.
  intros r.
  assert (Hrun : r = (Returned [ex_request NORMAL 1 "req_1" 1 0;
                                ex_request NORMAL 2 "req_2" 2 1], r.2))
    by (vm_compute; reflexivity).
  split; [by rewrite Hrun|].
  exact (proj1 (collect_batch_size_bound Z Z ex_hash ex_format_request_id
                  ex_clock idle 3 2 (with_queue four_requests ex_world)
                  _ r.2 Hrun)).
Defined.

Lemma collect_batch_serves_nonempty_queue_witness :
  exists batch w',
    _collect_batch Z Z ex_hash ex_format_request_id ex_clock idle
      3 2 (with_queue four_requests ex_world) = (Returned batch, w')
    /\ batch <> []
    /\ Z.of_nat (length batch) <= 2.
Proof.
  apply (collect_batch_serves_nonempty_queue Z Z ex_hash
           ex_format_request_id ex_clock idle 3 2
           (with_queue four_requests ex_world)).
  - vm_compute. discriminate.
  - lia.
  - vm_compute. lia.
  - vm_compute. discriminate.
Defined.

Lemma collect_batch_conserves_requests_witness :
  let w := with_queue four_requests ex_world in
  let r := _collect_batch Z Z ex_hash ex_format_request_id ex_clock idle
             3 2 w in
  exists taken,
    taken ++ _request_heap Z Z (optimizer Z Z r.2)
      ≡ₚ _request_heap Z Z (optimizer Z Z w)
    /\ get_queue_size Z Z (optimizer Z Z r.2)
       = get_queue_size Z Z (optimizer Z Z w) - Z.of_nat (length taken).
Proof.
  intros w r.
  assert (Hrun : r = (Returned [ex_request NORMAL 1 "req_1" 1 0;
                                ex_request NORMAL 2 "req_2" 2 1], r.2))
    by (vm_compute; reflexivity).
  destruct (collect_batch_conserves_requests Z Z ex_hash
              ex_format_request_id ex_clock idle 3 2 w _ r.2
              (fun k => eq_refl) eq_refl Hrun)
    as (taken & Hperm & Hsize & _).
  exists taken. split; [exact Hperm|exact Hsize].
Defined.

Lemma negative_timeout_gives_single_request_witness :
  exists req w',
    _collect_batch Z Z ex_hash ex_format_request_id ex_clock idle
      3 2 (with_queue three_requests ex_world) = (Returned [req], w').
Proof.
  destruct (negative_timeout_gives_single_request Z Z ex_hash
              ex_format_request_id ex_clock idle 3 2
              (with_queue three_requests ex_world) (-70 # 2)%Q
              ex_clock_monotone)
    as (req & w' & Hrun & _).
  - vm_compute. reflexivity.
  - reflexivity.
  - vm_compute. discriminate.
  - lia.
  - lia.
  - by exists req, w'.
Defined.

Lemma results_are_distributed_by_position_witness :
  let w' := (_process_batch Z Z ex_format_request_id ex_clock idle
               two_requests short_world).2 in
  futures Z Z w' 0%nat = Finished Z Z (Processed Z Z 7)
  /\ futures Z Z w' 1%nat = Pending Z Z.
Proof.
  intros w'.
  destruct (results_are_distributed_by_position Z Z ex_format_request_id
              ex_clock idle two_requests short_world short_processor
              [Processed Z Z 7] eq_refl eq_refl ltac:(distinct))
    as [Hpos Hshort].
  split.
  - exact (Hpos 0%nat (ex_request NORMAL 0 "req_1" 7 0) (Processed Z Z 7)
             eq_refl eq_refl ltac:(vm_compute; reflexivity)).
  - refine (eq_trans (Hshort 1%nat (ex_request NORMAL 0 "req_2" 8 1)
                        eq_refl _) _).
    + cbn. lia.
    + vm_compute. reflexivity.
Defined.

Lemma request_times_removed_only_on_success_witness :
  let batch := _request_heap Z Z (optimizer Z Z submitted_to_failing) in
  let w' := (_process_batch Z Z ex_format_request_id ex_clock idle batch
               submitted_to_failing).2 in
  map (request_id Z) batch = ["req_1"]
  /\ is_Some (_request_times Z Z (optimizer Z Z w') !! "req_1").
Proof.
  intros batch w'. split; [reflexivity|].
  destruct (request_times_removed_only_on_success Z Z ex_format_request_id
              ex_clock idle batch submitted_to_failing failing_processor
              eq_refl) as [_ Hfailure].
  destruct (Hfailure (ProcessorError "out of memory")
              ltac:(vm_compute; discriminate) eq_refl) as [Htimes _].
  unfold w'. rewrite Htimes. vm_compute. eauto.
Defined.

Lemma sizing_and_dispatch_release_before_suspending_witness :
  lock_discipline false
    (trace Z Z (_calculate_optimal_batch_size Z Z ex_clock
                  (with_queue [high_request] ex_world)).2) = true
  /\ lock_discipline false
       (trace Z Z (_process_batch Z Z ex_format_request_id ex_clock idle
                     two_requests short_world).2) = true.
Proof.
  destruct (sizing_and_dispatch_release_before_suspending Z Z
              ex_format_request_id ex_clock idle
              (with_queue [high_request] ex_world) eq_refl eq_refl)
    as [[Hsizing _] _].
  destruct (sizing_and_dispatch_release_before_suspending Z Z
              ex_format_request_id ex_clock idle short_world eq_refl eq_refl)
    as [_ Hdispatch].
  split; [exact Hsizing|]. apply (Hdispatch two_requests).
Defined.

Lemma done_futures_never_change_witness :
  futures Z Z answered_world 0%nat = Finished Z Z (DefaultHandled Z Z 7)
  /\ futures Z Z
       (_processing_loop Z Z ex_hash ex_format_request_id ex_clock idle
          2 2 answered_world).2 0%nat
     = Finished Z Z (DefaultHandled Z Z 7).
Proof.
  assert (Hdone : futures Z Z answered_world 0%nat
                  = Finished Z Z (DefaultHandled Z Z 7))
    by (vm_compute; reflexivity).
  split; [exact Hdone|].
  rewrite (done_futures_never_change Z Z ex_hash ex_format_request_id
             ex_clock idle 0 2 2 answered_world).
  - exact Hdone.
  - vm_compute. lia.
  - by rewrite Hdone.
Defined.
